(** * RAFT: result assembly of the IVF / ball-cover search

    A shallow embedding of
      - cpp/include/raft/neighbors/detail/ivf_common.cuh
          (calc_chunk_indices_kernel, find_chunk_ix,
           postprocess_neighbors_kernel, postprocess_distances),
      - cpp/include/raft/core/mdspan.hpp (unravel_index),
      - the scanners declared in
          cpp/src/spatial/knn/detail/ball_cover/registers.cu,
    followed by the theorems that settle the claims C1 .. C10.

    Conventions.  A [uint32_t] is a [Z] in [0, 2^32) and every 32-bit
    operation of the source is followed by [wrap32]; a device pointer is
    a function from element offsets to values, and [p += k] is [shift p k];
    a loop without a static bound carries a fuel argument and returns
    [None] when the fuel runs out. *)

From Stdlib Require Import ZArith Lia Bool String List Sorted Permutation.
From Stdlib Require Import SpecFloat.
Import ListNotations.
Local Open Scope Z_scope.

(* ------------------------------------------------------------------ *)
(** ** Machine integers and device memory *)

Definition two32 : Z := 4294967296.
Definition two31 : Z := 2147483648.
Definition two64 : Z := 18446744073709551616.

Definition wrap32 (x : Z) : Z := x mod two32.
Definition wrap64 (x : Z) : Z := x mod two64.

(** A device array seen through a pointer: offset |-> value. *)
Definition array (A : Type) := Z -> A.

Definition shift {A} (p : array A) (k : Z) : array A := fun i => p (k + i).

Definition store {A} (p : array A) (k : Z) (v : A) : array A :=
  fun i => if i =? k then v else p i.

Definition is_u32 (x : Z) : Prop := 0 <= x < two32.

(** Sum of [f 0 .. f (n-1)], in unbounded integers. *)
Fixpoint sum_upto (f : Z -> Z) (n : nat) : Z :=
  match n with
  | O => 0
  | S n' => sum_upto f n' + f (Z.of_nat n')
  end.

(* ------------------------------------------------------------------ *)
(** ** ivf_common.cuh: find_chunk_ix *)

Module Ivf.

(** The do-while loop of [find_chunk_ix].  The state is
    [(ix_min, ix_max)]; [reads] collects the offsets at which
    [chunk_indices] is dereferenced, most recent first. *)
Fixpoint find_chunk_ix_loop (fuel : nat) (chunk_indices : array Z)
    (sample_ix ix_min ix_max : Z) (reads : list Z) : option (Z * list Z) :=
  match fuel with
  | O => None
  | S fuel' =>
      let i := wrap32 (ix_min + ix_max) / 2 in
      let reads' := i :: reads in
      let ix_min' := if chunk_indices i <=? sample_ix then wrap32 (i + 1) else ix_min in
      let ix_max' := if chunk_indices i <=? sample_ix then ix_max else i in
      if ix_min' <? ix_max'
      then find_chunk_ix_loop fuel' chunk_indices sample_ix ix_min' ix_max' reads'
      else Some (ix_min', reads')
  end.

(** [find_chunk_ix sample_ix n_probes chunk_indices]: the returned chunk
    index, the value left in the in/out reference [sample_ix], and the
    offsets read. *)
Definition find_chunk_ix (fuel : nat) (sample_ix n_probes : Z)
    (chunk_indices : array Z) : option (Z * Z * list Z) :=
  match find_chunk_ix_loop fuel chunk_indices sample_ix 0 n_probes [] with
  | None => None
  | Some (ix_min, reads) =>
      if 0 <? ix_min
      then Some (ix_min,
                 wrap32 (sample_ix - chunk_indices (ix_min - 1)),
                 (ix_min - 1) :: reads)
      else Some (ix_min, sample_ix, reads)
  end.


(** *** calc_chunk_indices_kernel

    One thread block serves one query ([blockIdx.x]).  Its [BlockDim]
    threads run the [for] loop together: in one trip thread [t] handles
    [probe_ix + t], where [probe_ix] is the loop variable of thread 0.
    The model executes a trip for the whole block at once, the threads
    in the order of [threadIdx.x]. *)

(** Modelled from the spec: the block-wide primitive
    [cub::BlockScan<uint32_t, BlockDim>::InclusiveSum(input, output,
    block_aggregate)] is not among the sources.  The spec (4.1) asks for
    "an inclusive prefix sum over a gathered array of sizes": thread [t]
    receives the sum of the inputs of threads [0..t], every thread
    receives the sum of all inputs, in [uint32_t] arithmetic. *)
Fixpoint inclusive_sum_from (acc : Z) (inputs : list Z) : list Z * Z :=
  match inputs with
  | [] => ([], acc)
  | x :: rest =>
      let a := wrap32 (acc + x) in
      let (outs, agg) := inclusive_sum_from a rest in
      (a :: outs, agg)
  end.

(** Modelled from the spec: [InclusiveSum] itself, the scan above
    started from zero; the result is the list of the per-thread outputs
    and the block aggregate. *)
Definition InclusiveSum (inputs : list Z) : list Z * Z :=
  inclusive_sum_from 0 inputs.

Section CalcChunkIndices.
(** Template parameter of the kernel. *)
Variable BlockDim : Z.
(** [Pow2<BlockDim>::roundUp] (raft/util/pow2_utils.cuh) is not among
    the sources and is taken as a parameter. *)
Variable roundUp : Z -> Z.

Definition thread_ids : list Z := map Z.of_nat (seq 0 (Z.to_nat BlockDim)).

(** Lines 65-67 for the thread [tid] in a trip that starts at [probe_ix]. *)
Definition thread_chunk (n_probes : Z) (cluster_sizes clusters_to_probe : array Z)
    (probe_ix total tid : Z) : Z :=
  let my_ix := probe_ix + tid in
  let label := if my_ix <? n_probes then clusters_to_probe my_ix else 0 in
  let chunk := if my_ix <? n_probes then cluster_sizes label else 0 in
  if tid =? 0 then wrap32 (chunk + total) else chunk.

(** Line 70 for the threads [tid, tid+1, ..] holding [outputs]. *)
Fixpoint write_back (n_probes probe_ix tid : Z) (outputs : list Z)
    (chunk_indices : array Z) : array Z :=
  match outputs with
  | [] => chunk_indices
  | chunk :: rest =>
      write_back n_probes probe_ix (tid + 1) rest
        (if probe_ix + tid <? n_probes
         then store chunk_indices (probe_ix + tid) chunk
         else chunk_indices)
  end.

(** The [for] loop of lines 64-71. *)
Fixpoint block_scan_loop (fuel : nat) (n_probes : Z)
    (cluster_sizes clusters_to_probe : array Z) (n_probes_aligned : Z)
    (probe_ix total : Z) (chunk_indices : array Z) : option (array Z * Z) :=
  match fuel with
  | O => None
  | S fuel' =>
      if probe_ix <? n_probes_aligned then
        let inputs :=
          map (thread_chunk n_probes cluster_sizes clusters_to_probe probe_ix total)
              thread_ids in
        let (outputs, total') := InclusiveSum inputs in
        let chunk_indices' := write_back n_probes probe_ix 0 outputs chunk_indices in
        block_scan_loop fuel' n_probes cluster_sizes clusters_to_probe
          n_probes_aligned (wrap32 (probe_ix + BlockDim)) total' chunk_indices'
      else Some (chunk_indices, total)
  end.

(** The kernel as run by block [blockIdx_x]; the result is the pair of
    the output arrays [(chunk_indices, n_samples)].  The writes through
    the advanced pointer [chunk_indices + n_probes * blockIdx.x] are
    mapped back to offsets from the original pointer. *)
Definition calc_chunk_indices_kernel (fuel : nat) (blockIdx_x n_probes : Z)
    (cluster_sizes clusters_to_probe chunk_indices n_samples : array Z)
    : option (array Z * array Z) :=
  let row := wrap32 (n_probes * blockIdx_x) in
  let clusters_to_probe_q := shift clusters_to_probe row in
  let chunk_indices_q := shift chunk_indices row in
  let n_probes_aligned := roundUp n_probes in
  match block_scan_loop fuel n_probes cluster_sizes clusters_to_probe_q
          n_probes_aligned 0 0 chunk_indices_q with
  | None => None
  | Some (chunk_indices_q', total) =>
      Some (fun a => if (row <=? a) then chunk_indices_q' (a - row) else chunk_indices a,
            store n_samples blockIdx_x total)
  end.
End CalcChunkIndices.

(** What a thread of [calc_chunk_indices_kernel] loads for the probe
    [j] of its query: the size of the probed cluster, or 0 in the
    padding beyond [n_probes]; and the running sum of these loads in
    32-bit arithmetic. *)
Definition padded_size (n_probes : Z) (cluster_sizes clusters_to_probe : array Z)
    (j : Z) : Z :=
  if j <? n_probes then cluster_sizes (clusters_to_probe j) else 0.

Definition running_sum32 (n_probes : Z) (cluster_sizes clusters_to_probe : array Z)
    (n : nat) : Z :=
  wrap32 (sum_upto (padded_size n_probes cluster_sizes clusters_to_probe) n).

(** *** postprocess_neighbors_kernel *)

(** An integer type of the source: its width and signedness. *)
Record int_type := { bits : Z; is_signed : bool }.

Definition uint32_t := {| bits := 32; is_signed := false |}.
Definition int64_t := {| bits := 64; is_signed := true |}.

Definition numeric_limits_max (T : int_type) : Z :=
  if is_signed T then 2 ^ (bits T - 1) - 1 else 2 ^ bits T - 1.

Definition numeric_limits_min (T : int_type) : Z :=
  if is_signed T then - 2 ^ (bits T - 1) else 0.

Definition representable (T : int_type) (v : Z) : Prop :=
  numeric_limits_min T <= v <= numeric_limits_max T.

Definition kOutOfBoundsRecord (IdxT : int_type) : Z := numeric_limits_max IdxT.

(** The kernel as run by the thread [(blockIdx_x, threadIdx_x)]; the
    result is the output array [neighbors_out].  [db_indices] is the
    array of per-cluster identifier arrays.  ([topk = 0] would divide by
    zero; the theorems below assume [0 < topk].) *)
Definition postprocess_neighbors_kernel (fuel : nat)
    (BlockDim threadIdx_x blockIdx_x : Z) (IdxT1 : int_type)
    (neighbors_out neighbors_in : array Z) (db_indices : array (array Z))
    (clusters_to_probe chunk_indices : array Z)
    (n_queries n_probes topk : Z) : option (array Z) :=
  let i := wrap64 (threadIdx_x + BlockDim * blockIdx_x) in
  let query_ix := wrap32 (i / topk) in
  if n_queries <=? query_ix then Some neighbors_out
  else
    let k := wrap32 (i mod topk) in
    let neighbors_in_q := shift neighbors_in (wrap32 (query_ix * topk)) in
    let out_row := wrap32 (query_ix * topk) in
    let chunk_indices_q := shift chunk_indices (wrap32 (query_ix * n_probes)) in
    let clusters_to_probe_q := shift clusters_to_probe (wrap32 (query_ix * n_probes)) in
    let data_ix := wrap32 (neighbors_in_q k) in
    match find_chunk_ix fuel data_ix n_probes chunk_indices_q with
    | None => None
    | Some (chunk_ix, data_ix', _) =>
        let valid := chunk_ix <? n_probes in
        Some (store neighbors_out (out_row + k)
                (if valid
                 then db_indices (clusters_to_probe_q chunk_ix) data_ix'
                 else kOutOfBoundsRecord IdxT1))
    end.

(** *** postprocess_distances *)

(** Modelled from the spec: the enumeration [distance::DistanceType]
    (raft/distance/distance_types.hpp) is not among the sources.  The
    five enumerators named by the switch are kept; [OtherMetric tag]
    stands for every other value of the enumeration (spec 4.6, "any
    other metric"). *)
Inductive DistanceType :=
  | L2Expanded | L2SqrtExpanded | L2Unexpanded | L2SqrtUnexpanded
  | InnerProduct
  | OtherMetric (tag : Z).

(** Modelled from the spec: the macro [RAFT_FAIL] (raft/core/error.hpp)
    is not among the sources; it throws an exception that carries its
    message (spec 4.6 and 7: a fatal configuration error that aborts the
    call).  A call ends normally with its result or raises. *)
Inductive outcome (A : Type) :=
  | Done (a : A)
  | Raised (msg : string).
Arguments Done {A} a.
Arguments Raised {A} msg.

(** [float]: IEEE-754 binary32, round to nearest even. *)
Definition float := spec_float.
Definition fmul : float -> float -> float := SFmul 24 128.
Definition fsqrt : float -> float := SFsqrt 24 128.
Definition fneg : float -> float := SFopp.
Definition float_of_Z (z : Z) : float := binary_normalize 24 128 z 0 false.

Section PostprocessDistances.
(** Template parameter [ScoreInT] with its conversion to the output
    type; [ScoreOutT] is the default, [float]. *)
Variable ScoreInT : Type.
Variable cast_op : ScoreInT -> float.

(** Modelled from the spec: the functors [raft::mul_const_op],
    [raft::sqrt_op] and [raft::compose_op] (raft/core/operators.hpp) are
    not among the sources.  By the table of spec 4.6 they multiply by a
    constant, take the square root, and compose their arguments so that
    the last one is applied first. *)
Definition mul_const_op (c : float) : float -> float := fun x => fmul x c.
Definition sqrt_op : float -> float := fsqrt.

Definition compose_op2 {A B C} (f1 : B -> C) (f2 : A -> B) : A -> C :=
  fun x => f1 (f2 x).
Definition compose_op3 {A B C D} (f1 : C -> D) (f2 : B -> C) (f3 : A -> B) : A -> D :=
  fun x => f1 (f2 (f3 x)).

(** Modelled from the spec: [linalg::unaryOp(out, in, len, op, stream)]
    (raft/linalg/unary_op.cuh) is not among the sources; it writes
    [op (in[i])] to [out[i]] for every [i < len] (spec 4.6, "converts
    raw scanner scores into final distances"). *)
Definition unaryOp {A B} (out : array B) (in_ : array A) (len : Z) (op : A -> B)
    : array B :=
  fun i => if (0 <=? i) && (i <? len) then op (in_ i) else out i.

Definition postprocess_distances (out : array float) (in_ : array ScoreInT)
    (metric : DistanceType) (n_queries topk : Z) (scaling_factor : float)
    : outcome (array float) :=
  let len := wrap64 (n_queries * topk) in
  match metric with
  | L2Unexpanded | L2Expanded =>
      Done (unaryOp out in_ len
              (compose_op2 (mul_const_op (fmul scaling_factor scaling_factor))
                           cast_op))
  | L2SqrtUnexpanded | L2SqrtExpanded =>
      Done (unaryOp out in_ len
              (compose_op3 (mul_const_op scaling_factor) sqrt_op cast_op))
  | InnerProduct =>
      Done (unaryOp out in_ len
              (compose_op2 (mul_const_op (fmul (fneg scaling_factor) scaling_factor))
                           cast_op))
  | OtherMetric _ => Raised "Unexpected metric."
  end.
End PostprocessDistances.

Definition supported_metric (metric : DistanceType) : bool :=
  match metric with
  | OtherMetric _ => false
  | _ => true
  end.

End Ivf.

(* ------------------------------------------------------------------ *)
(** ** mdspan.hpp: unravel_index *)

Module Mdspan.

(** Modelled from the spec: [detail::popc] (raft/core/detail/mdspan_util.cuh)
    is not among the sources; it is the population count, the number of
    one bits of its argument. *)
Fixpoint popc_pos (p : positive) : Z :=
  match p with
  | xH => 1
  | xO q => popc_pos q
  | xI q => 1 + popc_pos q
  end.

(** Modelled from the spec: [detail::popc] on a non-negative value of
    the unsigned type [I]. *)
Definition popc (x : Z) : Z :=
  match x with
  | Zpos p => popc_pos p
  | _ => 0
  end.

(** The loop of [unravel_index_impl<I>] over the dimensions
    [kRank-1, .., 1]; [rev_extents] lists their extents in that order and
    [wrapI] is the reduction into the unsigned type [I].  Returns the
    final [idx] and the coordinates of the dimensions [1 .. kRank-1].
    (An extent that is zero in [I] takes the mask-and-shift branch with
    a shift by the full width of [I], which C++ leaves undefined; the
    theorems below only use extents in [1, 2^w).) *)
Fixpoint unravel_loop (wrapI : Z -> Z) (idx : Z) (rev_extents : list Z) : Z * list Z :=
  match rev_extents with
  | [] => (idx, [])
  | extent :: rest =>
      let s := wrapI extent in
      let '(index_dim, idx') :=
        if Z.land s (wrapI (s - 1)) =? 0
        then (Z.land idx (wrapI (s - 1)), Z.shiftr idx (popc (wrapI (s - 1))))
        else let t := idx / s in (wrapI (idx - wrapI (t * s)), t) in
      let '(idx0, coords) := unravel_loop wrapI idx' rest in
      (idx0, coords ++ [index_dim])
  end.

(** [shape] lists the extents of the dimensions [0 .. kRank-1]. *)
Definition unravel_index_impl (wrapI : Z -> Z) (idx : Z) (shape : list Z) : list Z :=
  let '(idx0, coords) := unravel_loop wrapI idx (rev (tl shape)) in
  idx0 :: coords.

(** [Idx_bits] is the width of the integral type [Idx] of [idx]. *)
Definition unravel_index (Idx_bits : Z) (idx : Z) (shape : list Z) : list Z :=
  let kIs64 := Idx_bits =? 64 in
  if kIs64 && (two32 - 1 <? wrap64 idx)
  then unravel_index_impl wrap64 (wrap64 idx) shape
  else unravel_index_impl wrap32 (wrap32 idx) shape.

(** Row-major (C-contiguous) linearisation of a coordinate. *)
Fixpoint ravel_from (acc : Z) (coords shape : list Z) : Z :=
  match coords, shape with
  | c :: cs, e :: es => ravel_from (acc * e + c) cs es
  | _, _ => acc
  end.

Definition product (shape : list Z) : Z := fold_right Z.mul 1 shape.

(** Stride of every dimension: the product of the extents after it. *)
Fixpoint row_major_strides (shape : list Z) : list Z :=
  match shape with
  | [] => []
  | _ :: es => product es :: row_major_strides es
  end.

Fixpoint dot (xs ys : list Z) : Z :=
  match xs, ys with
  | x :: xs', y :: ys' => x * y + dot xs' ys'
  | _, _ => 0
  end.

Definition ravel (coords shape : list Z) : Z := dot coords (row_major_strides shape).

End Mdspan.

(* ------------------------------------------------------------------ *)
(** ** registers.cu: the ball-cover scanners

    [registers.cu] only instantiates [rbc_low_dim_pass_one],
    [rbc_low_dim_pass_two] and [rbc_eps_pass]; their bodies
    (ball_cover/registers-inl.cuh) are not among the sources.  The
    scanners are modelled from sections 4.3, 4.4 and 6 of the spec, for
    one query: the queries of a batch are processed independently. *)

Module BallCover.

Section Scanners.
(** Modelled from the spec: the point type and the distance evaluator
    [dfunc] are external (section 6: "a callable mapping (query point,
    dataset point) -> raw scalar distance", pure).  Distances are taken
    in [Z]: the scanners only compare them and form the difference of
    the pass-two bound. *)
Variable Point : Type.
Variable dfunc : Point -> Point -> Z.

(** Modelled from the spec: a partition of [BallCoverIndex] (section 3):
    its landmark, its radius and its members, each a global identifier
    with its point.  The partition id is the position in the index. *)
Record partition := {
  landmark : Point;
  radius : Z;
  members : list (Z * Point)
}.

Definition BallCoverIndex := list partition.

(** A candidate: (distance to the query, global identifier). *)
Definition candidate : Type := Z * Z.

(** Modelled from the spec: the bounded running top-k (sections 4.3 and
    6): the [k] smallest candidates by distance, ascending, ties in
    first-seen order. *)
Fixpoint insert (c : candidate) (heap : list candidate) : list candidate :=
  match heap with
  | [] => [c]
  | h :: rest => if fst c <? fst h then c :: h :: rest else h :: insert c rest
  end.

Definition push (k : nat) (heap : list candidate) (c : candidate) : list candidate :=
  firstn k (insert c heap).

(** The current k-th best distance; [None] while fewer than [k]
    candidates are held (the maximum-distance sentinel). *)
Definition kth_best (k : nat) (heap : list candidate) : option Z :=
  option_map fst (nth_error heap (k - 1)).

Definition candidates (query : Point) (p : partition) : list candidate :=
  map (fun m => (dfunc query (snd m), fst m)) (members p).

(** Scanning a partition fully: the true distance of every member. *)
Definition scan_partition (k : nat) (query : Point) (p : partition)
    (heap : list candidate) : list candidate :=
  fold_left (push k) (candidates query p) heap.

(** State of one query across the two passes: the running top-k, the
    ids of the partitions scanned so far (latest first) and the counter
    of distance evaluations. *)
Record scan_state := {
  heap : list candidate;
  scanned : list nat;
  dists_counter : nat
}.

Definition scan_and_mark (k : nat) (query : Point) (pid : nat) (p : partition)
    (st : scan_state) : scan_state :=
  {| heap := scan_partition k query p (heap st);
     scanned := pid :: scanned st;
     dists_counter := dists_counter st + length (members p) |}.

(** The pruning test of pass one: the landmark-to-query distance [d]
    exceeds the current k-th best distance by more than the slack,
    [d > weight * kth], with [weight = weight_num / weight_den]. *)
Definition exceeds_slack (weight_num weight_den d : Z) (kth : option Z) : bool :=
  match kth with
  | None => false
  | Some best => weight_num * best <? weight_den * d
  end.

Definition pass_one_step (index : BallCoverIndex) (query : Point) (k : nat)
    (weight_num weight_den : Z) (st : scan_state) (pid : nat) : scan_state :=
  match nth_error index pid with
  | None => st
  | Some p =>
      if exceeds_slack weight_num weight_den (dfunc query (landmark p))
           (kth_best k (heap st))
      then st
      else scan_and_mark k query pid p st
  end.

(** Modelled from the spec: [rbc_low_dim_pass_one] for one query
    (section 4.3, pass one).  The partitions of the probe list
    [R_knn_inds] are visited in order; a partition is skipped when
    [exceeds_slack] holds and otherwise scanned fully, the running top-k
    using the true distances. *)
Definition rbc_low_dim_pass_one (index : BallCoverIndex) (query : Point) (k : nat)
    (R_knn_inds : list nat) (weight_num weight_den : Z) : scan_state :=
  fold_left (pass_one_step index query k weight_num weight_den) R_knn_inds
    {| heap := []; scanned := []; dists_counter := 0 |}.

(** The test of pass two: the bound is below the current k-th best
    distance (always, while the top-k is not full). *)
Definition below_kth (bound : Z) (kth : option Z) : bool :=
  match kth with
  | None => true
  | Some best => bound <? best
  end.

(** The lower bound of spec 4.3:
    [|distance(query, landmark) - partition_radius|]. *)
Definition lower_bound (query : Point) (p : partition) : Z :=
  Z.abs (dfunc query (landmark p) - radius p).

Definition pass_two_step (index : BallCoverIndex) (query : Point) (k : nat)
    (st : scan_state) (pid : nat) : scan_state :=
  match nth_error index pid with
  | None => st
  | Some p =>
      if existsb (Nat.eqb pid) (scanned st) then st
      else if below_kth (lower_bound query p) (kth_best k (heap st))
           then scan_and_mark k query pid p st
           else st
  end.

(** Modelled from the spec: [rbc_low_dim_pass_two] for one query
    (section 4.3, pass two), with weight 1.  Every partition not yet
    scanned whose lower bound is below the current k-th best distance is
    scanned fully, the top-k being updated in place. *)
Definition rbc_low_dim_pass_two (index : BallCoverIndex) (query : Point) (k : nat)
    (st : scan_state) : scan_state :=
  fold_left (pass_two_step index query k) (seq 0 (length index)) st.

(** The two-pass scanner and its output identifiers, best first. *)
Definition scan_knn (index : BallCoverIndex) (query : Point) (k : nat)
    (R_knn_inds : list nat) (weight_num weight_den : Z) : list Z :=
  map snd
    (heap (rbc_low_dim_pass_two index query k
             (rbc_low_dim_pass_one index query k R_knn_inds weight_num weight_den))).

(** Brute force: every member of every partition goes through the
    top-k, in dataset order. *)
Definition brute_force_knn (index : BallCoverIndex) (query : Point) (k : nat) : list Z :=
  map snd (fold_left (fun h p => scan_partition k query p h) index []).

(** The unbounded counterpart of the top-k: all candidates pushed so
    far, sorted by distance; and the candidates of a list of partitions,
    in that order. *)
Definition sort_candidates (cs : list candidate) (acc : list candidate)
    : list candidate :=
  fold_left (fun sorted c => insert c sorted) cs acc.

Definition le_key (a b : candidate) : Prop := fst a <= fst b.

Definition candidates_of (index : BallCoverIndex) (query : Point) (pids : list nat)
    : list candidate :=
  flat_map (fun pid => match nth_error index pid with
                       | None => []
                       | Some p => candidates query p
                       end) pids.

(** Invariant of a scan state: the top-k is the result of pushing the
    candidates of the scanned partitions, in the order of scanning; no
    partition was scanned twice; every scanned partition exists. *)
Definition consistent (index : BallCoverIndex) (query : Point) (k : nat)
    (st : scan_state) : Prop :=
  heap st = fold_left (push k) (candidates_of index query (rev (scanned st))) [] /\
  NoDup (scanned st) /\
  Forall (fun pid => (pid < length index)%nat) (scanned st).

(** The partition [pid] is ruled out by the pass-two bound: its lower
    bound is not below the current k-th best distance. *)
Definition ruled_out (index : BallCoverIndex) (query : Point) (k : nat)
    (st : scan_state) (pid : nat) : Prop :=
  exists p best,
    nth_error index pid = Some p /\
    kth_best k (heap st) = Some best /\
    best <= lower_bound query p.

(** The radius scan of one partition: the true distance of every
    member is evaluated; the member is a neighbor iff [distance <= eps]. *)
Definition eps_scan_partition (query : Point) (eps : Z) (p : partition)
    (ja : list Z) : list Z :=
  fold_left (fun out m => if dfunc query (snd m) <=? eps then out ++ [fst m] else out)
            (members p) ja.

(** Modelled from the spec: [rbc_eps_pass] for one query (section 4.4).
    A single pass over the probe list, no pruning.  The sparse output is
    the list of column identifiers, in probe order then scan order, with
    the degree. *)
Definition rbc_eps_pass (index : BallCoverIndex) (query : Point) (eps : Z)
    (probe_list : list nat) : list Z * nat :=
  let ja :=
    fold_left (fun out pid =>
                 match nth_error index pid with
                 | None => out
                 | Some p => eps_scan_partition query eps p out
                 end) probe_list [] in
  (ja, length ja).

(** Modelled from the spec: the dense overload of [rbc_eps_pass], the
    adjacency row of the query over the dataset rows (section 4.4). *)
Definition rbc_eps_pass_dense (index : BallCoverIndex) (query : Point) (eps : Z)
    (probe_list : list nat) : Z -> bool :=
  fun row => existsb (Z.eqb row) (fst (rbc_eps_pass index query eps probe_list)).

(** Brute force over the probed partitions. *)
Definition probed_members (index : BallCoverIndex) (probe_list : list nat)
    : list (Z * Point) :=
  flat_map (fun pid => match nth_error index pid with
                       | None => []
                       | Some p => members p
                       end) probe_list.

Definition brute_force_eps (index : BallCoverIndex) (query : Point) (eps : Z)
    (probe_list : list nat) : list Z :=
  map fst (filter (fun m => dfunc query (snd m) <=? eps)
                  (probed_members index probe_list)).

End Scanners.

End BallCover.

(* ------------------------------------------------------------------ *)
(** ** Concrete inputs used by the examples below *)

Module Inputs.

(** An array holding the elements of [l] at the offsets [0 ..], and
    [d] elsewhere. *)
Definition of_list {A} (d : A) (l : list A) : array A :=
  fun i => if i <? 0 then d else nth (Z.to_nat i) l d.

(** Three probed clusters of sizes 3, 5 and 2 (spec, section 8). *)
Definition sizes352 : array Z := of_list 0 [3; 5; 2].
Definition probes012 : array Z := of_list 0 [0; 1; 2].
Definition table352 : array Z := of_list 0 [3; 8; 10].

(** The largest probe count a [uint32_t] can hold. *)
Definition max_probes : Z := two32 - 1.

(** [max_probes] probes of which only the last selects a non-empty
    cluster: cluster 0 is empty, cluster 1 has one member. *)
Definition sparse_sizes : array Z := fun label => if label =? 1 then 1 else 0.
Definition sparse_probes : array Z := fun i => if i =? max_probes - 1 then 1 else 0.
Definition sparse_table : array Z := fun i => if i <? max_probes - 1 then 0 else 1.

(** Memory that holds zero everywhere. *)
Definition zeros : array Z := fun _ => 0.

(** The members of the three clusters of sizes 3, 5 and 2. *)
Definition ids352 : array (array Z) :=
  of_list zeros
    [of_list 0 [100; 101; 102];
     of_list 0 [200; 201; 202; 203; 204];
     of_list 0 [300; 301]].

(** Rounding up to a multiple of 32 in [uint32_t] arithmetic, for a
    launch with [BlockDim = 32]. *)
Definition roundUp_32 (x : Z) : Z :=
  let y := wrap32 (x + 31) in y - y mod 32.

(** Two probed clusters whose sizes add up to [2^32]. *)
Definition huge_sizes : array Z := of_list 0 [4294967295; 1].
Definition probes01 : array Z := of_list 0 [0; 1].

(** Points on a line, with the distance [|a - b|]. *)
Definition dist1 (a b : Z) : Z := Z.abs (a - b).

(** Two balls: A around 0 with the points 0, -100 and 10 (radius 100),
    B around 29 with the point 29 alone.  Every point belongs to the
    ball of its nearest landmark. *)
Definition ball_A : BallCover.partition Z :=
  {| BallCover.landmark := 0; BallCover.radius := 100;
     BallCover.members := [(0, 0); (1, -100); (2, 10)] |}.
Definition ball_B : BallCover.partition Z :=
  {| BallCover.landmark := 29; BallCover.radius := 0;
     BallCover.members := [(3, 29)] |}.
Definition balls_AB : BallCover.BallCoverIndex Z := [ball_A; ball_B].

(** A ball far away from B: C around 1000 with the points 1000 and 1005. *)
Definition ball_C : BallCover.partition Z :=
  {| BallCover.landmark := 1000; BallCover.radius := 5;
     BallCover.members := [(4, 1000); (5, 1005)] |}.
Definition balls_BC : BallCover.BallCoverIndex Z := [ball_B; ball_C].

(** One query with [topk = 2]: flat offsets 4 and 12 selected. *)
Definition picks_4_12 : array Z := of_list 0 [4; 12].

End Inputs.

(* ------------------------------------------------------------------ *)
(** ** ivf_common.cuh: the host side

    [calc_chunk_indices::configure], [configured::operator()] and
    [postprocess_neighbors] choose a launch configuration and start the
    kernels.  A launch runs the kernel once per block of the grid (and,
    for a kernel written per thread, once per thread of each block).
    The blocks and threads of these kernels only read their inputs and
    write cells of their outputs, so the model runs them one after the
    other, in the order of their indices. *)

Module IvfHost.

(** [struct calc_chunk_indices::configured]; [kernel] records the
    [BlockDim] the kernel is instantiated with, a [dim3] is a triple. *)
Record configured := {
  kernel : Z;
  block_dim : Z * Z * Z;
  grid_dim : Z * Z * Z;
  n_probes : Z
}.

Section TryBlockDim.
(** The constant [WarpSize] (raft/util/cuda_dev_essentials.cuh) is not
    among the sources and is taken as a parameter. *)
Variable WarpSize : Z.

(** [try_block_dim<BlockDim>]; [depth] bounds the chain of template
    instantiations [<BlockDim>, <BlockDim / 2>, ..].  The comparison
    with [n_probes * 2] is made in [uint32_t]. *)
Fixpoint try_block_dim (depth : nat) (BlockDim n_probes n_queries : Z)
    : option configured :=
  match depth with
  | O => None
  | S depth' =>
      if (WarpSize * 2 <=? BlockDim) && (wrap32 (n_probes * 2) <=? BlockDim)
      then try_block_dim depth' (BlockDim / 2) n_probes n_queries
      else Some {| kernel := BlockDim;
                   block_dim := (BlockDim, 1, 1);
                   grid_dim := (n_queries, 1, 1);
                   n_probes := n_probes |}
  end.

(** [configure]: the chain starts at 1024, which twelve halvings bring
    to 0, where it ends for every positive [WarpSize]. *)
Definition configure (n_probes n_queries : Z) : option configured :=
  try_block_dim 12 1024 n_probes n_queries.
End TryBlockDim.

(** A launch over [grid_x] blocks (or over the threads of a block):
    [run b] is what the block [b] does to the output. *)
Definition launch {S : Type} (grid_x : Z) (run : Z -> S -> option S) (out : S)
    : option S :=
  fold_left (fun acc b => match acc with
                          | None => None
                          | Some o => run (Z.of_nat b) o
                          end)
            (seq 0 (Z.to_nat grid_x)) (Some out).

(** [configured::operator()]: [cudaLaunchKernel] of the chosen instance
    over [grid_dim]; the results are [(chunk_indices, n_samples)]. *)
Definition configured_call (roundUp : Z -> Z) (fuel : nat) (cfg : configured)
    (cluster_sizes clusters_to_probe chunk_indices n_samples : array Z)
    : option (array Z * array Z) :=
  launch (fst (fst (grid_dim cfg)))
    (fun b out =>
       Ivf.calc_chunk_indices_kernel (kernel cfg) roundUp fuel b (n_probes cfg)
         cluster_sizes clusters_to_probe (fst out) (snd out))
    (chunk_indices, n_samples).

(** Conversion of a [size_t] to [int]. *)
Definition to_int (x : Z) : Z :=
  let y := wrap32 x in if y <? two31 then y else y - two32.

Section PostprocessNeighbors.
(** [raft::div_rounding_up_unsafe] (raft/util/integer_utils.hpp) is not
    among the sources and is taken as a parameter. *)
Variable div_rounding_up_unsafe : Z -> Z -> Z.

Definition kPNThreads : Z := 256.

(** [postprocess_neighbors]: the product [n_queries * topk] is formed in
    [uint32_t] before it is widened to [size_t]. *)
Definition postprocess_neighbors (fuel : nat) (IdxT1 : Ivf.int_type)
    (neighbors_out neighbors_in : array Z) (db_indices : array (array Z))
    (clusters_to_probe chunk_indices : array Z)
    (n_queries n_probes topk : Z) : option (array Z) :=
  let pn_blocks :=
    to_int (div_rounding_up_unsafe (wrap32 (n_queries * topk)) kPNThreads) in
  launch pn_blocks
    (fun blockIdx_x out =>
       launch kPNThreads
         (fun threadIdx_x out' =>
            Ivf.postprocess_neighbors_kernel fuel kPNThreads threadIdx_x blockIdx_x
              IdxT1 out' neighbors_in db_indices clusters_to_probe chunk_indices
              n_queries n_probes topk)
         out)
    neighbors_out.
End PostprocessNeighbors.

(** Reference for the chunk locator: walk the chunks from [c] on, at
    most [remaining] of them, until the offset [s] falls inside one. *)
Fixpoint locate_linear (remaining : nat) (size_of : Z -> Z) (c s : Z) : Z * Z :=
  match remaining with
  | O => (c, s)
  | S r =>
      if s <? size_of c then (c, s)
      else locate_linear r size_of (c + 1) (s - size_of c)
  end.

End IvfHost.

(* ------------------------------------------------------------------ *)
(** ** ivf_common.cuh, second part: padded layouts *)

Module Padded.

(** [padding<ValueType, ByteAlignment>::value], from the size of the
    value type in bytes. *)
Definition padding_value (sizeof_ValueType ByteAlignment : Z) : Z :=
  Z.max (ByteAlignment / sizeof_ValueType) 1.

(** The two [static_assert]s of [padding] on the sizes. *)
Definition padding_admits (sizeof_ValueType ByteAlignment : Z) : bool :=
  (ByteAlignment mod sizeof_ValueType =? 0) || (sizeof_ValueType mod ByteAlignment =? 0).

Section Strides.
(** [raft::alignTo] (raft/cudart_utils.h) is not among the sources and
    is taken as a parameter. *)
Variable alignTo : Z -> Z -> Z.

(** The update of [stride] in the body of both loops, in [size_t]. *)
Definition next_stride (Alignment stride extent : Z) : Z :=
  if stride =? 1
  then wrap64 (stride * Z.max Alignment (alignTo extent Alignment))
  else wrap64 (stride * extent).

(** Both loops: the extents in the order in which the loop visits
    their dimensions; the result is the stride stored for each visited
    dimension and the stride left at the end. *)
Fixpoint strides_loop (Alignment stride : Z) (visited : list Z) : list Z * Z :=
  match visited with
  | [] => ([], stride)
  | extent :: rest =>
      let (stored, final) :=
        strides_loop Alignment (next_stride Alignment stride extent) rest in
      (stride :: stored, final)
  end.

(** [padded_row_major_strides]: the loop visits the dimensions
    [rank-1, .., 1] and [strides[0]] receives the final stride. *)
Definition padded_row_major_strides (Alignment : Z) (exts : list Z) : list Z :=
  let (stored, final) := strides_loop Alignment 1 (rev (tl exts)) in
  final :: rev stored.

(** [padded_col_major_strides]: the loop visits the dimensions
    [0, .., rank-2] and [strides[rank-1]] receives the final stride. *)
Definition padded_col_major_strides (Alignment : Z) (exts : list Z) : list Z :=
  let (stored, final) := strides_loop Alignment 1 (removelast exts) in
  stored ++ [final].
End Strides.

(** Modelled from the spec: [layout_stride::mapping::operator()] of the
    mdspan library, the base class of [layout_padded_general::mapping],
    is not among the sources; the offset of a coordinate is the sum of
    its indices times the strides (spec 6: "fixed-stride
    multidimensional views"). *)
Definition mapping_offset (strides coords : list Z) : Z := Mdspan.dot coords strides.

(** The array widened in its last dimension to [padded]. *)
Definition widen_last (exts : list Z) (padded : Z) : list Z :=
  removelast exts ++ [padded].

End Padded.

(* ------------------------------------------------------------------ *)
(** ** More concrete inputs *)

Module Inputs2.

(** Rounding up to a multiple of [a], as a quotient times [a]. *)
Definition alignTo (x a : Z) : Z := (x + a - 1) / a * a.

Definition div_rounding_up (a b : Z) : Z := (a + b - 1) / b.

(** Two queries over the clusters of sizes 3, 5 and 2: the first probes
    the clusters 0, 1, 2, the second the clusters 2, 0, 1. *)
Definition probes_2x3 : array Z := Inputs.of_list 0 [0; 1; 2; 2; 0; 1].
Definition table_2x3 : array Z := Inputs.of_list 0 [3; 8; 10; 2; 5; 10].
Definition picks_2x2 : array Z := Inputs.of_list 0 [4; 12; 4; 0].

(** Two one-point balls at the same distance 5 from the query 0. *)
Definition ball_L : BallCover.partition Z :=
  {| BallCover.landmark := -5; BallCover.radius := 0;
     BallCover.members := [(0, -5)] |}.
Definition ball_R : BallCover.partition Z :=
  {| BallCover.landmark := 5; BallCover.radius := 0;
     BallCover.members := [(1, 5)] |}.
Definition balls_LR : BallCover.BallCoverIndex Z := [ball_L; ball_R].

(** Two one-point balls at the distances 1 and 2 from the query 0. *)
Definition ball_near : BallCover.partition Z :=
  {| BallCover.landmark := 1; BallCover.radius := 0;
     BallCover.members := [(0, 1)] |}.
Definition ball_far : BallCover.partition Z :=
  {| BallCover.landmark := 2; BallCover.radius := 0;
     BallCover.members := [(1, 2)] |}.
Definition balls_near_far : BallCover.BallCoverIndex Z := [ball_near; ball_far].

End Inputs2.

(* ------------------------------------------------------------------ *)
(** ** Arithmetic helpers *)

(** Linear arithmetic over the named powers of two. *)
Ltac u32 :=
  unfold is_u32, Inputs.max_probes, two31, two32, two64 in *; lia.

Lemma wrap32_small x : 0 <= x < two32 -> wrap32 x = x.
Proof. intros H. unfold wrap32. apply Z.mod_small. exact H. Qed.

Lemma wrap32_range x : 0 <= wrap32 x < two32.
Proof. unfold wrap32. apply Z.mod_pos_bound. reflexivity. Qed.

Lemma wrap32_over x : two32 <= x < 2 * two32 -> wrap32 x = x - two32.
Proof.
  intros H. unfold wrap32.
  symmetry. apply (Z.mod_unique x two32 1 (x - two32)); unfold two32 in *; lia.
Qed.

Lemma sum_upto_nonneg f n :
  (forall i, 0 <= i < Z.of_nat n -> 0 <= f i) -> 0 <= sum_upto f n.
Proof.
  induction n as [|n IH]; intros H; simpl; [lia|].
  assert (0 <= sum_upto f n) by (apply IH; intros; apply H; lia).
  assert (0 <= f (Z.of_nat n)) by (apply H; lia).
  lia.
Qed.

Lemma sum_upto_mono f n m :
  (forall i, 0 <= i < Z.of_nat m -> 0 <= f i) ->
  (n <= m)%nat -> sum_upto f n <= sum_upto f m.
Proof.
  intros Hf Hle. induction Hle as [|m Hle IH]; [lia|].
  simpl.
  assert (sum_upto f n <= sum_upto f m) by (apply IH; intros; apply Hf; lia).
  assert (0 <= f (Z.of_nat m)) by (apply Hf; lia).
  lia.
Qed.

Lemma sum_upto_ext f g n :
  (forall i, 0 <= i < Z.of_nat n -> f i = g i) -> sum_upto f n = sum_upto g n.
Proof.
  induction n as [|n IH]; intros H; simpl; [reflexivity|].
  rewrite IH by (intros; apply H; lia).
  rewrite (H (Z.of_nat n)) by lia. reflexivity.
Qed.

(* ------------------------------------------------------------------ *)
(** ** find_chunk_ix: the binary search *)

Section FindChunkIx.
Import Ivf.
Variable chunk_indices : array Z.
Variable sample_ix : Z.

Lemma pow2_succ (f : nat) : 2 ^ Z.of_nat (S f) = 2 * 2 ^ Z.of_nat f.
  Proof. rewrite Nat2Z.inj_succ. apply Z.pow_succ_r. lia. Qed.

  (** One run of the loop from a non-empty window below [2^31]: it ends,
      within a number of trips logarithmic in the window, on a single
      index [c] of the window; every offset read lies in the window; and
      [c] is flanked by the outcomes of the last two comparisons. *)
Lemma find_chunk_ix_loop_window :
    forall (fuel : nat) (lo hi : Z) (rd : list Z),
      0 <= lo < hi -> hi <= two31 ->
      hi - lo < 2 ^ Z.of_nat fuel ->
      exists c rd',
        find_chunk_ix_loop fuel chunk_indices sample_ix lo hi rd = Some (c, rd') /\
        lo <= c <= hi /\
        (forall j, In j rd' -> In j rd \/ lo <= j < hi) /\
        (c = lo \/ chunk_indices (c - 1) <= sample_ix) /\
        (c = hi \/ sample_ix < chunk_indices c).
  Proof.
    induction fuel as [|f IH]; intros lo hi rd Hw Hhi Hfuel.
    - simpl in Hfuel. lia.
    - rewrite pow2_succ in Hfuel.
      cbn [find_chunk_ix_loop].
      assert (Hsum : wrap32 (lo + hi) = lo + hi)
        by (apply wrap32_small; u32).
      rewrite Hsum.
      set (i := (lo + hi) / 2).
      assert (Hi : lo <= i < hi) by (subst i; split;
        [apply Z.div_le_lower_bound | apply Z.div_lt_upper_bound]; lia).
      assert (Hhalf : 2 * i <= lo + hi < 2 * i + 2).
      { subst i. pose proof (Z.div_mod (lo + hi) 2 ltac:(lia)).
        pose proof (Z.mod_pos_bound (lo + hi) 2 ltac:(lia)). lia. }
      destruct (chunk_indices i <=? sample_ix) eqn:Hcmp.
      + apply Z.leb_le in Hcmp.
        rewrite (wrap32_small (i + 1)) by u32.
        destruct (i + 1 <? hi) eqn:Hgo.
        * apply Z.ltb_lt in Hgo.
          destruct (IH (i + 1) hi (i :: rd)) as (c & rd' & Hrun & Hc & Hrd & Hl & Hr);
            try lia.
          exists c, rd'. repeat split; try lia; auto.
          -- intros j Hj. destruct (Hrd j Hj) as [[->|Hin]|Hin]; auto; right; lia.
          -- right. destruct Hl as [->|Hl]; [|exact Hl].
             replace (i + 1 - 1) with i by lia. exact Hcmp.
        * apply Z.ltb_ge in Hgo.
          exists (i + 1), (i :: rd). repeat split; try lia.
          -- intros j [<-|Hin]; auto.
          -- right. replace (i + 1 - 1) with i by lia. exact Hcmp.
      + apply Z.leb_gt in Hcmp.
        destruct (lo <? i) eqn:Hgo.
        * apply Z.ltb_lt in Hgo.
          destruct (IH lo i (i :: rd)) as (c & rd' & Hrun & Hc & Hrd & Hl & Hr);
            try lia.
          exists c, rd'. repeat split; try lia; auto.
          -- intros j Hj. destruct (Hrd j Hj) as [[->|Hin]|Hin]; auto; right; lia.
          -- right. destruct Hr as [->|Hr]; [exact Hcmp|exact Hr].
        * apply Z.ltb_ge in Hgo.
          exists lo, (i :: rd). repeat split; try lia.
          -- intros j [<-|Hin]; auto.
          -- right. replace lo with i by lia. exact Hcmp.
  Qed.
End FindChunkIx.

(** With the largest probe count the midpoint [ix_min + ix_max] wraps:
    once [ix_min >= 1] the loop only ever moves [ix_min] inside
    [1 .. 2^31] and never meets [ix_max]. *)
Lemma find_chunk_ix_loop_wraps (chunk_indices : array Z) (sample_ix : Z) :
  (forall i, 0 <= i < two31 -> chunk_indices i <= sample_ix) ->
  forall (fuel : nat) (lo : Z) (rd : list Z),
    1 <= lo <= two31 ->
    Ivf.find_chunk_ix_loop fuel chunk_indices sample_ix lo Inputs.max_probes rd = None.
Proof.
  intros Hlow. induction fuel as [|f IH]; intros lo rd Hlo; [reflexivity|].
  cbn [Ivf.find_chunk_ix_loop].
  assert (Hsum : wrap32 (lo + Inputs.max_probes) = lo - 1).
  { rewrite wrap32_over; unfold Inputs.max_probes, two31, two32 in *; lia. }
  rewrite Hsum.
  set (i := (lo - 1) / 2).
  assert (Hi : 0 <= i /\ 2 * i <= lo - 1).
  { subst i. pose proof (Z.div_mod (lo - 1) 2 ltac:(lia)).
    pose proof (Z.mod_pos_bound (lo - 1) 2 ltac:(lia)). lia. }
  assert (Hcmp : (chunk_indices i <=? sample_ix) = true).
  { apply Z.leb_le, Hlow. unfold two31 in *. lia. }
  rewrite Hcmp.
  rewrite (wrap32_small (i + 1)) by u32.
  assert (Hgo : (i + 1 <? Inputs.max_probes) = true).
  { apply Z.ltb_lt. u32. }
  rewrite Hgo. apply IH. unfold two31 in *. lia.
Qed.

Lemma find_chunk_ix_wraps (chunk_indices : array Z) (sample_ix : Z) :
  (forall i, 0 <= i < two31 -> chunk_indices i <= sample_ix) ->
  forall fuel : nat,
    Ivf.find_chunk_ix fuel sample_ix Inputs.max_probes chunk_indices = None.
Proof.
  intros Hlow fuel. unfold Ivf.find_chunk_ix.
  destruct fuel as [|f]; [reflexivity|].
  cbn [Ivf.find_chunk_ix_loop].
  change (wrap32 (0 + Inputs.max_probes) / 2) with 2147483647.
  rewrite (proj2 (Z.leb_le _ _)) by (apply Hlow; u32).
  change (wrap32 (2147483647 + 1)) with two31.
  change (two31 <? Inputs.max_probes) with true. cbv iota.
  rewrite find_chunk_ix_loop_wraps; auto. u32.
Qed.

Lemma pow2_fuel (fuel : nat) : (32 <= fuel)%nat -> two32 <= 2 ^ Z.of_nat fuel.
Proof.
  intros H. change two32 with (2 ^ 32).
  apply Z.pow_le_mono_r; lia.
Qed.

(** The outcome of a call with a non-empty table of at most [2^31]
    entries. *)
Lemma find_chunk_ix_result (chunk_indices : array Z) (sample_ix n_probes : Z) (fuel : nat) :
  1 <= n_probes <= two31 -> (32 <= fuel)%nat ->
  exists c rd,
    Ivf.find_chunk_ix fuel sample_ix n_probes chunk_indices
      = Some (c, (if 0 <? c then wrap32 (sample_ix - chunk_indices (c - 1)) else sample_ix), rd) /\
    0 <= c <= n_probes /\
    Forall (fun j => 0 <= j < n_probes) rd /\
    (c = 0 \/ chunk_indices (c - 1) <= sample_ix) /\
    (c = n_probes \/ sample_ix < chunk_indices c).
Proof.
  intros HP Hfuel.
  destruct (find_chunk_ix_loop_window chunk_indices sample_ix fuel 0 n_probes [])
    as (c & rd & Hrun & Hc & Hrd & Hl & Hr); try lia.
  { pose proof (pow2_fuel fuel Hfuel). unfold two31, two32 in *. lia. }
  assert (Hall : Forall (fun j => 0 <= j < n_probes) rd).
  { apply Forall_forall. intros j Hj. destruct (Hrd j Hj) as [[]|]; lia. }
  unfold Ivf.find_chunk_ix. rewrite Hrun.
  destruct (0 <? c) eqn:Hpos.
  - exists c, ((c - 1) :: rd). rewrite Hpos. split; [reflexivity|].
    apply Z.ltb_lt in Hpos.
    repeat split; try lia; auto.
    constructor; [lia|exact Hall].
  - exists c, rd. rewrite Hpos. repeat split; try lia; auto.
Qed.

(* ------------------------------------------------------------------ *)
(** ** C9: termination and bounds of find_chunk_ix *)

(** C9 (as amended).  For every call with [1 <= n_probes <= 2^31] the
    binary-search loop ends (32 trips are enough) and every offset at
    which [chunk_indices] is read lies in [[0, n_probes)].  The lower
    bound is necessary: the body is a do-while, and a call with
    [n_probes = 0] reads [chunk_indices[0]]. *)
Theorem find_chunk_ix_terminates_in_bounds :
  forall (chunk_indices : array Z) (sample_ix n_probes : Z) (fuel : nat),
    (32 <= fuel)%nat ->
    (1 <= n_probes <= two31 ->
     exists c local rd,
       Ivf.find_chunk_ix fuel sample_ix n_probes chunk_indices = Some (c, local, rd) /\
       Forall (fun j => 0 <= j < n_probes) rd) /\
    (exists c local rd,
       Ivf.find_chunk_ix fuel sample_ix 0 chunk_indices = Some (c, local, rd) /\
       In 0 rd).
Proof.
  intros tbl s P fuel Hfuel. split.
  - intros HP.
    destruct (find_chunk_ix_result tbl s P fuel HP Hfuel)
      as (c & rd & Hrun & _ & Hall & _).
    eauto.
  - destruct fuel as [|f]; [lia|].
    unfold Ivf.find_chunk_ix. cbn [Ivf.find_chunk_ix_loop].
    change (wrap32 (0 + 0) / 2) with 0.
    destruct (tbl 0 <=? s).
    + change (wrap32 (0 + 1) <? 0) with false. cbv iota.
      change (0 <? wrap32 (0 + 1)) with true. cbv iota.
      do 3 eexists. split; [reflexivity|]. right. left. reflexivity.
    + change (0 <? 0) with false. cbv iota.
      do 3 eexists. split; [reflexivity|]. left. reflexivity.
Qed.

Lemma find_chunk_ix_terminates_in_bounds_witness :
  (exists c local rd,
     Ivf.find_chunk_ix 32 4 3 Inputs.table352 = Some (c, local, rd) /\
     Forall (fun j => 0 <= j < 3) rd) /\
  (exists c local rd,
     Ivf.find_chunk_ix 32 4 0 Inputs.table352 = Some (c, local, rd) /\
     In 0 rd).
Proof.
  destruct (find_chunk_ix_terminates_in_bounds Inputs.table352 4 3 32 (le_n 32))
    as [Hin Hempty].
  split; [apply Hin; unfold two31; lia | exact Hempty].
Defined.

(** C9 as stated fails for [n_probes = 2^32 - 1]: the table holds zero
    everywhere, the sum [ix_min + ix_max] wraps and the loop never ends. *)
Lemma find_chunk_ix_diverges_at_max_probes :
  1 <= Inputs.max_probes /\ is_u32 Inputs.max_probes /\
  forall fuel : nat,
    Ivf.find_chunk_ix fuel 0 Inputs.max_probes Inputs.zeros = None.
Proof.
  split; [|split].
  - unfold Inputs.max_probes, two32. lia.
  - unfold is_u32, Inputs.max_probes, two32. lia.
  - apply find_chunk_ix_wraps. intros i _. unfold Inputs.zeros. lia.
Qed.

(* ------------------------------------------------------------------ *)
(** ** C1: the chunk locator on a table of prefix sums *)

Section PrefixSumTable.
Variable size_of : Z -> Z.
Variable chunk_indices : array Z.
Variable n_probes : Z.
Hypothesis sizes_nonneg : forall i, 0 <= i < n_probes -> 0 <= size_of i.
Hypothesis table_is_scan :
    forall n : nat, Z.of_nat n < n_probes ->
      chunk_indices (Z.of_nat n) = sum_upto size_of (S n).

Lemma table_at (i : Z) :
    0 <= i < n_probes -> chunk_indices i = sum_upto size_of (Z.to_nat (i + 1)).
  Proof.
    intros Hi. rewrite <- (Z2Nat.id i) at 1 by lia.
    rewrite table_is_scan by lia.
    f_equal. lia.
  Qed.

Lemma table_step (i : Z) :
    0 < i < n_probes -> chunk_indices i = chunk_indices (i - 1) + size_of i.
  Proof.
    intros Hi. rewrite (table_at i), (table_at (i - 1)) by lia.
    replace (Z.to_nat (i + 1)) with (S (Z.to_nat i)) by lia.
    replace (i - 1 + 1) with i by lia.
    simpl. rewrite Z2Nat.id by lia. reflexivity.
  Qed.

Lemma table_first : 0 < n_probes -> chunk_indices 0 = size_of 0.
  Proof. intros H. rewrite (table_at 0) by lia. reflexivity. Qed.

Lemma table_monotone (a b : Z) :
    0 <= a <= b -> b < n_probes -> chunk_indices a <= chunk_indices b.
  Proof.
    intros Hab Hb. rewrite (table_at a), (table_at b) by lia.
    apply sum_upto_mono; [|lia].
    intros i Hi. apply sizes_nonneg. lia.
  Qed.
End PrefixSumTable.

(** C1 (as amended).  Let the table of a query with
    [1 <= n_probes <= 2^31] probes hold the inclusive prefix sums of the
    probed cluster sizes, and let [s] be a flat offset below the query's
    total.  Then [find_chunk_ix] returns the smallest [c] with
    [table[c] > s] and leaves in [sample_ix] the local offset
    [s - table[c-1]] ([s] when [c = 0]); the local offset lies in
    [[0, size c)] and the sizes of the chunks before [c] plus the local
    offset give [s] back. *)
Theorem find_chunk_ix_locates :
  forall (cluster_sizes clusters_to_probe chunk_indices : array Z)
         (n_probes s : Z) (fuel : nat),
    let size_of := fun i => cluster_sizes (clusters_to_probe i) in
    1 <= n_probes <= two31 ->
    (forall i, 0 <= i < n_probes -> 0 <= size_of i) ->
    (forall n : nat, Z.of_nat n < n_probes ->
       chunk_indices (Z.of_nat n) = sum_upto size_of (S n)) ->
    0 <= s < chunk_indices (n_probes - 1) ->
    s < two32 ->
    (32 <= fuel)%nat ->
    exists c local rd,
      Ivf.find_chunk_ix fuel s n_probes chunk_indices = Some (c, local, rd) /\
      0 <= c < n_probes /\
      s < chunk_indices c /\
      (forall j, 0 <= j < c -> chunk_indices j <= s) /\
      local = (if c =? 0 then s else s - chunk_indices (c - 1)) /\
      0 <= local < size_of c /\
      sum_upto size_of (Z.to_nat c) + local = s.
Proof.
  intros cluster_sizes clusters_to_probe tbl P s fuel size_of HP Hsz Htbl Hs Hs32 Hfuel.
  destruct (find_chunk_ix_result tbl s P fuel HP Hfuel)
    as (c & rd & Hrun & Hc & _ & Hl & Hr).
  assert (HcP : c < P).
  { destruct (Z.eq_dec c P) as [->|]; [|lia].
    destruct Hl as [|Hl]; lia. }
  assert (Hgt : s < tbl c) by (destruct Hr; [lia|assumption]).
  destruct (Z.eq_dec c 0) as [->|Hc0].
  - exists 0, s, rd. rewrite Hrun. simpl.
    pose proof (table_first size_of tbl P Htbl ltac:(lia)).
    repeat split; try lia.
  - assert (Hprev : tbl (c - 1) <= s) by (destruct Hl; [lia|assumption]).
    pose proof (table_step size_of tbl P Htbl c ltac:(lia)) as Hstep.
    assert (H0 : 0 <= tbl (c - 1)).
    { rewrite (table_at size_of tbl P Htbl) by lia.
      apply sum_upto_nonneg. intros i Hi. apply Hsz. lia. }
    exists c, (s - tbl (c - 1)), rd. rewrite Hrun.
    assert (Hpos : (0 <? c) = true) by (apply Z.ltb_lt; lia).
    assert (Hnz : (c =? 0) = false) by (apply Z.eqb_neq; lia).
    rewrite Hpos, Hnz.
    rewrite wrap32_small by lia.
    repeat split; try lia.
    + intros j Hj.
      pose proof (table_monotone size_of tbl P Hsz Htbl j (c - 1) ltac:(lia) ltac:(lia)).
      lia.
    + rewrite (table_at size_of tbl P Htbl (c - 1)) by lia.
      replace (c - 1 + 1) with c by lia. lia.
Qed.

(** Sizes 3, 5, 2 and the flat offset 4: chunk 1, local offset 1. *)
Lemma find_chunk_ix_locates_witness :
  exists c local rd,
    Ivf.find_chunk_ix 32 4 3 Inputs.table352 = Some (c, local, rd) /\
    0 <= c < 3 /\
    4 < Inputs.table352 c /\
    (forall j, 0 <= j < c -> Inputs.table352 j <= 4) /\
    local = (if c =? 0 then 4 else 4 - Inputs.table352 (c - 1)) /\
    0 <= local < Inputs.sizes352 (Inputs.probes012 c) /\
    sum_upto (fun i => Inputs.sizes352 (Inputs.probes012 i)) (Z.to_nat c) + local = 4.
Proof.
  apply (find_chunk_ix_locates Inputs.sizes352 Inputs.probes012 Inputs.table352 3 4 32).
  - unfold two31; lia.
  - intros i Hi.
    assert (Hcases : i = 0 \/ i = 1 \/ i = 2) by lia.
    destruct Hcases as [-> | [-> | ->]]; vm_compute; discriminate.
  - intros n Hn.
    destruct n as [|[|[|n]]]; try reflexivity. lia.
  - vm_compute. split; [discriminate|reflexivity].
  - reflexivity.
  - apply le_n.
Defined.

Example find_chunk_ix_352 :
  Ivf.find_chunk_ix 32 4 3 Inputs.table352 = Some (1, 1, [0; 0; 1]).
Proof. vm_compute. reflexivity. Qed.

(** C1 as stated fails for [n_probes = 2^32 - 1]: the table holds the
    prefix sums of the sizes (all zero but the last, which is one), the
    offset 0 is below the total 1, and the locator never returns. *)
Lemma find_chunk_ix_locates_not_for_max_probes :
  let size_of := fun i => Inputs.sparse_sizes (Inputs.sparse_probes i) in
  1 <= Inputs.max_probes /\
  (forall i, 0 <= i < Inputs.max_probes -> 0 <= size_of i) /\
  (forall n : nat, Z.of_nat n < Inputs.max_probes ->
     Inputs.sparse_table (Z.of_nat n) = sum_upto size_of (S n)) /\
  0 <= 0 < Inputs.sparse_table (Inputs.max_probes - 1) /\
  forall fuel : nat,
    Ivf.find_chunk_ix fuel 0 Inputs.max_probes Inputs.sparse_table = None.
Proof.
  intros size_of.
  assert (Hsize : forall i, size_of i = if i =? Inputs.max_probes - 1 then 1 else 0).
  { intros i. unfold size_of, Inputs.sparse_sizes, Inputs.sparse_probes.
    destruct (i =? Inputs.max_probes - 1); reflexivity. }
  assert (Hzero : forall n : nat,
            Z.of_nat n <= Inputs.max_probes - 1 -> sum_upto size_of n = 0).
  { induction n as [|n IH]; intros Hn; [reflexivity|].
    cbn [sum_upto]. rewrite IH by lia. rewrite Hsize.
    destruct (Z.eqb_spec (Z.of_nat n) (Inputs.max_probes - 1)); lia. }
  split; [unfold Inputs.max_probes, two32; lia|].
  split; [intros i _; rewrite Hsize; destruct (i =? Inputs.max_probes - 1); lia|].
  split; [|split].
  - intros n Hn. cbn [sum_upto]. rewrite Hzero by lia. rewrite Hsize.
    unfold Inputs.sparse_table.
    destruct (Z.ltb_spec (Z.of_nat n) (Inputs.max_probes - 1));
      destruct (Z.eqb_spec (Z.of_nat n) (Inputs.max_probes - 1)); lia.
  - unfold Inputs.sparse_table.
    destruct (Z.ltb_spec (Inputs.max_probes - 1) (Inputs.max_probes - 1)); lia.
  - apply find_chunk_ix_wraps. intros i Hi. unfold Inputs.sparse_table.
    destruct (Z.ltb_spec i (Inputs.max_probes - 1)); [lia|].
    u32.
Qed.

(* ------------------------------------------------------------------ *)
(** ** C3, C4: the result resolver *)

Lemma kOutOfBoundsRecord_is_max (IdxT : Ivf.int_type) :
  1 <= Ivf.bits IdxT ->
  Ivf.representable IdxT (Ivf.kOutOfBoundsRecord IdxT) /\
  forall v, Ivf.representable IdxT v -> v <= Ivf.kOutOfBoundsRecord IdxT.
Proof.
  intros Hb. unfold Ivf.representable, Ivf.kOutOfBoundsRecord,
    Ivf.numeric_limits_max, Ivf.numeric_limits_min.
  split; [|intros v Hv; lia].
  destruct (Ivf.is_signed IdxT).
  - assert (0 < 2 ^ (Ivf.bits IdxT - 1)) by (apply Z.pow_pos_nonneg; lia). lia.
  - assert (0 < 2 ^ Ivf.bits IdxT) by (apply Z.pow_pos_nonneg; lia). lia.
Qed.




Example postprocess_neighbors_kernel_rank0 :
  option_map (fun out => out 0)
    (Ivf.postprocess_neighbors_kernel 32 256 0 0 Ivf.int64_t
       Inputs.zeros Inputs.picks_4_12 Inputs.ids352 Inputs.probes012 Inputs.table352
       1 3 2) = Some 201.
Proof. vm_compute. reflexivity. Qed.

Example postprocess_neighbors_kernel_rank1 :
  option_map (fun out => out 1)
    (Ivf.postprocess_neighbors_kernel 32 256 1 0 Ivf.int64_t
       Inputs.zeros Inputs.picks_4_12 Inputs.ids352 Inputs.probes012 Inputs.table352
       1 3 2) = Some 9223372036854775807.
Proof. vm_compute. reflexivity. Qed.


(** With an empty probe list the locator can return 1; the kernel then
    stores the sentinel although the chunk index differs from
    [n_probes]. *)
Example postprocess_neighbors_kernel_empty_probe_list :
  Ivf.find_chunk_ix 32 0 0 Inputs.zeros = Some (1, 0, [0; 0]) /\
  option_map (fun out => out 0)
    (Ivf.postprocess_neighbors_kernel 32 256 0 0 Ivf.int64_t
       Inputs.zeros Inputs.zeros Inputs.ids352 Inputs.zeros Inputs.zeros 1 0 1)
  = Some (Ivf.kOutOfBoundsRecord Ivf.int64_t).
Proof. split; vm_compute; reflexivity. Qed.

(** When [query_ix * topk] wraps in [uint32_t] the thread serves
    another slot: with [topk = 65536] the thread with the linear index
    [2^32] (thread 0 of block [2^24], query 65536) reads the raw index
    of the slot 0 and writes the slot 0; the slot [2^32] is left as it
    was. *)
Example postprocess_neighbors_kernel_slot_wraps :
  0 + 256 * 16777216 = two32 /\ 65536 * 65536 = two32 /\
  match Ivf.postprocess_neighbors_kernel 32 256 0 16777216 Ivf.int64_t
          Inputs.zeros Inputs.picks_4_12 Inputs.ids352 Inputs.probes012 Inputs.table352
          65537 3 65536 with
  | Some neighbors_out' =>
      neighbors_out' 0 = Ivf.kOutOfBoundsRecord Ivf.int64_t /\
      neighbors_out' 4294967296 = 0
  | None => False
  end.
Proof. vm_compute. repeat split; reflexivity. Qed.

(** C4 (as amended).  For a monotone table of [1 <= n_probes <= 2^31]
    entries and every flat offset [s] at or beyond the total
    [table[n_probes-1]], the chunk locator returns [n_probes]; and a
    slot whose raw sample index is such an offset is completed normally
    by the resolver kernel, which stores the sentinel
    [kOutOfBoundsRecord] in it. *)
Theorem find_chunk_ix_not_found :
  (forall (chunk_indices : array Z) (s n_probes : Z) (fuel : nat),
     1 <= n_probes <= two31 ->
     (forall a b, 0 <= a <= b -> b < n_probes -> chunk_indices a <= chunk_indices b) ->
     chunk_indices (n_probes - 1) <= s ->
     (32 <= fuel)%nat ->
     exists local rd,
       Ivf.find_chunk_ix fuel s n_probes chunk_indices = Some (n_probes, local, rd)) /\
  (forall (fuel : nat) (BlockDim threadIdx_x blockIdx_x : Z) (IdxT1 : Ivf.int_type)
          (neighbors_out neighbors_in : array Z) (db_indices : array (array Z))
          (clusters_to_probe chunk_indices : array Z) (n_queries n_probes topk : Z),
     let i := wrap64 (threadIdx_x + BlockDim * blockIdx_x) in
     let query_ix := wrap32 (i / topk) in
     let k := wrap32 (i mod topk) in
     let slot := wrap32 (query_ix * topk) + k in
     let table := shift chunk_indices (wrap32 (query_ix * n_probes)) in
     1 <= n_probes <= two31 ->
     0 < topk ->
     query_ix < n_queries ->
     (forall a b, 0 <= a <= b -> b < n_probes -> table a <= table b) ->
     table (n_probes - 1) <= wrap32 (neighbors_in slot) ->
     (32 <= fuel)%nat ->
     Ivf.postprocess_neighbors_kernel fuel BlockDim threadIdx_x blockIdx_x IdxT1
       neighbors_out neighbors_in db_indices clusters_to_probe chunk_indices
       n_queries n_probes topk
     = Some (store neighbors_out slot (Ivf.kOutOfBoundsRecord IdxT1))).
Proof.
  assert (Hloc : forall (tbl : array Z) (s P : Z) (fuel : nat),
     1 <= P <= two31 ->
     (forall a b, 0 <= a <= b -> b < P -> tbl a <= tbl b) ->
     tbl (P - 1) <= s ->
     (32 <= fuel)%nat ->
     exists local rd, Ivf.find_chunk_ix fuel s P tbl = Some (P, local, rd)).
  { intros tbl s P fuel HP Hmono Hs Hfuel.
    destruct (find_chunk_ix_result tbl s P fuel HP Hfuel)
      as (c & rd & Hrun & Hc & _ & _ & Hr).
    destruct (Z.eq_dec c P) as [->|Hne]; [eauto|].
    destruct Hr as [->|Hr]; [eauto|].
    pose proof (Hmono c (P - 1) ltac:(lia) ltac:(lia)). lia. }
  split; [exact Hloc|].
  intros fuel BlockDim tx bx IdxT1 nout nin db probes tbl nq P topk
    i query_ix k slot table HP Htopk Hq Hmono Hs Hfuel.
  destruct (Hloc table (wrap32 (nin slot)) P fuel HP Hmono Hs Hfuel)
    as (local & rd & Hrun).
  unfold Ivf.postprocess_neighbors_kernel.
  fold i. fold query_ix. fold k.
  assert (Hguard : (nq <=? query_ix) = false) by (apply Z.leb_gt; exact Hq).
  rewrite Hguard.
  unfold shift at 1. fold slot. fold table.
  rewrite Hrun. rewrite Z.ltb_irrefl. reflexivity.
Qed.

(** Sizes 3, 5, 2: the flat offset 12 is beyond the total 10. *)
Lemma find_chunk_ix_not_found_witness :
  (exists local rd,
     Ivf.find_chunk_ix 32 12 3 Inputs.table352 = Some (3, local, rd)) /\
  Ivf.postprocess_neighbors_kernel 32 256 1 0 Ivf.int64_t
    Inputs.zeros Inputs.picks_4_12 Inputs.ids352 Inputs.probes012 Inputs.table352
    1 3 2
  = Some (store Inputs.zeros 1 (Ivf.kOutOfBoundsRecord Ivf.int64_t)).
Proof.
  assert (Hmono : forall a b, 0 <= a <= b -> b < 3 ->
                    Inputs.table352 a <= Inputs.table352 b).
  { intros a b Hab Hb.
    assert (Ha : a = 0 \/ a = 1 \/ a = 2) by lia.
    assert (Hb' : b = 0 \/ b = 1 \/ b = 2) by lia.
    destruct Ha as [-> | [-> | ->]]; destruct Hb' as [-> | [-> | ->]];
      try lia; vm_compute; discriminate. }
  destruct find_chunk_ix_not_found as [Hloc Hker].
  split.
  - apply (Hloc Inputs.table352 12 3 32%nat).
    + unfold two31; lia.
    + exact Hmono.
    + vm_compute; discriminate.
    + apply le_n.
  - apply (Hker 32%nat 256 1 0 Ivf.int64_t Inputs.zeros Inputs.picks_4_12 Inputs.ids352
             Inputs.probes012 Inputs.table352 1 3 2).
    + unfold two31; lia.
    + lia.
    + vm_compute; reflexivity.
    + exact Hmono.
    + vm_compute; discriminate.
    + apply le_n.
Defined.

(** C4 as stated fails for an empty probe list: the total is 0, the
    offset 0 is not below it, and with a zero in the first cell after
    the (empty) table the locator returns 1, not [n_probes = 0]. *)
Lemma find_chunk_ix_not_found_fails_for_empty_list :
  sum_upto (fun _ => 0) 0 <= 0 /\
  exists c local rd,
    Ivf.find_chunk_ix 32 0 0 Inputs.zeros = Some (c, local, rd) /\ c <> 0.
Proof.
  split; [simpl; lia|].
  exists 1, 0, [0; 0]. split; [vm_compute; reflexivity|discriminate].
Qed.

(* ------------------------------------------------------------------ *)
(** ** C2: the chunk index builder *)

Lemma wrap32_add_l (x y : Z) : wrap32 (wrap32 x + y) = wrap32 (x + y).
Proof. unfold wrap32. apply Zplus_mod_idemp_l. Qed.

Lemma wrap32_idem (x : Z) : wrap32 (wrap32 x) = wrap32 x.
Proof. unfold wrap32. apply Zmod_mod. Qed.

Section BlockScan.
Import Ivf.
Variable BlockDim : Z.
Variable n_probes : Z.
Variable cluster_sizes clusters_to_probe : array Z.
Hypothesis BlockDim_pos : 0 < BlockDim.

Local Abbreviation padded := (padded_size n_probes cluster_sizes clusters_to_probe).
Local Abbreviation pre := (running_sum32 n_probes cluster_sizes clusters_to_probe).

Lemma pre_succ (n : nat) : pre (S n) = wrap32 (pre n + padded (Z.of_nat n)).
  Proof. unfold running_sum32. cbn [sum_upto]. rewrite wrap32_add_l. reflexivity. Qed.

Lemma thread_chunk_later (probe_ix total tid : Z) :
    tid <> 0 ->
    thread_chunk n_probes cluster_sizes clusters_to_probe probe_ix total tid
    = padded (probe_ix + tid).
  Proof.
    intros Hne. unfold thread_chunk, padded_size.
    rewrite (proj2 (Z.eqb_neq tid 0) Hne).
    destruct (probe_ix + tid <? n_probes); reflexivity.
  Qed.

Lemma thread_chunk_first (probe_ix total : Z) :
    thread_chunk n_probes cluster_sizes clusters_to_probe probe_ix total 0
    = wrap32 (padded probe_ix + total).
  Proof.
    unfold thread_chunk, padded_size. rewrite Z.add_0_r.
    destruct (probe_ix <? n_probes); reflexivity.
  Qed.

  (** The threads [t, t+1, .., t+n-1] of a trip starting at probe [b0]:
      scanning their inputs from the running sum [pre (b0 + t)] and
      writing the results back. *)
Lemma trip_suffix :
    forall (n t b0 : nat) (total : Z) (mem : array Z),
      (1 <= t)%nat ->
      let inputs :=
        map (thread_chunk n_probes cluster_sizes clusters_to_probe (Z.of_nat b0) total)
            (map Z.of_nat (seq t n)) in
      let '(outs, agg) := inclusive_sum_from (pre (b0 + t)) inputs in
      agg = pre (b0 + t + n) /\
      forall j,
        write_back n_probes (Z.of_nat b0) (Z.of_nat t) outs mem j
        = if (Z.of_nat (b0 + t) <=? j) && (j <? Z.of_nat (b0 + t + n)) && (j <? n_probes)
          then pre (S (Z.to_nat j)) else mem j.
  Proof.
    induction n as [|n IH]; intros t b0 total mem Ht; cbn zeta.
    - simpl. split; [f_equal; lia|].
      intros j.
      destruct (Z.leb_spec (Z.of_nat (b0 + t)) j);
        destruct (Z.ltb_spec j (Z.of_nat (b0 + t + 0))); simpl; try reflexivity. lia.
    - cbn [seq map inclusive_sum_from].
      rewrite thread_chunk_later by lia.
      replace (Z.of_nat b0 + Z.of_nat t) with (Z.of_nat (b0 + t)) by lia.
      rewrite <- pre_succ.
      replace (S (b0 + t))%nat with (b0 + S t)%nat by lia.
      specialize (IH (S t) b0 total).
      cbn zeta in IH.
      destruct (inclusive_sum_from (pre (b0 + S t))
                  (map (thread_chunk n_probes cluster_sizes clusters_to_probe
                          (Z.of_nat b0) total) (map Z.of_nat (seq (S t) n))))
        as [outs agg] eqn:Hscan.
      cbn [write_back].
      replace (Z.of_nat t + 1) with (Z.of_nat (S t)) by lia.
      match goal with
      | |- context [write_back _ _ _ outs ?m] => destruct (IH m ltac:(lia)) as [Hagg Hmem]
      end.
      split; [rewrite Hagg; f_equal; lia|].
      intros j. rewrite Hmem.
      replace (Z.of_nat b0 + Z.of_nat t) with (Z.of_nat (b0 + t)) by lia.
      destruct (Z.leb_spec (Z.of_nat (b0 + S t)) j);
        destruct (Z.ltb_spec j (Z.of_nat (b0 + S t + n)));
        destruct (Z.leb_spec (Z.of_nat (b0 + t)) j);
        destruct (Z.ltb_spec j (Z.of_nat (b0 + t + S n)));
        destruct (Z.ltb_spec j n_probes);
        destruct (Z.ltb_spec (Z.of_nat (b0 + t)) n_probes);
        cbn [andb]; try lia; try reflexivity;
        unfold store;
        destruct (Z.eqb_spec j (Z.of_nat (b0 + t))); try lia; try reflexivity.
      subst j. rewrite Nat2Z.id. f_equal. lia.
  Qed.

  (** One trip of the whole block. *)
Lemma trip_of_block :
    forall (b0 : nat) (mem : array Z),
      let inputs :=
        map (thread_chunk n_probes cluster_sizes clusters_to_probe (Z.of_nat b0) (pre b0))
            (thread_ids BlockDim) in
      let '(outs, agg) := InclusiveSum inputs in
      agg = pre (b0 + Z.to_nat BlockDim) /\
      forall j,
        write_back n_probes (Z.of_nat b0) 0 outs mem j
        = if (Z.of_nat b0 <=? j) && (j <? Z.of_nat b0 + BlockDim) && (j <? n_probes)
          then pre (S (Z.to_nat j)) else mem j.
  Proof.
    intros b0 mem. cbn zeta. unfold thread_ids, InclusiveSum.
    destruct (Z.to_nat BlockDim) as [|m] eqn:HB; [lia|].
    cbn [seq map inclusive_sum_from].
    rewrite thread_chunk_first.
    rewrite Z.add_0_l, wrap32_idem, Z.add_comm, <- pre_succ.
    pose proof (trip_suffix m 1 b0 (pre b0)) as Hsuf. cbn zeta in Hsuf.
    replace (b0 + 1)%nat with (S b0) in Hsuf by lia.
    destruct (inclusive_sum_from (pre (S b0))
                (map (thread_chunk n_probes cluster_sizes clusters_to_probe
                        (Z.of_nat b0) (pre b0)) (map Z.of_nat (seq 1 m))))
      as [outs agg] eqn:Hscan.
    cbn [write_back].
    match goal with
    | |- context [write_back _ _ _ outs ?m] => destruct (Hsuf m ltac:(lia)) as [Hagg Hmem]
    end.
    split; [rewrite Hagg; f_equal; lia|].
    intros j. change (0 + 1) with (Z.of_nat 1). rewrite Hmem.
    rewrite Z.add_0_r.
    destruct (Z.leb_spec (Z.of_nat (S b0)) j);
      destruct (Z.ltb_spec j (Z.of_nat (S b0 + m)));
      destruct (Z.leb_spec (Z.of_nat b0) j);
      destruct (Z.ltb_spec j (Z.of_nat b0 + BlockDim));
      destruct (Z.ltb_spec j n_probes);
      destruct (Z.ltb_spec (Z.of_nat b0) n_probes);
      cbn [andb]; try lia; try reflexivity;
      unfold store;
      destruct (Z.eqb_spec j (Z.of_nat b0)); try lia; try reflexivity.
    subst j. rewrite Nat2Z.id. reflexivity.
  Qed.

  (** The loop from the probe [b0], with [trips] trips left before
      [n_probes_aligned]. *)
Lemma block_scan_loop_runs :
    forall (trips fuel b0 : nat) (n_probes_aligned : Z) (mem : array Z),
      n_probes_aligned = Z.of_nat b0 + Z.of_nat trips * BlockDim ->
      n_probes_aligned < two32 ->
      (trips < fuel)%nat ->
      exists mem',
        block_scan_loop BlockDim fuel n_probes cluster_sizes clusters_to_probe
          n_probes_aligned (Z.of_nat b0) (pre b0) mem
        = Some (mem', pre (Z.to_nat n_probes_aligned)) /\
        forall j,
          mem' j = if (Z.of_nat b0 <=? j) && (j <? n_probes_aligned) && (j <? n_probes)
                   then pre (S (Z.to_nat j)) else mem j.
  Proof.
    induction trips as [|trips IH]; intros fuel b0 aligned mem Hal H32 Hfuel;
      (destruct fuel as [|fuel]; [lia|]); cbn [block_scan_loop].
    - assert (Heq : aligned = Z.of_nat b0) by lia. clear Hal. subst aligned.
      rewrite Z.ltb_irrefl. exists mem. split; [rewrite Nat2Z.id; reflexivity|].
      intros j.
      destruct (Z.leb_spec (Z.of_nat b0) j);
        destruct (Z.ltb_spec j (Z.of_nat b0)); cbn [andb]; try reflexivity. lia.
    - assert (Hlt : (Z.of_nat b0 <? aligned) = true) by (apply Z.ltb_lt; nia).
      rewrite Hlt.
      pose proof (trip_of_block b0 mem) as Htrip. cbn zeta in Htrip.
      destruct (InclusiveSum
                  (map (thread_chunk n_probes cluster_sizes clusters_to_probe
                          (Z.of_nat b0) (pre b0)) (thread_ids BlockDim)))
        as [outs agg] eqn:Hscan.
      destruct Htrip as [Hagg Hmem]. rewrite Hagg.
      assert (Hnext : wrap32 (Z.of_nat b0 + BlockDim)
                      = Z.of_nat (b0 + Z.to_nat BlockDim)).
      { rewrite wrap32_small by nia. lia. }
      rewrite Hnext.
      destruct (IH fuel (b0 + Z.to_nat BlockDim)%nat aligned
                  (write_back n_probes (Z.of_nat b0) 0 outs mem))
        as (mem' & Hrun & Hmem'); try lia.
      exists mem'. split; [exact Hrun|].
      intros j. rewrite Hmem', Hmem.
      destruct (Z.leb_spec (Z.of_nat (b0 + Z.to_nat BlockDim)) j);
        destruct (Z.ltb_spec j aligned);
        destruct (Z.leb_spec (Z.of_nat b0) j);
        destruct (Z.ltb_spec j (Z.of_nat b0 + BlockDim));
        destruct (Z.ltb_spec j n_probes);
        cbn [andb]; try lia; try reflexivity.
  Qed.
End BlockScan.

Lemma sum_upto_padded (n_probes : Z) (cluster_sizes clusters_to_probe : array Z) (n : nat) :
  0 <= n_probes ->
  sum_upto (Ivf.padded_size n_probes cluster_sizes clusters_to_probe) n
  = sum_upto (fun i => cluster_sizes (clusters_to_probe i))
             (Nat.min n (Z.to_nat n_probes)).
Proof.
  intros HP. induction n as [|n IH]; [reflexivity|].
  cbn [sum_upto]. rewrite IH. unfold Ivf.padded_size.
  destruct (Z.ltb_spec (Z.of_nat n) n_probes).
  - replace (Nat.min (S n) (Z.to_nat n_probes)) with (S n) by lia.
    replace (Nat.min n (Z.to_nat n_probes)) with n by lia.
    reflexivity.
  - replace (Nat.min (S n) (Z.to_nat n_probes)) with (Z.to_nat n_probes) by lia.
    replace (Nat.min n (Z.to_nat n_probes)) with (Z.to_nat n_probes) by lia.
    lia.
Qed.

(** C2 (as amended).  Let block [blockIdx_x] serve a query whose row
    starts at an offset [n_probes * blockIdx_x] below [2^32] and whose
    probed cluster sizes add up to less than [2^32], and let
    [Pow2<BlockDim>::roundUp] return a multiple of [BlockDim] not below
    [n_probes] (and below [2^32]).  Then the kernel stores, at every position
    [i < n_probes] of the query's row of [chunk_indices], the sum of the
    sizes of the probed clusters [0..i], and stores the sum of all of
    them in [n_samples[blockIdx_x]]; nothing else is written.  So the
    last entry of the row equals the total, the row is non-decreasing,
    and with [n_probes = 0] the total is 0 and no entry is written. *)
Theorem calc_chunk_indices_kernel_scans :
  forall (BlockDim : Z) (roundUp : Z -> Z) (fuel : nat) (blockIdx_x n_probes : Z)
         (cluster_sizes clusters_to_probe chunk_indices n_samples : array Z),
    let row := n_probes * blockIdx_x in
    let size_of := fun i => cluster_sizes (clusters_to_probe (row + i)) in
    let total := sum_upto size_of (Z.to_nat n_probes) in
    0 < BlockDim ->
    0 <= n_probes ->
    0 <= blockIdx_x ->
    n_probes * blockIdx_x < two32 ->
    n_probes <= roundUp n_probes < two32 ->
    roundUp n_probes mod BlockDim = 0 ->
    (forall i, 0 <= i < n_probes -> 0 <= size_of i) ->
    total < two32 ->
    (Z.to_nat (roundUp n_probes / BlockDim) < fuel)%nat ->
    exists chunk_indices' n_samples',
      Ivf.calc_chunk_indices_kernel BlockDim roundUp fuel blockIdx_x n_probes
        cluster_sizes clusters_to_probe chunk_indices n_samples
      = Some (chunk_indices', n_samples') /\
      (forall i, 0 <= i < n_probes ->
         chunk_indices' (row + i) = sum_upto size_of (Z.to_nat (i + 1))) /\
      (forall a, ~ (row <= a < row + n_probes) -> chunk_indices' a = chunk_indices a) /\
      n_samples' blockIdx_x = total /\
      (forall q, q <> blockIdx_x -> n_samples' q = n_samples q) /\
      (0 < n_probes -> chunk_indices' (row + (n_probes - 1)) = total) /\
      (forall a b, 0 <= a <= b -> b < n_probes ->
         chunk_indices' (row + a) <= chunk_indices' (row + b)) /\
      (n_probes = 0 ->
         n_samples' blockIdx_x = 0 /\ forall a, chunk_indices' a = chunk_indices a).
Proof.
  intros BlockDim roundUp fuel bx P sizes probes mem ns row size_of total
    HB HP Hbx Hrow Hup Hmul Hsz Htot Hfuel.
  assert (Hwrap : wrap32 (P * bx) = row)
    by (apply wrap32_small; subst row; split; [nia|exact Hrow]).
  set (aligned := roundUp P) in *.
  assert (Hal : aligned = Z.of_nat 0 + Z.of_nat (Z.to_nat (aligned / BlockDim)) * BlockDim).
  { pose proof (Z.div_mod aligned BlockDim ltac:(lia)) as Hdm.
    assert (0 <= aligned / BlockDim) by (apply Z.div_pos; lia).
    rewrite Z2Nat.id by lia. lia. }
  destruct (block_scan_loop_runs BlockDim P sizes (shift probes row) HB
              (Z.to_nat (aligned / BlockDim)) fuel 0 aligned (shift mem row)
              Hal (proj2 Hup) Hfuel) as (mem' & Hrun & Hmem').
  (* the 32-bit running sums are the exact ones *)
  assert (Hpre : forall n : nat,
            Ivf.running_sum32 P sizes (shift probes row) n
            = sum_upto size_of (Nat.min n (Z.to_nat P))).
  { intros n. unfold Ivf.running_sum32. rewrite sum_upto_padded by exact HP.
    change (fun i => sizes (shift probes row i)) with size_of.
    apply wrap32_small. split.
    - apply sum_upto_nonneg. intros i Hi. apply Hsz. lia.
    - apply Z.le_lt_trans with total; [|exact Htot].
      apply sum_upto_mono; [|lia]. intros i Hi. apply Hsz. lia. }
  assert (Hcell : forall i, 0 <= i < P -> mem' i = sum_upto size_of (Z.to_nat (i + 1))).
  { intros i Hi. rewrite Hmem'.
    rewrite (proj2 (Z.leb_le (Z.of_nat 0) i)) by lia.
    rewrite (proj2 (Z.ltb_lt i aligned)) by lia.
    rewrite (proj2 (Z.ltb_lt i P)) by lia.
    cbn [andb]. rewrite Hpre. f_equal. lia. }
  assert (Hrest : forall j, ~ (0 <= j < P) -> mem' j = shift mem row j).
  { intros j Hj. rewrite Hmem'.
    destruct (Z.leb_spec (Z.of_nat 0) j); destruct (Z.ltb_spec j aligned);
      destruct (Z.ltb_spec j P); cbn [andb]; try reflexivity. lia. }
  unfold Ivf.calc_chunk_indices_kernel. rewrite Hwrap. fold aligned.
  change (Z.of_nat 0) with 0 in Hrun.
  change (Ivf.running_sum32 P sizes (shift probes row) 0) with 0 in Hrun.
  rewrite Hrun. rewrite Hpre.
  replace (Nat.min (Z.to_nat aligned) (Z.to_nat P)) with (Z.to_nat P) by lia.
  fold total.
  eexists _, _. split; [reflexivity|].
  assert (Hout : forall i, 0 <= i < P ->
            (if row <=? row + i then mem' (row + i - row) else mem (row + i))
            = sum_upto size_of (Z.to_nat (i + 1))).
  { intros i Hi. rewrite (proj2 (Z.leb_le row (row + i))) by lia.
    replace (row + i - row) with i by lia. apply Hcell. exact Hi. }
  assert (Hmono : forall a b, 0 <= a <= b -> b < P ->
            sum_upto size_of (Z.to_nat (a + 1)) <= sum_upto size_of (Z.to_nat (b + 1))).
  { intros a b Hab Hb. apply sum_upto_mono; [|lia].
    intros i Hi. apply Hsz. lia. }
  repeat split.
  - exact Hout.
  - intros a Ha. destruct (Z.leb_spec row a); [|reflexivity].
    rewrite Hrest by lia. unfold shift. f_equal. lia.
  - unfold store. rewrite Z.eqb_refl. reflexivity.
  - intros q Hq. unfold store. rewrite (proj2 (Z.eqb_neq q bx) Hq). reflexivity.
  - intros Hpos. rewrite Hout by lia. unfold total. f_equal. lia.
  - intros a b Hab Hb. rewrite !Hout by lia. apply Hmono; assumption.
  - unfold store. rewrite Z.eqb_refl. subst P. reflexivity.
  - intros a. destruct (Z.leb_spec row a); [|reflexivity].
    rewrite Hrest by lia. unfold shift. f_equal. lia.
Qed.

(** Sizes 3, 5, 2 (spec, section 8): the row is 3, 8, 10 and the total 10. *)
Lemma calc_chunk_indices_kernel_scans_witness :
  exists chunk_indices' n_samples',
    Ivf.calc_chunk_indices_kernel 32 Inputs.roundUp_32 2 0 3
      Inputs.sizes352 Inputs.probes012 Inputs.zeros Inputs.zeros
    = Some (chunk_indices', n_samples') /\
    chunk_indices' 0 = 3 /\ chunk_indices' 1 = 8 /\ chunk_indices' 2 = 10 /\
    n_samples' 0 = 10.
Proof.
  destruct (calc_chunk_indices_kernel_scans 32 Inputs.roundUp_32 2 0 3
              Inputs.sizes352 Inputs.probes012 Inputs.zeros Inputs.zeros)
    as (ci & ns & Hrun & Hcells & _ & Hns & _).
  - lia.
  - lia.
  - lia.
  - reflexivity.
  - vm_compute. split; [discriminate|reflexivity].
  - reflexivity.
  - intros i Hi.
    assert (Hcases : i = 0 \/ i = 1 \/ i = 2) by lia.
    destruct Hcases as [-> | [-> | ->]]; vm_compute; discriminate.
  - reflexivity.
  - vm_compute. apply le_n.
  - exists ci, ns. split; [exact Hrun|].
    pose proof (Hcells 0 ltac:(lia)) as H0.
    pose proof (Hcells 1 ltac:(lia)) as H1.
    pose proof (Hcells 2 ltac:(lia)) as H2.
    repeat split; [exact H0|exact H1|exact H2|exact Hns].
Defined.

(** C2 as stated fails when the probed sizes add up to [2^32] or more:
    with the sizes [2^32 - 1] and 1 the running sum wraps, the row is
    [2^32 - 1, 0] and the reported total is 0. *)
Lemma calc_chunk_indices_kernel_wraps :
  sum_upto (fun i => Inputs.huge_sizes (Inputs.probes01 i)) 2 = 4294967296 /\
  match Ivf.calc_chunk_indices_kernel 32 Inputs.roundUp_32 2 0 2
          Inputs.huge_sizes Inputs.probes01 Inputs.zeros Inputs.zeros with
  | Some (chunk_indices', n_samples') =>
      chunk_indices' 0 = 4294967295 /\ chunk_indices' 1 = 0 /\ n_samples' 0 = 0
  | None => False
  end.
Proof. vm_compute. repeat split; reflexivity. Qed.

(** When the rounded-up probe count itself wraps (here to 0) the loop
    is not entered: the row is left as it was and the total is 0. *)
Example calc_chunk_indices_kernel_round_up_wraps :
  Inputs.roundUp_32 Inputs.max_probes = 0 /\
  match Ivf.calc_chunk_indices_kernel 32 Inputs.roundUp_32 1 0 Inputs.max_probes
          (fun _ => 1) Inputs.zeros Inputs.zeros Inputs.zeros with
  | Some (chunk_indices', n_samples') => chunk_indices' 0 = 0 /\ n_samples' 0 = 0
  | None => False
  end.
Proof. vm_compute. repeat split; reflexivity. Qed.

(** When the row offset [n_probes * blockIdx.x] wraps in [uint32_t] the
    block works on another query's row: with 4 probes the block [2^30]
    reads the probes of query 0 and overwrites the row of query 0,
    leaves its own row (at the offset [2^32]) as it was, and stores the
    total of those probes in [n_samples[2^30]]. *)
Example calc_chunk_indices_kernel_row_wraps :
  4 * 1073741824 = two32 /\
  match Ivf.calc_chunk_indices_kernel 32 Inputs.roundUp_32 2 1073741824 4
          Inputs.sizes352 Inputs.probes012 Inputs.zeros Inputs.zeros with
  | Some (chunk_indices', n_samples') =>
      chunk_indices' 0 = 3 /\ chunk_indices' 1 = 8 /\ chunk_indices' 2 = 10 /\
      chunk_indices' 3 = 13 /\
      chunk_indices' 4294967296 = 0 /\ chunk_indices' 4294967299 = 0 /\
      n_samples' 1073741824 = 13
  | None => False
  end.
Proof. vm_compute. repeat split; reflexivity. Qed.

(* ------------------------------------------------------------------ *)
(** ** C7, C8: the distance postprocessor *)

(** Negating one factor negates the binary32 product. *)
Lemma fmul_fneg_l (s : Ivf.float) :
  Ivf.fmul (Ivf.fneg s) s = Ivf.fneg (Ivf.fmul s s).
Proof.
  unfold Ivf.fmul, Ivf.fneg. destruct s as [sg|sg| |sg m e]; try reflexivity.
  - destruct sg; reflexivity.
  - destruct sg; reflexivity.
  - unfold SFmul, SFopp, binary_round_aux.
    destruct (shr_fexp 24 128 (Z.pos (m * m)) (e + e) loc_Exact) as [mrs e'].
    destruct (shr_fexp 24 128 (round_nearest_even (shr_m mrs) (loc_of_shr_record mrs))
                e' loc_Exact) as [mrs' e''].
    destruct sg; cbn [negb xorb];
      destruct (shr_m mrs'); try reflexivity;
      destruct (e'' <=? 128 - 24); reflexivity.
Qed.

(** C7.  For every raw score [in[i]], [i < n_queries * topk], and every
    scale factor [s], the postprocessor writes to [out[i]]:
    [raw * (s * s)] for the squared-Euclidean metrics, [sqrt raw * s] for
    the Euclidean (square-root) metrics and [raw * -(s * s)] for the
    inner product, where [*] and [sqrt] are the IEEE-754 binary32
    operations and [raw] is the score converted to [float].  In
    particular raw 9 with scale 2 gives 36 under squared Euclidean,
    raw 16 with scale 1 gives 4 under Euclidean and raw 5 with scale 1
    gives -5 under the inner product. *)
Theorem postprocess_distances_transforms :
  (forall (ScoreInT : Type) (cast_op : ScoreInT -> Ivf.float)
          (out : array Ivf.float) (in_ : array ScoreInT) (n_queries topk : Z)
          (s : Ivf.float),
     let len := wrap64 (n_queries * topk) in
     let squared := fun i => if (0 <=? i) && (i <? len)
                             then Ivf.fmul (cast_op (in_ i)) (Ivf.fmul s s)
                             else out i in
     let rooted := fun i => if (0 <=? i) && (i <? len)
                            then Ivf.fmul (Ivf.fsqrt (cast_op (in_ i))) s
                            else out i in
     let negated := fun i => if (0 <=? i) && (i <? len)
                             then Ivf.fmul (cast_op (in_ i)) (Ivf.fneg (Ivf.fmul s s))
                             else out i in
     Ivf.postprocess_distances ScoreInT cast_op out in_ Ivf.L2Expanded n_queries topk s
       = Ivf.Done squared /\
     Ivf.postprocess_distances ScoreInT cast_op out in_ Ivf.L2Unexpanded n_queries topk s
       = Ivf.Done squared /\
     Ivf.postprocess_distances ScoreInT cast_op out in_ Ivf.L2SqrtExpanded n_queries topk s
       = Ivf.Done rooted /\
     Ivf.postprocess_distances ScoreInT cast_op out in_ Ivf.L2SqrtUnexpanded n_queries topk s
       = Ivf.Done rooted /\
     Ivf.postprocess_distances ScoreInT cast_op out in_ Ivf.InnerProduct n_queries topk s
       = Ivf.Done negated) /\
  (forall out : array Ivf.float,
     let run := fun metric raw scale =>
       Ivf.postprocess_distances Ivf.float (fun x => x) out
         (fun _ => Ivf.float_of_Z raw) metric 1 1 (Ivf.float_of_Z scale) in
     let first := fun (r : Ivf.outcome (array Ivf.float)) =>
       match r with
       | Ivf.Done o => Some (o 0)
       | Ivf.Raised _ => None
       end in
     first (run Ivf.L2Expanded 9 2) = Some (Ivf.float_of_Z 36) /\
     first (run Ivf.L2SqrtExpanded 16 1) = Some (Ivf.float_of_Z 4) /\
     first (run Ivf.InnerProduct 5 1) = Some (Ivf.float_of_Z (-5))).
Proof.
  split.
  - intros ScoreInT cast_op out in_ n_queries topk s len squared rooted negated.
    repeat split; try reflexivity.
    unfold Ivf.postprocess_distances, negated. fold len.
    rewrite fmul_fneg_l. reflexivity.
  - intros out run first. repeat split; vm_compute; reflexivity.
Qed.

(** C8.  For every metric outside the supported families the
    postprocessor raises the exception "Unexpected metric." and returns
    no output array: no transform is applied in its place. *)
Theorem postprocess_distances_rejects :
  forall (ScoreInT : Type) (cast_op : ScoreInT -> Ivf.float)
         (out : array Ivf.float) (in_ : array ScoreInT) (metric : Ivf.DistanceType)
         (n_queries topk : Z) (s : Ivf.float),
    Ivf.supported_metric metric = false ->
    Ivf.postprocess_distances ScoreInT cast_op out in_ metric n_queries topk s
    = Ivf.Raised "Unexpected metric."
    /\ forall o,
         Ivf.postprocess_distances ScoreInT cast_op out in_ metric n_queries topk s
         <> Ivf.Done o.
Proof.
  intros ScoreInT cast_op out in_ metric nq topk s Hm.
  destruct metric; try discriminate Hm.
  split; [reflexivity|]. intros o H. discriminate H.
Qed.

Lemma postprocess_distances_rejects_witness :
  Ivf.postprocess_distances Ivf.float (fun x => x)
    (fun _ => Ivf.float_of_Z 0) (fun _ => Ivf.float_of_Z 9) (Ivf.OtherMetric 3)
    1 1 (Ivf.float_of_Z 2)
  = Ivf.Raised "Unexpected metric."
  /\ forall o,
       Ivf.postprocess_distances Ivf.float (fun x => x)
         (fun _ => Ivf.float_of_Z 0) (fun _ => Ivf.float_of_Z 9) (Ivf.OtherMetric 3)
         1 1 (Ivf.float_of_Z 2)
       <> Ivf.Done o.
Proof.
  apply (postprocess_distances_rejects Ivf.float (fun x => x)
           (fun _ => Ivf.float_of_Z 0) (fun _ => Ivf.float_of_Z 9) (Ivf.OtherMetric 3)
           1 1 (Ivf.float_of_Z 2)).
  reflexivity.
Defined.

(* ------------------------------------------------------------------ *)
(** ** C10: unravel_index *)

Lemma popc_odd (m : Z) : 0 <= m -> Mdspan.popc (2 * m + 1) = 1 + Mdspan.popc m.
Proof. intros Hm. destruct m as [|p|p]; try reflexivity. lia. Qed.

(** The test [s & (s - 1)] of the source is zero exactly on the powers
    of two, and then [popc (s - 1)] is the exponent. *)
Lemma power_of_two_test (p : positive) :
  Z.land (Z.pos p) (Z.pos p - 1) = 0 ->
  exists k, 0 <= k /\ Z.pos p = 2 ^ k /\ Mdspan.popc (Z.pos p - 1) = k.
Proof.
  induction p as [q IH|q IH|]; intros H.
  - exfalso.
    apply (f_equal (fun z => Z.shiftr z 1)) in H.
    rewrite Z.shiftr_land, !Z.shiftr_div_pow2 in H by lia.
    change (2 ^ 1) with 2 in H. change (0 / 2) with 0 in H.
    rewrite Pos2Z.inj_xI in H.
    replace ((2 * Z.pos q + 1) / 2) with (Z.pos q) in H
      by (apply (Z.div_unique _ 2 _ 1); lia).
    replace ((2 * Z.pos q + 1 - 1) / 2) with (Z.pos q) in H
      by (apply (Z.div_unique _ 2 _ 0); lia).
    rewrite Z.land_diag in H. lia.
  - assert (Hq : Z.land (Z.pos q) (Z.pos q - 1) = 0).
    { apply (f_equal (fun z => Z.shiftr z 1)) in H.
      rewrite Z.shiftr_land, !Z.shiftr_div_pow2 in H by lia.
      change (2 ^ 1) with 2 in H. change (0 / 2) with 0 in H.
      rewrite Pos2Z.inj_xO in H.
      replace (2 * Z.pos q / 2) with (Z.pos q) in H
        by (apply (Z.div_unique _ 2 _ 0); lia).
      replace ((2 * Z.pos q - 1) / 2) with (Z.pos q - 1) in H
        by (apply (Z.div_unique _ 2 _ 1); lia).
      exact H. }
    destruct (IH Hq) as (k & Hk & Hpow & Hpop).
    exists (k + 1). split; [lia|]. split.
    + rewrite Pos2Z.inj_xO, Hpow, Z.pow_add_r by lia. lia.
    + rewrite Pos2Z.inj_xO.
      replace (2 * Z.pos q - 1) with (2 * (Z.pos q - 1) + 1) by lia.
      rewrite popc_odd by lia. lia.
  - exists 0. repeat split; lia.
Qed.

Section UnravelStep.
Variable wrapI : Z -> Z.
Variable modulus : Z.
Hypothesis wrapI_small : forall x, 0 <= x < modulus -> wrapI x = x.

(** One trip of the loop on an extent that fits the type [I]: both
    branches leave the remainder in [index[dim]] and the quotient in
    [idx]. *)
Lemma unravel_step (idx s : Z) :
  0 <= idx < modulus -> 1 <= s < modulus ->
  (if Z.land s (wrapI (s - 1)) =? 0
   then (Z.land idx (wrapI (s - 1)), Z.shiftr idx (Mdspan.popc (wrapI (s - 1))))
   else (wrapI (idx - wrapI (idx / s * s)), idx / s))
  = (idx mod s, idx / s).
Proof.
  intros Hidx Hs.
  rewrite (wrapI_small (s - 1)) by lia.
  destruct (Z.eqb_spec (Z.land s (s - 1)) 0) as [Hz|Hnz].
  - destruct s as [|p|p]; try lia.
    destruct (power_of_two_test p Hz) as (k & Hk & Hpow & Hpop).
    rewrite Hpop, Hpow.
    replace (2 ^ k - 1) with (Z.ones k) by (rewrite Z.ones_equiv; lia).
    rewrite Z.land_ones, Z.shiftr_div_pow2 by lia. reflexivity.
  - pose proof (Z.div_mod idx s ltac:(lia)) as Hdm.
    pose proof (Z.mod_pos_bound idx s ltac:(lia)) as Hmod.
    assert (0 <= idx / s) by (apply Z.div_pos; lia).
    assert (Hts : 0 <= idx / s * s <= idx) by nia.
    rewrite (wrapI_small (idx / s * s)) by lia.
    rewrite wrapI_small by lia.
    f_equal. lia.
Qed.

Lemma ravel_from_snoc (cs es : list Z) (acc c e : Z) :
  length cs = length es ->
  Mdspan.ravel_from acc (cs ++ [c]) (es ++ [e]) = Mdspan.ravel_from acc cs es * e + c.
Proof.
  revert es acc. induction cs as [|c' cs IH]; intros [|e' es] acc Hlen;
    try discriminate; [reflexivity|].
  simpl. apply IH. simpl in Hlen. lia.
Qed.

(** The loop over the dimensions [kRank-1 .. 1]. *)
Lemma unravel_loop_spec (rev_extents : list Z) :
  forall idx,
    0 <= idx < modulus ->
    Forall (fun e => 1 <= e < modulus) rev_extents ->
    let '(idx0, coords) := Mdspan.unravel_loop wrapI idx rev_extents in
    length coords = length rev_extents /\
    Forall2 (fun c e => 0 <= c < e) coords (rev rev_extents) /\
    0 <= idx0 <= idx /\
    Mdspan.ravel_from idx0 coords (rev rev_extents) = idx.
Proof.
  induction rev_extents as [|e rest IH]; intros idx Hidx Hall.
  - simpl. repeat split; try lia. constructor.
  - inversion Hall as [|? ? He Hrest]; subst.
    cbn [Mdspan.unravel_loop].
    rewrite (wrapI_small e) by lia.
    rewrite (unravel_step idx e Hidx He).
    assert (Hq : 0 <= idx / e <= idx).
    { split; [apply Z.div_pos; lia|].
      apply Z.div_le_upper_bound; nia. }
    specialize (IH (idx / e) ltac:(lia) Hrest).
    destruct (Mdspan.unravel_loop wrapI (idx / e) rest) as [idx0 coords].
    destruct IH as (Hlen & Hin & H0 & Hrav).
    pose proof (Z.mod_pos_bound idx e ltac:(lia)) as Hmod.
    pose proof (Z.div_mod idx e ltac:(lia)) as Hdm.
    repeat split; try lia.
    + rewrite length_app. simpl. lia.
    + simpl. apply Forall2_app; [exact Hin|]. constructor; [lia|constructor].
    + simpl. rewrite ravel_from_snoc by (rewrite length_rev; exact Hlen).
      rewrite Hrav. lia.
Qed.
End UnravelStep.

Lemma product_pos (es : list Z) (m : Z) :
  Forall (fun e => 1 <= e < m) es -> 0 < Mdspan.product es.
Proof.
  induction 1 as [|e es He _ IH]; simpl; [lia|]. nia.
Qed.

Lemma ravel_from_dot (cs es : list Z) (acc : Z) :
  length cs = length es ->
  Mdspan.ravel_from acc cs es
  = acc * Mdspan.product es + Mdspan.dot cs (Mdspan.row_major_strides es).
Proof.
  revert es acc. induction cs as [|c cs IH]; intros [|e es] acc Hlen;
    try discriminate; simpl.
  - lia.
  - rewrite IH by (simpl in Hlen; lia). ring.
Qed.

Lemma dot_strides_nonneg (cs es : list Z) (m : Z) :
  Forall (fun e => 1 <= e < m) es ->
  Forall2 (fun c e => 0 <= c < e) cs es ->
  0 <= Mdspan.dot cs (Mdspan.row_major_strides es).
Proof.
  intros Hes H. induction H as [|c e cs es Hc _ IH]; simpl; [lia|].
  inversion Hes as [|? ? _ Hes']; subst.
  pose proof (product_pos es m Hes'). specialize (IH Hes'). nia.
Qed.

(** On shapes whose extents fit the integer type chosen by
    [unravel_index] (32 bits unless [idx] needs 64), the coordinates
    returned are in range and ravel back to [idx]. *)
Lemma unravel_index_when_extents_fit :
  forall (Idx_bits idx e0 : Z) (es : list Z),
    let modulus :=
      if (Idx_bits =? 64) && (two32 - 1 <? idx) then two64 else two32 in
    0 <= idx < Mdspan.product (e0 :: es) ->
    idx < two64 ->
    Idx_bits = 64 \/ idx < two32 ->
    Forall (fun e => 1 <= e < modulus) es ->
    let coords := Mdspan.unravel_index Idx_bits idx (e0 :: es) in
    Forall2 (fun c e => 0 <= c < e) coords (e0 :: es) /\
    Mdspan.ravel coords (e0 :: es) = idx.
Proof.
  intros Idx_bits idx e0 es modulus Hidx H64 Hbits Hes coords.
  assert (Hw64 : wrap64 idx = idx)
    by (unfold wrap64; apply Z.mod_small; lia).
  assert (Hloop : exists wrapI,
            coords = Mdspan.unravel_index_impl wrapI idx (e0 :: es) /\
            (forall x, 0 <= x < modulus -> wrapI x = x) /\ idx < modulus).
  { subst coords modulus. unfold Mdspan.unravel_index. rewrite Hw64.
    destruct ((Idx_bits =? 64) && (two32 - 1 <? idx)) eqn:Hpath.
    - exists wrap64. repeat split; [|exact H64].
      intros x Hx. unfold wrap64. apply Z.mod_small. exact Hx.
    - assert (Hsmall : idx < two32).
      { destruct Hbits as [->|]; [|assumption].
        rewrite Z.eqb_refl in Hpath. cbn [andb] in Hpath.
        apply Z.ltb_ge in Hpath. lia. }
      exists wrap32. rewrite (wrap32_small idx) by lia.
      repeat split; [|exact Hsmall].
      intros x Hx. apply wrap32_small. exact Hx. }
  destruct Hloop as (wrapI & -> & Hwrap & Hlt).
  unfold Mdspan.unravel_index_impl. cbn [tl].
  pose proof (unravel_loop_spec wrapI modulus Hwrap (rev es) idx ltac:(lia)
                (Forall_rev Hes)) as Hspec.
  destruct (Mdspan.unravel_loop wrapI idx (rev es)) as [idx0 cs].
  rewrite rev_involutive, length_rev in Hspec.
  destruct Hspec as (Hlen & Hin & H0 & Hrav).
  rewrite ravel_from_dot in Hrav by exact Hlen.
  pose proof (product_pos es modulus Hes) as Hprod.
  pose proof (dot_strides_nonneg cs es modulus Hes Hin) as Hdot.
  split.
  - constructor; [|exact Hin].
    cbn [Mdspan.product fold_right] in Hidx.
    fold (Mdspan.product es) in Hidx. nia.
  - unfold Mdspan.ravel. cbn [Mdspan.row_major_strides Mdspan.dot]. lia.
Qed.

Lemma unravel_index_when_extents_fit_example :
  Mdspan.unravel_index 64 17 [7; 6] = [2; 5] /\
  Mdspan.unravel_index 64 17 [3; 8] = [2; 1] /\
  Mdspan.ravel [2; 5] [7; 6] = 17.
Proof. repeat split; vm_compute; reflexivity. Qed.

(** The mask-and-shift branch taken on a power of two computes what
    the division branch would. *)
Lemma unravel_fast_path_agrees (idx s : Z) :
  0 <= idx < two64 -> 1 <= s < two64 ->
  Z.land s (wrap64 (s - 1)) = 0 ->
  (Z.land idx (wrap64 (s - 1)), Z.shiftr idx (Mdspan.popc (wrap64 (s - 1))))
  = (wrap64 (idx - wrap64 (idx / s * s)), idx / s).
Proof.
  intros Hidx Hs Hz.
  assert (Hwrap : forall x, 0 <= x < two64 -> wrap64 x = x)
    by (intros x Hx; unfold wrap64; apply Z.mod_small; exact Hx).
  pose proof (unravel_step wrap64 two64 Hwrap idx s Hidx Hs) as Hstep.
  rewrite Hz in Hstep. cbn [Z.eqb] in Hstep. rewrite Hstep.
  pose proof (Z.div_mod idx s ltac:(lia)) as Hdm.
  pose proof (Z.mod_pos_bound idx s ltac:(lia)) as Hmod.
  assert (0 <= idx / s) by (apply Z.div_pos; lia).
  assert (Hts : 0 <= idx / s * s <= idx) by nia.
  rewrite (Hwrap (idx / s * s)) by lia.
  rewrite Hwrap by lia.
  f_equal. lia.
Qed.

(** C10 fails on the code.  In the shape (2, 2^32 + 6) the linear index
    7 is the coordinate (0, 7).  The index is below 2^32, so
    [unravel_index] takes the 32-bit path, which truncates the extent
    of dimension 1 to 6 and returns (1, 1): a coordinate that ravels to
    2^32 + 7, not to 7. *)
Theorem unravel_index_truncates_extent :
  0 <= 7 < Mdspan.product [2; 4294967302] /\
  Mdspan.unravel_index 64 7 [2; 4294967302] = [1; 1] /\
  Mdspan.ravel [1; 1] [2; 4294967302] = 4294967303 /\
  Mdspan.ravel [0; 7] [2; 4294967302] = 7.
Proof. repeat split; vm_compute; try reflexivity; discriminate. Qed.

(* ------------------------------------------------------------------ *)
(** ** C6: the radius scan *)

Section RadiusScan.
Import BallCover.
Variable Point : Type.
Variable dfunc : Point -> Point -> Z.

Lemma eps_scan_partition_filter (query : Point) (eps : Z) (p : partition Point)
    (ja : list Z) :
  eps_scan_partition Point dfunc query eps p ja
  = ja ++ map fst (filter (fun m => dfunc query (snd m) <=? eps) (members Point p)).
Proof.
  unfold eps_scan_partition. generalize (members Point p) as ms. intros ms. revert ja.
  induction ms as [|m ms IH]; intros ja; simpl.
  - rewrite app_nil_r. reflexivity.
  - rewrite IH. destruct (dfunc query (snd m) <=? eps); simpl.
    + rewrite <- app_assoc. reflexivity.
    + reflexivity.
Qed.

Lemma eps_scan_probe_list (index : BallCoverIndex Point) (query : Point) (eps : Z)
    (probe_list : list nat) (ja : list Z) :
  fold_left (fun out pid =>
               match nth_error index pid with
               | None => out
               | Some p => eps_scan_partition Point dfunc query eps p out
               end) probe_list ja
  = ja ++ brute_force_eps Point dfunc index query eps probe_list.
Proof.
  revert ja. unfold brute_force_eps, probed_members.
  induction probe_list as [|pid rest IH]; intros ja; simpl.
  - rewrite app_nil_r. reflexivity.
  - rewrite IH, filter_app, map_app, app_assoc. f_equal.
    destruct (nth_error index pid) as [p|]; simpl.
    + apply eps_scan_partition_filter.
    + rewrite app_nil_r. reflexivity.
Qed.

(** C6.  For every query and radius [eps] the radius scan visits every
    partition of the probe list, without pruning, and emits exactly the
    identifiers of the members at distance at most [eps]: its output is
    the brute-force selection over the probed partitions (even in the
    same order), the degree is its length, and the dense adjacency row
    marks the same identifiers. *)
Theorem rbc_eps_pass_is_brute_force :
  forall (index : BallCoverIndex Point) (query : Point) (eps : Z)
         (probe_list : list nat),
    fst (rbc_eps_pass Point dfunc index query eps probe_list)
      = brute_force_eps Point dfunc index query eps probe_list /\
    snd (rbc_eps_pass Point dfunc index query eps probe_list)
      = length (brute_force_eps Point dfunc index query eps probe_list) /\
    (forall row,
       rbc_eps_pass_dense Point dfunc index query eps probe_list row
       = existsb (Z.eqb row) (brute_force_eps Point dfunc index query eps probe_list)).
Proof.
  intros index query eps probe_list.
  unfold rbc_eps_pass_dense, rbc_eps_pass. cbn [fst snd].
  rewrite eps_scan_probe_list. cbn [app].
  repeat split.
Qed.
End RadiusScan.

(* ------------------------------------------------------------------ *)
(** ** C5: the two-pass landmark scanner *)


Section TopK.
Import BallCover.

Lemma insert_length (c : candidate) (h : list candidate) :
  length (insert c h) = S (length h).
Proof.
  induction h as [|x h IH]; simpl; [reflexivity|].
  destruct (fst c <? fst x); simpl; [reflexivity|]. rewrite IH. reflexivity.
Qed.

Lemma insert_perm (c : candidate) (h : list candidate) :
  Permutation (insert c h) (c :: h).
Proof.
  induction h as [|x h IH]; simpl; [reflexivity|].
  destruct (fst c <? fst x); [reflexivity|].
  rewrite IH. apply perm_swap.
Qed.

Lemma insert_sorted (c : candidate) (h : list candidate) :
  StronglySorted le_key h -> StronglySorted le_key (insert c h).
Proof.
  induction 1 as [|x h Hs IH Hall]; simpl.
  - constructor; constructor.
  - destruct (Z.ltb_spec (fst c) (fst x)).
    + constructor; [constructor; assumption|].
      constructor; [unfold le_key; lia|].
      eapply Forall_impl; [|exact Hall].
      intros y Hy. unfold le_key in *. lia.
    + constructor; [exact IH|].
      rewrite (insert_perm c h). constructor; [unfold le_key; lia|exact Hall].
Qed.

Lemma in_firstn {A} (k : nat) (l : list A) (y : A) : In y (firstn k l) -> In y l.
Proof.
  intros H. rewrite <- (firstn_skipn k l). apply in_or_app. left. exact H.
Qed.

Lemma firstn_sorted (k : nat) (l : list candidate) :
  StronglySorted le_key l -> StronglySorted le_key (firstn k l).
Proof.
  intros H. revert k. induction H as [|x l Hs IH Hall]; intros [|k]; simpl;
    try constructor.
  - apply IH.
  - apply Forall_forall. intros y Hy.
    apply (proj1 (Forall_forall _ _) Hall). eapply in_firstn. exact Hy.
Qed.

(** Truncating before or after an insertion gives the same top-k. *)
Lemma firstn_insert (c : candidate) (k : nat) (l : list candidate) :
  firstn k (insert c (firstn k l)) = firstn k (insert c l).
Proof.
  revert k. induction l as [|x l IH]; intros k.
  - rewrite firstn_nil. reflexivity.
  - destruct k as [|k]; [reflexivity|].
    rewrite firstn_cons. cbn [insert].
    destruct (fst c <? fst x).
    + rewrite !firstn_cons. f_equal.
      destruct k as [|k]; [reflexivity|].
      rewrite !firstn_cons. f_equal.
      rewrite firstn_firstn. f_equal. lia.
    + rewrite !firstn_cons. f_equal. apply IH.
Qed.

(** The running bounded top-k is the truncation of the full sort. *)
Lemma run_is_truncated_sort (k : nat) (cs l : list candidate) :
  fold_left (push k) cs (firstn k l) = firstn k (sort_candidates cs l).
Proof.
  revert l. induction cs as [|c cs IH]; intros l; simpl; [reflexivity|].
  unfold push at 2. rewrite firstn_insert. apply IH.
Qed.

Lemma sort_candidates_perm (cs l : list candidate) :
  Permutation (sort_candidates cs l) (l ++ cs).
Proof.
  revert l. induction cs as [|c cs IH]; intros l; simpl.
  - rewrite app_nil_r. reflexivity.
  - rewrite IH, insert_perm. apply Permutation_middle.
Qed.

Lemma sort_candidates_sorted (cs l : list candidate) :
  StronglySorted le_key l -> StronglySorted le_key (sort_candidates cs l).
Proof.
  revert l. induction cs as [|c cs IH]; intros l H; simpl; [exact H|].
  apply IH, insert_sorted, H.
Qed.

(** Two sorted arrangements of candidates with pairwise distinct
    distances coincide. *)
Lemma sorted_unique (l1 : list candidate) :
  forall l2,
    StronglySorted le_key l1 -> StronglySorted le_key l2 ->
    Permutation l1 l2 -> NoDup (map fst l1) -> l1 = l2.
Proof.
  induction l1 as [|a l1 IH]; intros l2 H1 H2 HP Hnd.
  - apply Permutation_nil in HP. subst. reflexivity.
  - destruct l2 as [|b l2].
    { symmetry in HP. apply Permutation_nil in HP. discriminate. }
    inversion H1 as [|? ? Hs1 Hall1]; subst.
    inversion H2 as [|? ? Hs2 Hall2]; subst.
    inversion Hnd as [|? ? Hfresh Hnd']; subst.
    assert (Hab : a = b).
    { assert (Hb : In b (a :: l1))
        by (eapply Permutation_in; [symmetry; exact HP|left; reflexivity]).
      destruct Hb as [Hb|Hb]; [exact Hb|].
      assert (Ha : In a (b :: l2))
        by (eapply Permutation_in; [exact HP|left; reflexivity]).
      destruct Ha as [Ha|Ha]; [symmetry; exact Ha|].
      exfalso. apply Hfresh.
      pose proof (proj1 (Forall_forall _ _) Hall1 b Hb) as Hle1.
      pose proof (proj1 (Forall_forall _ _) Hall2 a Ha) as Hle2.
      unfold le_key in *.
      replace (fst a) with (fst b) by lia.
      apply in_map. exact Hb. }
    subst b. f_equal.
    apply IH; try assumption.
    eapply Permutation_cons_inv. exact HP.
Qed.

Lemma sorted_nth_le (h : list candidate) :
  StronglySorted le_key h ->
  forall i j x y, (i <= j)%nat ->
    nth_error h i = Some x -> nth_error h j = Some y -> fst x <= fst y.
Proof.
  induction 1 as [|a h Hs IH Hall]; intros i j x y Hij Hi Hj.
  - destruct i; discriminate.
  - destruct i as [|i], j as [|j]; simpl in Hi, Hj.
    + injection Hi as <-. injection Hj as <-. lia.
    + injection Hi as <-. apply nth_error_In in Hj.
      apply (proj1 (Forall_forall _ _) Hall y Hj).
    + lia.
    + apply (IH i j x y); [lia|assumption|assumption].
Qed.

(** An insertion can only lower the candidate held at a given rank. *)
Lemma insert_nth_le (c : candidate) (h : list candidate) :
  StronglySorted le_key h ->
  forall j y, nth_error h j = Some y ->
    exists x, nth_error (insert c h) j = Some x /\ fst x <= fst y.
Proof.
  induction 1 as [|a h Hs IH Hall]; intros j y Hj.
  - destruct j; discriminate.
  - assert (Hsorted : StronglySorted le_key (a :: h)) by (constructor; assumption).
    cbn [insert]. destruct (Z.ltb_spec (fst c) (fst a)).
    + destruct j as [|j].
      * simpl in Hj. injection Hj as <-. exists c. split; [reflexivity|lia].
      * change (nth_error (c :: a :: h) (S j)) with (nth_error (a :: h) j).
        destruct (nth_error (a :: h) j) as [x|] eqn:Hx.
        -- exists x. split; [reflexivity|].
           apply (sorted_nth_le (a :: h) Hsorted j (S j) x y); [lia|assumption|assumption].
        -- exfalso. apply nth_error_None in Hx.
           assert (Hsome : nth_error (a :: h) (S j) <> None) by congruence.
           apply nth_error_Some in Hsome. lia.
    + destruct j as [|j].
      * simpl in Hj. injection Hj as <-. exists a. split; [reflexivity|lia].
      * simpl in Hj. simpl. apply IH. exact Hj.
Qed.

(** A candidate not better than the one at rank [r] leaves the ranks
    [0 .. r] untouched. *)
Lemma insert_absorbed (u x : candidate) (l : list candidate) :
  StronglySorted le_key l ->
  forall r, nth_error l r = Some x -> fst x <= fst u ->
    firstn (S r) (insert u l) = firstn (S r) l /\
    nth_error (insert u l) r = Some x.
Proof.
  induction 1 as [|a l Hs IH Hall]; intros r Hr Hle.
  - destruct r; discriminate.
  - assert (Ha : fst a <= fst x).
    { destruct r as [|r]; cbn [nth_error] in Hr.
      - injection Hr as <-. lia.
      - apply nth_error_In in Hr.
        apply (proj1 (Forall_forall _ _) Hall x Hr). }
    cbn [insert]. rewrite (proj2 (Z.ltb_ge (fst u) (fst a))) by lia.
    destruct r as [|r]; cbn [nth_error] in *.
    + split; [reflexivity|exact Hr].
    + destruct (IH r Hr Hle) as [Hfirst Hnth].
      split; [|exact Hnth].
      change (firstn (S (S r)) (a :: insert u l)) with (a :: firstn (S r) (insert u l)).
      rewrite Hfirst. reflexivity.
Qed.

Lemma sort_absorbed (us : list candidate) :
  forall (l : list candidate) (r : nat) (x : candidate),
    StronglySorted le_key l ->
    nth_error l r = Some x ->
    Forall (fun u => fst x <= fst u) us ->
    firstn (S r) (sort_candidates us l) = firstn (S r) l.
Proof.
  induction us as [|u us IH]; intros l r x Hs Hr Hall; [reflexivity|].
  inversion Hall as [|? ? Hu Hrest]; subst.
  destruct (insert_absorbed u x l Hs r Hr Hu) as [Hfirst Hnth].
  cbn [sort_candidates fold_left].
  change (fold_left (fun sorted c => insert c sorted) us (insert u l))
    with (sort_candidates us (insert u l)).
  rewrite (IH (insert u l) r x (insert_sorted u l Hs) Hnth Hrest).
  exact Hfirst.
Qed.
End TopK.

Section KnnScan.
Import BallCover.
Variable Point : Type.
Variable dfunc : Point -> Point -> Z.
Variable index : BallCoverIndex Point.
Variable query : Point.
Variable k : nat.

Local Abbreviation consistent_st := (consistent Point dfunc index query k).
Local Abbreviation ruled_out_st := (ruled_out Point dfunc index query k).
Local Abbreviation stream := (candidates_of Point dfunc index query).

Lemma push_sorted (h : list candidate) (c : candidate) :
  StronglySorted le_key h -> StronglySorted le_key (push k h c).
Proof. intros H. unfold push. apply firstn_sorted, insert_sorted, H. Qed.

Lemma push_length (h : list candidate) (c : candidate) :
  (length (push k h c) <= k)%nat.
Proof. unfold push. rewrite length_firstn. lia. Qed.

Lemma kth_push (h : list candidate) (c : candidate) (best : Z) :
  StronglySorted le_key h -> (length h <= k)%nat ->
  kth_best k h = Some best ->
  exists best', kth_best k (push k h c) = Some best' /\ best' <= best.
Proof.
  intros Hs Hlen Hk. unfold kth_best in *.
  destruct (nth_error h (k - 1)) as [y|] eqn:Hy; [|discriminate].
  injection Hk as <-.
  assert (Hk1 : (1 <= k)%nat).
  { apply nth_error_In in Hy. destruct h; [contradiction|]. simpl in Hlen. lia. }
  destruct (insert_nth_le c h Hs (k - 1)%nat y Hy) as (x & Hx & Hle).
  exists (fst x). split; [|exact Hle].
  unfold push. rewrite nth_error_firstn.
  rewrite (proj2 (Nat.ltb_lt (k - 1) k)) by lia.
  rewrite Hx. reflexivity.
Qed.

Lemma kth_scan (cs : list candidate) :
  forall (h : list candidate) (best : Z),
    StronglySorted le_key h -> (length h <= k)%nat ->
    kth_best k h = Some best ->
    exists best', kth_best k (fold_left (push k) cs h) = Some best' /\ best' <= best.
Proof.
  induction cs as [|c cs IH]; intros h best Hs Hlen Hk; simpl.
  - exists best. split; [exact Hk|lia].
  - destruct (kth_push h c best Hs Hlen Hk) as (b1 & Hb1 & Hle1).
    destruct (IH (push k h c) b1 (push_sorted h c Hs) (push_length h c) Hb1)
      as (b2 & Hb2 & Hle2).
    exists b2. split; [exact Hb2|lia].
Qed.

Lemma run_from_nil (cs : list candidate) :
  fold_left (push k) cs [] = firstn k (sort_candidates cs []).
Proof.
  rewrite <- run_is_truncated_sort. rewrite firstn_nil. reflexivity.
Qed.

Lemma heap_shape (st : scan_state) :
  consistent_st st ->
  heap st = firstn k (sort_candidates (stream (rev (scanned st))) []) /\
  StronglySorted le_key (heap st) /\ (length (heap st) <= k)%nat.
Proof.
  intros (Hheap & _). rewrite Hheap, run_from_nil.
  split; [reflexivity|]. split.
  - apply firstn_sorted, sort_candidates_sorted. constructor.
  - rewrite length_firstn. lia.
Qed.

Lemma scan_and_mark_consistent (st : scan_state) (pid : nat) (p : partition Point) :
  consistent_st st -> nth_error index pid = Some p -> ~ In pid (scanned st) ->
  consistent_st (scan_and_mark Point dfunc k query pid p st).
Proof.
  intros (Hheap & Hnd & Hvalid) Hp Hfresh. split; [|split].
  - cbn [heap scanned scan_and_mark]. unfold scan_partition.
    rewrite Hheap. cbn [rev]. unfold candidates_of.
    rewrite flat_map_app, fold_left_app. cbn [flat_map].
    rewrite Hp, app_nil_r. reflexivity.
  - cbn [scanned scan_and_mark]. constructor; assumption.
  - cbn [scanned scan_and_mark]. constructor; [|exact Hvalid].
    apply nth_error_Some. congruence.
Qed.

Lemma scan_and_mark_ruled_out (st : scan_state) (pid pid' : nat) (p : partition Point) :
  consistent_st st -> ruled_out_st st pid' ->
  ruled_out_st (scan_and_mark Point dfunc k query pid p st) pid'.
Proof.
  intros Hc (p' & best & Hp' & Hk & Hle).
  destruct (heap_shape st Hc) as (_ & Hs & Hlen).
  destruct (kth_scan (candidates Point dfunc query p) (heap st) best Hs Hlen Hk)
    as (best' & Hk' & Hle').
  exists p', best'. repeat split; [exact Hp'|exact Hk'|lia].
Qed.

Lemma pass_one_consistent (weight_num weight_den : Z) (probe : list nat) :
  forall st,
    consistent_st st -> NoDup probe ->
    (forall pid, In pid probe -> ~ In pid (scanned st)) ->
    consistent_st
      (fold_left (pass_one_step Point dfunc index query k weight_num weight_den) probe st).
Proof.
  induction probe as [|pid rest IH]; intros st Hc Hnd Hfresh; [exact Hc|].
  inversion Hnd as [|? ? Hpid Hnd']; subst.
  cbn [fold_left]. apply IH; [|exact Hnd'|].
  - unfold pass_one_step. destruct (nth_error index pid) as [p|] eqn:Hp; [|exact Hc].
    destruct (exceeds_slack _ _ _ _); [exact Hc|].
    apply scan_and_mark_consistent; [exact Hc|exact Hp|].
    apply Hfresh. left. reflexivity.
  - intros pid' Hin. unfold pass_one_step.
    destruct (nth_error index pid) as [p|]; [|apply Hfresh; right; exact Hin].
    destruct (exceeds_slack _ _ _ _); [apply Hfresh; right; exact Hin|].
    cbn [scanned scan_and_mark]. intros [Heq|Hold].
    + subst pid'. contradiction.
    + revert Hold. apply Hfresh. right. exact Hin.
Qed.

Lemma pass_two_invariant (todo : list nat) :
  forall (st : scan_state) (seen : list nat),
    consistent_st st ->
    (forall pid, In pid seen -> (pid < length index)%nat ->
                 In pid (scanned st) \/ ruled_out_st st pid) ->
    let st' := fold_left (pass_two_step Point dfunc index query k) todo st in
    consistent_st st' /\
    (forall pid, In pid (seen ++ todo) -> (pid < length index)%nat ->
                 In pid (scanned st') \/ ruled_out_st st' pid).
Proof.
  induction todo as [|pid rest IH]; intros st seen Hc Hseen; cbn zeta.
  - rewrite app_nil_r. split; assumption.
  - cbn [fold_left].
    set (st1 := pass_two_step Point dfunc index query k st pid).
    assert (H1 : consistent_st st1 /\
                 forall pid', In pid' (seen ++ [pid]) -> (pid' < length index)%nat ->
                              In pid' (scanned st1) \/ ruled_out_st st1 pid').
    { subst st1. unfold pass_two_step.
      destruct (nth_error index pid) as [p|] eqn:Hp.
      - destruct (existsb (Nat.eqb pid) (scanned st)) eqn:Hmem.
        + split; [exact Hc|]. intros pid' Hin Hlt.
          apply in_app_or in Hin. destruct Hin as [Hin|[<-|[]]]; [auto|].
          left. apply existsb_exists in Hmem. destruct Hmem as (x & Hx & Heq).
          apply Nat.eqb_eq in Heq. subst x. exact Hx.
        + assert (Hfresh : ~ In pid (scanned st)).
          { intros Hin. apply Bool.not_true_iff_false in Hmem. apply Hmem.
            apply existsb_exists. exists pid. split; [exact Hin|apply Nat.eqb_refl]. }
          destruct (below_kth (lower_bound Point dfunc query p) (kth_best k (heap st)))
            eqn:Hbelow.
          * split; [apply scan_and_mark_consistent; assumption|].
            intros pid' Hin Hlt.
            apply in_app_or in Hin. destruct Hin as [Hin|[<-|[]]].
            -- destruct (Hseen pid' Hin Hlt) as [Hs|Hr].
               ++ left. right. exact Hs.
               ++ right. apply scan_and_mark_ruled_out; assumption.
            -- left. left. reflexivity.
          * split; [exact Hc|]. intros pid' Hin Hlt.
            apply in_app_or in Hin. destruct Hin as [Hin|[<-|[]]]; [auto|].
            right. unfold below_kth in Hbelow.
            destruct (kth_best k (heap st)) as [best|] eqn:Hk; [|discriminate].
            apply Z.ltb_ge in Hbelow.
            exists p, best. repeat split; assumption.
      - split; [exact Hc|]. intros pid' Hin Hlt.
        apply in_app_or in Hin. destruct Hin as [Hin|[<-|[]]]; [auto|].
        exfalso. apply nth_error_None in Hp. lia. }
    destruct H1 as [Hc1 Hseen1].
    destruct (IH st1 (seen ++ [pid]) Hc1 Hseen1) as [Hc' Hall].
    split; [exact Hc'|].
    intros pid' Hin. apply Hall. rewrite <- app_assoc. exact Hin.
Qed.
End KnnScan.

Section TopKCut.
Import BallCover.

Lemma filter_length_perm (f : candidate -> bool) (l1 l2 : list candidate) :
  Permutation l1 l2 -> length (filter f l1) = length (filter f l2).
Proof.
  induction 1 as [|x l1 l2 _ IH|x y l|l1 l2 l3 _ IH1 _ IH2]; cbn [filter].
  - reflexivity.
  - destruct (f x); cbn [length]; lia.
  - destruct (f x); destruct (f y); reflexivity.
  - lia.
Qed.

Lemma filter_all (f : candidate -> bool) (l : list candidate) :
  (forall x, In x l -> f x = true) -> filter f l = l.
Proof.
  induction l as [|x l IH]; intros H; cbn [filter]; [reflexivity|].
  rewrite (H x (or_introl eq_refl)). f_equal. apply IH. intros y Hy. apply H. right. exact Hy.
Qed.

Lemma filter_none (f : candidate -> bool) (l : list candidate) :
  (forall x, In x l -> f x = false) -> filter f l = [].
Proof.
  induction l as [|x l IH]; intros H; cbn [filter]; [reflexivity|].
  rewrite (H x (or_introl eq_refl)). apply IH. intros y Hy. apply H. right. exact Hy.
Qed.

Lemma filter_length_le (f : candidate -> bool) (l : list candidate) :
  (length (filter f l) <= length l)%nat.
Proof.
  induction l as [|x l IH]; cbn [filter length]; [lia|].
  destruct (f x); cbn [length]; lia.
Qed.

(** In a sorted list every element of a prefix is at most every element
    of the rest. *)
Lemma sorted_app_le (l1 l2 : list candidate) :
  StronglySorted le_key (l1 ++ l2) ->
  forall x y, In x l1 -> In y l2 -> fst x <= fst y.
Proof.
  induction l1 as [|a l1 IH]; intros Hs x y Hx Hy; [contradiction|].
  cbn [app] in Hs. inversion Hs as [|? ? Hs' Hall]; subst.
  destruct Hx as [<-|Hx].
  - apply (proj1 (Forall_forall _ _) Hall y). apply in_or_app. right. exact Hy.
  - apply (IH Hs' x y Hx Hy).
Qed.

(** Two sorted arrangements of the same candidates hold the same
    candidates before the position [k], provided that in one of them
    (and so in both) the candidates from the position [k] on are
    strictly farther than those before it. *)
Lemma cut_same_elements (k : nat) (l1 l2 : list candidate) :
  StronglySorted le_key l1 -> StronglySorted le_key l2 ->
  Permutation l1 l2 ->
  (forall a b, In a (firstn k l1) -> In b (skipn k l1) -> fst a < fst b) ->
  forall c, In c (firstn k l2) <-> In c (firstn k l1).
Proof.
  intros H1 H2 HP Hcut c.
  pose proof (firstn_skipn k l1) as E1. pose proof (firstn_skipn k l2) as E2.
  assert (Hlen1 : forall y, In y (skipn k l1) -> length (firstn k l1) = k).
  { intros y Hy. rewrite length_firstn.
    destruct (Nat.le_gt_cases (length l1) k) as [Hle|Hgt]; [|lia].
    rewrite skipn_all2 in Hy by exact Hle. contradiction. }
  assert (Hlen2 : forall y, In y (skipn k l2) -> length (firstn k l2) = k).
  { intros y Hy. rewrite length_firstn.
    destruct (Nat.le_gt_cases (length l2) k) as [Hle|Hgt]; [|lia].
    rewrite skipn_all2 in Hy by exact Hle. contradiction. }
  assert (Hk1 : (length (firstn k l1) <= k)%nat) by (rewrite length_firstn; lia).
  assert (Hk2 : (length (firstn k l2) <= k)%nat) by (rewrite length_firstn; lia).
  split; intros Hc.
  - (* c is among the first k of l2 *)
    assert (Hin1 : In c l1).
    { apply (Permutation_in c (Permutation_sym HP)). eapply in_firstn. exact Hc. }
    rewrite <- E1 in Hin1. apply in_app_or in Hin1.
    destruct Hin1 as [Hin1|Hin1]; [exact Hin1|exfalso].
    set (g := fun x : candidate => fst x <? fst c).
    pose proof (filter_length_perm g l1 l2 HP) as Hcount.
    (* at least k candidates of l1 are nearer than c *)
    assert (Hge : (k <= length (filter g l1))%nat).
    { rewrite <- E1, filter_app, length_app.
      rewrite (filter_all g (firstn k l1)).
      - rewrite (Hlen1 c Hin1). lia.
      - intros a Ha. apply Z.ltb_lt. apply (Hcut a c Ha Hin1). }
    (* fewer than k candidates of l2 are *)
    destruct (in_split c (firstn k l2) Hc) as (pre & post & Hsplit).
    assert (Hlt : (length (filter g l2) < k)%nat).
    { rewrite <- E2, Hsplit. rewrite <- E2, Hsplit in H2.
      rewrite <- app_assoc in *. cbn [app] in *.
      rewrite filter_app, length_app.
      rewrite (filter_none g (c :: post ++ skipn k l2)).
      - pose proof (filter_length_le g pre) as Hpre.
        assert (length (firstn k l2) = (length pre + S (length post))%nat)
          by (rewrite Hsplit, length_app; reflexivity).
        cbn [length]. lia.
      - intros y Hy. apply Z.ltb_ge.
        destruct Hy as [<-|Hy]; [lia|].
        apply (sorted_app_le (pre ++ [c]) (post ++ skipn k l2)).
        + rewrite <- app_assoc. exact H2.
        + apply in_or_app. right. left. reflexivity.
        + exact Hy. }
    lia.
  - (* c is among the first k of l1 *)
    assert (Hin2 : In c l2).
    { apply (Permutation_in c HP). eapply in_firstn. exact Hc. }
    rewrite <- E2 in Hin2. apply in_app_or in Hin2.
    destruct Hin2 as [Hin2|Hin2]; [exact Hin2|exfalso].
    set (f := fun x : candidate => fst x <=? fst c).
    pose proof (filter_length_perm f l1 l2 HP) as Hcount.
    (* at most k candidates of l1 are as near as c *)
    assert (Hle : (length (filter f l1) <= k)%nat).
    { rewrite <- E1, filter_app, length_app.
      rewrite (filter_none f (skipn k l1)).
      - pose proof (filter_length_le f (firstn k l1)). cbn [length]. lia.
      - intros b Hb. apply Z.leb_gt. apply (Hcut c b Hc Hb). }
    (* more than k candidates of l2 are *)
    assert (Hgt : (k < length (filter f l2))%nat).
    { rewrite <- E2, filter_app, length_app.
      rewrite (filter_all f (firstn k l2)).
      - rewrite (Hlen2 c Hin2).
        assert (In c (filter f (skipn k l2)))
          by (apply filter_In; split; [exact Hin2|apply Z.leb_le; lia]).
        destruct (filter f (skipn k l2)); [contradiction|]. cbn [length]. lia.
      - intros a Ha. apply Z.leb_le.
        apply (sorted_app_le (firstn k l2) (skipn k l2)); [rewrite E2; exact H2| |]; assumption. }
    lia.
Qed.
End TopKCut.

Section KnnExact.
Import BallCover.
Variable Point : Type.
Variable dfunc : Point -> Point -> Z.

Lemma brute_force_is_run (query : Point) (k : nat) (index : BallCoverIndex Point) :
  forall h,
    fold_left (fun h p => scan_partition Point dfunc k query p h) index h
    = fold_left (push k) (flat_map (candidates Point dfunc query) index) h.
Proof.
  induction index as [|p rest IH]; intros h; simpl; [reflexivity|].
  rewrite fold_left_app. apply IH.
Qed.

Lemma candidates_of_all (query : Point) (index : BallCoverIndex Point) :
  candidates_of Point dfunc index query (seq 0 (length index))
  = flat_map (candidates Point dfunc query) index.
Proof.
  unfold candidates_of. induction index as [|p rest IH]; [reflexivity|].
  cbn [length seq flat_map nth_error]. f_equal.
  rewrite <- seq_shift, !flat_map_concat_map, map_map.
  rewrite !flat_map_concat_map in IH. exact IH.
Qed.

Lemma scan_order_perm (n : nat) (order : list nat) :
  NoDup order -> Forall (fun pid => (pid < n)%nat) order ->
  Permutation (seq 0 n)
    (order ++ filter (fun pid => negb (existsb (Nat.eqb pid) order)) (seq 0 n)).
Proof.
  intros Hnd Hvalid.
  assert (Hmem : forall pid, existsb (Nat.eqb pid) order = true <-> In pid order).
  { intros pid. rewrite existsb_exists. split.
    - intros (x & Hx & Heq). apply Nat.eqb_eq in Heq. subst. exact Hx.
    - intros Hin. exists pid. split; [exact Hin|apply Nat.eqb_refl]. }
  apply NoDup_Permutation.
  - apply seq_NoDup.
  - apply NoDup_app; [exact Hnd|apply NoDup_filter, seq_NoDup|].
    intros pid Hin Hf. apply filter_In in Hf. destruct Hf as [_ Hf].
    apply negb_true_iff in Hf. apply Hmem in Hin. congruence.
  - intros pid. rewrite in_app_iff, filter_In, in_seq. split.
    + intros Hlt.
      destruct (existsb (Nat.eqb pid) order) eqn:He.
      * left. apply Hmem. exact He.
      * right. split; [exact Hlt|reflexivity].
    + intros [Hin|[Hlt _]]; [|exact Hlt].
      pose proof (proj1 (Forall_forall _ _) Hvalid pid Hin) as Hlt.
      cbv beta in Hlt. lia.
Qed.

(** For a distance that obeys the triangle inequality, the pass-two
    bound is a true lower bound for the members of a ball that does not
    contain the query. *)
Lemma lower_bound_outside_ball (query : Point) (p : partition Point) (m : Z * Point) :
  (forall a b c, dfunc a c <= dfunc a b + dfunc b c) ->
  (forall a b, dfunc a b = dfunc b a) ->
  dfunc (landmark Point p) (snd m) <= radius Point p ->
  radius Point p <= dfunc query (landmark Point p) ->
  lower_bound Point dfunc query p <= dfunc query (snd m).
Proof.
  intros Htri Hsym Hin Hout. unfold lower_bound.
  pose proof (Htri query (snd m) (landmark Point p)) as H.
  rewrite (Hsym (snd m) (landmark Point p)) in H.
  rewrite Z.abs_eq by lia. lia.
Qed.

End KnnExact.


Example scan_knn_balls_BC :
  BallCover.scan_knn Z Inputs.dist1 Inputs.balls_BC 30 1 [0%nat] 1 1 = [3] /\
  BallCover.scanned
    (BallCover.rbc_low_dim_pass_two Z Inputs.dist1 Inputs.balls_BC 30 1
       (BallCover.rbc_low_dim_pass_one Z Inputs.dist1 Inputs.balls_BC 30 1 [0%nat] 1 1))
  = [0%nat].
Proof. split; vm_compute; reflexivity. Qed.


(** A tie across the cut changes the identifiers although every bound
    is a true lower bound: the query 0 is at the distance 5 from the
    only point of the ball L and from the only point of the ball R.
    With R probed the scanner keeps the point of R (L is ruled out, its
    bound 5 not being below the best distance 5), while brute force,
    which meets L first, keeps the point of L. *)
Example scan_knn_tie_at_the_cut :
  BallCover.scan_knn Z Inputs.dist1 Inputs2.balls_LR 0 1 [1%nat] 1 1 = [1] /\
  BallCover.brute_force_knn Z Inputs.dist1 Inputs2.balls_LR 0 1 = [0] /\
  BallCover.lower_bound Z Inputs.dist1 0 Inputs2.ball_L = 5 /\
  Inputs.dist1 0 (-5) = 5 /\
  BallCover.sort_candidates
    (flat_map (BallCover.candidates Z Inputs.dist1 0) Inputs2.balls_LR) []
  = [(5, 0); (5, 1)].
Proof. repeat split; vm_compute; reflexivity. Qed.

(** A partition that occurs twice in the probe list is scanned twice
    by pass one, and its point fills two places of the top-k: with the
    ball at distance 1 probed twice and [k = 2] the output is the
    identifier 0 twice, and the point at distance 2, whose ball is
    rightly ruled out (bound 2, best distance 1), is missing. *)
Example scan_knn_repeated_probe :
  BallCover.scan_knn Z Inputs.dist1 Inputs2.balls_near_far 0 2 [0%nat; 0%nat] 1 1
  = [0; 0] /\
  BallCover.brute_force_knn Z Inputs.dist1 Inputs2.balls_near_far 0 2 = [0; 1] /\
  BallCover.lower_bound Z Inputs.dist1 0 Inputs2.ball_far = 2 /\
  Inputs.dist1 0 2 = 2.
Proof. repeat split; vm_compute; reflexivity. Qed.

Example rbc_eps_pass_balls_AB :
  BallCover.rbc_eps_pass Z Inputs.dist1 Inputs.balls_AB 15 14 [1%nat; 0%nat]
  = ([3; 2], 2%nat).
Proof. vm_compute. reflexivity. Qed.

(* ================================================================== *)
(** * Further properties of the code *)

(* ------------------------------------------------------------------ *)
(** ** find_chunk_ix against a linear walk *)

Section LinearWalk.
Variable size_of : Z -> Z.

(** The walk from the chunk [c0] stops after [k <= n] chunks, having
    subtracted their sizes; it stops inside a chunk unless it ran out
    of chunks. *)
Lemma locate_linear_stops (n : nat) :
  forall (c0 : nat) (s0 : Z),
    0 <= s0 ->
    exists k : nat,
      (k <= n)%nat /\
      IvfHost.locate_linear n size_of (Z.of_nat c0) s0
      = (Z.of_nat (c0 + k), s0 - (sum_upto size_of (c0 + k) - sum_upto size_of c0)) /\
      sum_upto size_of (c0 + k) - sum_upto size_of c0 <= s0 /\
      ((k < n)%nat ->
       s0 < sum_upto size_of (S (c0 + k)) - sum_upto size_of c0).
Proof.
  induction n as [|n IH]; intros c0 s0 Hs0.
  - exists 0%nat. rewrite Nat.add_0_r. cbn [IvfHost.locate_linear].
    split; [lia|]. split; [f_equal; lia|]. split; [lia|]. lia.
  - cbn [IvfHost.locate_linear].
    destruct (Z.ltb_spec s0 (size_of (Z.of_nat c0))).
    + exists 0%nat. rewrite Nat.add_0_r.
      split; [lia|]. split; [f_equal; lia|]. split; [lia|].
      intros _. cbn [sum_upto]. lia.
    + destruct (IH (S c0) (s0 - size_of (Z.of_nat c0)) ltac:(lia))
        as (k & Hk & Hrun & Hle & Hlt).
      exists (S k). replace (c0 + S k)%nat with (S c0 + k)%nat by lia.
      replace (Z.of_nat c0 + 1) with (Z.of_nat (S c0)) by lia.
      rewrite Hrun. cbn [sum_upto] in *.
      split; [lia|]. split; [f_equal; lia|]. split; [lia|].
      intros Hkn. specialize (Hlt ltac:(lia)). lia.
Qed.
End LinearWalk.

(** The binary search and the walk stop at the same chunk. *)
Lemma find_chunk_ix_walks :
  forall (cluster_sizes clusters_to_probe chunk_indices : array Z)
         (n_probes s : Z) (fuel : nat),
    let size_of := fun i => cluster_sizes (clusters_to_probe i) in
    1 <= n_probes <= two31 ->
    (forall i, 0 <= i < n_probes -> 0 <= size_of i) ->
    (forall n : nat, Z.of_nat n < n_probes ->
       chunk_indices (Z.of_nat n) = sum_upto size_of (S n)) ->
    0 <= s < two32 ->
    (32 <= fuel)%nat ->
    exists rd,
      Ivf.find_chunk_ix fuel s n_probes chunk_indices
      = Some (IvfHost.locate_linear (Z.to_nat n_probes) size_of 0 s, rd).
Proof.
  intros sizes probes tbl P s fuel size_of HP Hsz Htbl Hs Hfuel.
  destruct (find_chunk_ix_result tbl s P fuel HP Hfuel)
    as (c & rd & Hrun & Hc & _ & Hl & Hr).
  destruct (locate_linear_stops size_of (Z.to_nat P) 0 s ltac:(lia))
    as (k & Hk & Hwalk & Hle & Hlt).
  cbn [Nat.add] in Hwalk, Hle, Hlt. change (Z.of_nat 0) with 0 in Hwalk.
  change (sum_upto size_of 0) with 0 in Hwalk, Hle, Hlt.
  rewrite Z.sub_0_r in Hwalk, Hle, Hlt.
  assert (Hat : forall i, 0 <= i < P -> tbl i = sum_upto size_of (Z.to_nat (i + 1)))
    by (intros i Hi; apply (table_at size_of tbl P Htbl i Hi)).
  assert (Hmono : forall a b : nat, (a <= b)%nat -> Z.of_nat b <= P ->
                                   sum_upto size_of a <= sum_upto size_of b)
    by (intros a b Hab Hb; apply sum_upto_mono; [intros; apply Hsz; lia|exact Hab]).
  assert (Hck : c = Z.of_nat k).
  { destruct (Z.lt_trichotomy c (Z.of_nat k)) as [Hlt'|[Heq|Hgt]]; [|exact Heq|].
    - exfalso. destruct Hr as [->|Hr]; [lia|].
      rewrite Hat in Hr by lia.
      pose proof (Hmono (Z.to_nat (c + 1)) k ltac:(lia) ltac:(lia)). lia.
    - exfalso. destruct Hl as [->|Hl]; [lia|].
      rewrite Hat in Hl by lia.
      specialize (Hlt ltac:(lia)).
      pose proof (Hmono (S k) (Z.to_nat (c - 1 + 1)) ltac:(lia) ltac:(lia)).
      lia. }
  rewrite Hrun, Hwalk. subst c.
  destruct (0 <? Z.of_nat k) eqn:Hpos.
  - apply Z.ltb_lt in Hpos. exists rd. do 3 f_equal.
    rewrite Hat by lia.
    replace (Z.to_nat (Z.of_nat k - 1 + 1)) with k by lia.
    apply wrap32_small. pose proof (sum_upto_nonneg size_of k ltac:(intros; apply Hsz; lia)).
    unfold two32 in *. lia.
  - apply Z.ltb_ge in Hpos. assert (k = 0%nat) by lia. subst k.
    exists rd. cbn [sum_upto]. do 3 f_equal. lia.
Qed.

(** X1.  On a table that holds the inclusive prefix sums of the probed
    sizes, the binary search of [find_chunk_ix] returns, for every
    offset [s] (inside or beyond the probed samples), the chunk and the
    local offset at which a walk through the chunks one by one stops. *)
Theorem find_chunk_ix_is_linear_walk :
  forall (cluster_sizes clusters_to_probe chunk_indices : array Z)
         (n_probes s : Z) (fuel : nat),
    let size_of := fun i => cluster_sizes (clusters_to_probe i) in
    1 <= n_probes <= two31 ->
    (forall i, 0 <= i < n_probes -> 0 <= size_of i) ->
    (forall n : nat, Z.of_nat n < n_probes ->
       chunk_indices (Z.of_nat n) = sum_upto size_of (S n)) ->
    0 <= s < two32 ->
    (32 <= fuel)%nat ->
    exists rd,
      Ivf.find_chunk_ix fuel s n_probes chunk_indices
      = Some (IvfHost.locate_linear (Z.to_nat n_probes) size_of 0 s, rd).
Proof.
  intros sizes probes tbl P s fuel size_of.
  exact (find_chunk_ix_walks sizes probes tbl P s fuel).
Qed.

Lemma find_chunk_ix_is_linear_walk_witness :
  exists rd,
    Ivf.find_chunk_ix 32 4 3 Inputs.table352
    = Some (IvfHost.locate_linear (Z.to_nat 3)
              (fun i => Inputs.sizes352 (Inputs.probes012 i)) 0 4, rd).
Proof.
  apply (find_chunk_ix_is_linear_walk Inputs.sizes352 Inputs.probes012
           Inputs.table352 3 4 32).
  - unfold two31; lia.
  - intros i Hi.
    assert (Hcases : i = 0 \/ i = 1 \/ i = 2) by lia.
    destruct Hcases as [-> | [-> | ->]]; vm_compute; discriminate.
  - intros n Hn. destruct n as [|[|[|n]]]; try reflexivity. lia.
  - unfold two32; lia.
  - apply le_n.
Defined.

(** The reads made by the loop: at most one per trip. *)
Lemma find_chunk_ix_loop_reads (chunk_indices : array Z) (sample_ix : Z) (fuel : nat) :
  forall (lo hi : Z) (rd : list Z) (c : Z) (rd' : list Z),
    Ivf.find_chunk_ix_loop fuel chunk_indices sample_ix lo hi rd = Some (c, rd') ->
    (length rd' <= length rd + fuel)%nat.
Proof.
  induction fuel as [|f IH]; intros lo hi rd c rd' Hrun; [discriminate|].
  cbn [Ivf.find_chunk_ix_loop] in Hrun.
  match type of Hrun with
  | (if ?g then _ else _) = _ => destruct g
  end.
  - apply IH in Hrun. cbn [length] in Hrun. lia.
  - injection Hrun as <- <-. cbn [length]. lia.
Qed.

(** X2.  The search is logarithmic: on a table of [n_probes < 2^f]
    entries the loop ends within [f] trips, and the call reads the table
    at most [f + 1] times. *)
Theorem find_chunk_ix_logarithmic :
  forall (chunk_indices : array Z) (sample_ix n_probes : Z) (f : nat),
    1 <= n_probes <= two31 ->
    n_probes < 2 ^ Z.of_nat f ->
    exists c local rd,
      Ivf.find_chunk_ix f sample_ix n_probes chunk_indices = Some (c, local, rd) /\
      (length rd <= f + 1)%nat.
Proof.
  intros tbl s P f HP Hf.
  destruct (find_chunk_ix_loop_window tbl s f 0 P []) as (c & rd & Hrun & _);
    try lia.
  pose proof (find_chunk_ix_loop_reads tbl s f 0 P [] c rd Hrun) as Hlen.
  cbn [length] in Hlen.
  unfold Ivf.find_chunk_ix. rewrite Hrun.
  destruct (0 <? c).
  - do 3 eexists. split; [reflexivity|]. cbn [length]. lia.
  - do 3 eexists. split; [reflexivity|]. lia.
Qed.

Lemma find_chunk_ix_logarithmic_witness :
  exists c local rd,
    Ivf.find_chunk_ix 2 4 3 Inputs.table352 = Some (c, local, rd) /\
    (length rd <= 2 + 1)%nat.
Proof.
  apply (find_chunk_ix_logarithmic Inputs.table352 4 3 2).
  - unfold two31; lia.
  - simpl; lia.
Defined.

(* ------------------------------------------------------------------ *)
(** ** calc_chunk_indices::configure: the choice of the block size *)

Lemma try_block_dim_step (WarpSize : Z) (depth : nat) (BlockDim n_probes n_queries : Z) :
  IvfHost.try_block_dim WarpSize (S depth) BlockDim n_probes n_queries
  = if (WarpSize * 2 <=? BlockDim) && (wrap32 (n_probes * 2) <=? BlockDim)
    then IvfHost.try_block_dim WarpSize depth (BlockDim / 2) n_probes n_queries
    else Some {| IvfHost.kernel := BlockDim; IvfHost.block_dim := (BlockDim, 1, 1);
                 IvfHost.grid_dim := (n_queries, 1, 1);
                 IvfHost.n_probes := n_probes |}.
Proof. reflexivity. Qed.

(** The descent from 1024 with a warp of 32 threads, by the number of
    probes. *)
Lemma configure_descent (n_probes n_queries : Z) :
  0 <= n_probes < two31 ->
  IvfHost.configure 32 n_probes n_queries
  = Some {| IvfHost.kernel :=
              if n_probes <=? 32 then 32 else if n_probes <=? 64 then 64
              else if n_probes <=? 128 then 128 else if n_probes <=? 256 then 256
              else if n_probes <=? 512 then 512 else 1024;
            IvfHost.block_dim :=
              (if n_probes <=? 32 then 32 else if n_probes <=? 64 then 64
               else if n_probes <=? 128 then 128 else if n_probes <=? 256 then 256
               else if n_probes <=? 512 then 512 else 1024, 1, 1);
            IvfHost.grid_dim := (n_queries, 1, 1);
            IvfHost.n_probes := n_probes |}.
Proof.
  intros HP. unfold IvfHost.configure.
  assert (Hw : wrap32 (n_probes * 2) = n_probes * 2)
    by (apply wrap32_small; unfold two31, two32 in *; lia).
  do 6 (rewrite try_block_dim_step, Hw;
        match goal with
        | |- context [(32 * 2 <=? ?b) && _] =>
            let c := eval vm_compute in (32 * 2 <=? b) in
            change (32 * 2 <=? b) with c; cbn [andb];
            let h := eval vm_compute in (b / 2) in
            try change (b / 2) with h;
            try (destruct (Z.leb_spec (n_probes * 2) b))
        end;
        [|repeat match goal with
                 | |- context [n_probes <=? ?b] =>
                     destruct (Z.leb_spec n_probes b); try lia
                 end; reflexivity]);
  repeat match goal with
         | |- context [n_probes <=? ?b] => destruct (Z.leb_spec n_probes b); try lia
         end; reflexivity.
Qed.

(** X3.  [configure] always picks a kernel: with warps of 32 threads
    the block size is a power of two between 32 and 1024, the block is
    one-dimensional and the grid has one block per query.  The size is
    the least such power of two that holds all probes of a query (1024
    when none does). *)
Theorem configure_picks_block_size :
  forall n_probes n_queries : Z,
    0 <= n_probes < two31 ->
    exists B j,
      IvfHost.configure 32 n_probes n_queries
      = Some {| IvfHost.kernel := B; IvfHost.block_dim := (B, 1, 1);
                IvfHost.grid_dim := (n_queries, 1, 1);
                IvfHost.n_probes := n_probes |} /\
      B = 2 ^ j /\ 5 <= j <= 10 /\
      (n_probes <= B \/ B = 1024) /\
      (B < 2 * n_probes \/ B = 32).
Proof.
  intros P nq HP. rewrite (configure_descent P nq HP).
  destruct (Z.leb_spec P 32); [exists 32, 5; repeat split; lia|].
  destruct (Z.leb_spec P 64); [exists 64, 6; repeat split; lia|].
  destruct (Z.leb_spec P 128); [exists 128, 7; repeat split; lia|].
  destruct (Z.leb_spec P 256); [exists 256, 8; repeat split; lia|].
  destruct (Z.leb_spec P 512); [exists 512, 9; repeat split; lia|].
  exists 1024, 10; repeat split; lia.
Qed.

Lemma configure_picks_block_size_witness :
  exists B j,
    IvfHost.configure 32 100 7
    = Some {| IvfHost.kernel := B; IvfHost.block_dim := (B, 1, 1);
              IvfHost.grid_dim := (7, 1, 1);
              IvfHost.n_probes := 100 |} /\
    B = 2 ^ j /\ 5 <= j <= 10 /\
    (100 <= B \/ B = 1024) /\
    (B < 2 * 100 \/ B = 32).
Proof.
  apply (configure_picks_block_size 100 7). unfold two31. lia.
Defined.

(* ------------------------------------------------------------------ *)
(** ** calc_chunk_indices: one block, and the whole grid *)

(** What one block leaves behind, in 32-bit arithmetic and without any
    bound on the sums. *)
Lemma calc_chunk_indices_kernel_block
    (BlockDim : Z) (roundUp : Z -> Z) (fuel : nat) (blockIdx_x n_probes : Z)
    (cluster_sizes clusters_to_probe chunk_indices n_samples : array Z) :
  let row := wrap32 (n_probes * blockIdx_x) in
  let size_of := fun i => cluster_sizes (clusters_to_probe (row + i)) in
  0 < BlockDim ->
  0 <= n_probes ->
  n_probes <= roundUp n_probes < two32 ->
  roundUp n_probes mod BlockDim = 0 ->
  (Z.to_nat (roundUp n_probes / BlockDim) < fuel)%nat ->
  exists chunk_indices' n_samples',
    Ivf.calc_chunk_indices_kernel BlockDim roundUp fuel blockIdx_x n_probes
      cluster_sizes clusters_to_probe chunk_indices n_samples
    = Some (chunk_indices', n_samples') /\
    (forall i, 0 <= i < n_probes ->
       chunk_indices' (row + i) = wrap32 (sum_upto size_of (Z.to_nat (i + 1)))) /\
    (forall a, ~ (row <= a < row + n_probes) -> chunk_indices' a = chunk_indices a) /\
    n_samples' blockIdx_x = wrap32 (sum_upto size_of (Z.to_nat n_probes)) /\
    (forall q, q <> blockIdx_x -> n_samples' q = n_samples q).
Proof.
  intros row size_of HB HP Hup Hmul Hfuel.
  set (aligned := roundUp n_probes) in *.
  assert (Hal : aligned = Z.of_nat 0 + Z.of_nat (Z.to_nat (aligned / BlockDim)) * BlockDim).
  { pose proof (Z.div_mod aligned BlockDim ltac:(lia)) as Hdm.
    assert (0 <= aligned / BlockDim) by (apply Z.div_pos; lia).
    rewrite Z2Nat.id by lia. lia. }
  destruct (block_scan_loop_runs BlockDim n_probes cluster_sizes
              (shift clusters_to_probe row) HB
              (Z.to_nat (aligned / BlockDim)) fuel 0 aligned (shift chunk_indices row)
              Hal (proj2 Hup) Hfuel) as (mem' & Hrun & Hmem').
  assert (Hpre : forall n : nat,
            Ivf.running_sum32 n_probes cluster_sizes (shift clusters_to_probe row) n
            = wrap32 (sum_upto size_of (Nat.min n (Z.to_nat n_probes)))).
  { intros n. unfold Ivf.running_sum32. rewrite sum_upto_padded by exact HP.
    reflexivity. }
  unfold Ivf.calc_chunk_indices_kernel. fold row. fold aligned.
  change (Z.of_nat 0) with 0 in Hrun.
  change (Ivf.running_sum32 n_probes cluster_sizes (shift clusters_to_probe row) 0)
    with 0 in Hrun.
  rewrite Hrun. rewrite Hpre.
  replace (Nat.min (Z.to_nat aligned) (Z.to_nat n_probes)) with (Z.to_nat n_probes) by lia.
  eexists _, _. split; [reflexivity|].
  split; [|split; [|split]].
  - intros i Hi. rewrite (proj2 (Z.leb_le row (row + i))) by lia.
    replace (row + i - row) with i by lia. rewrite Hmem'.
    change (Z.of_nat 0) with 0.
    rewrite (proj2 (Z.leb_le 0 i)) by lia.
    rewrite (proj2 (Z.ltb_lt i aligned)) by lia.
    rewrite (proj2 (Z.ltb_lt i n_probes)) by lia.
    cbn [andb]. rewrite Hpre. do 2 f_equal. lia.
  - intros a Ha. destruct (Z.leb_spec row a); [|reflexivity].
    rewrite Hmem'. change (Z.of_nat 0) with 0.
    destruct (Z.leb_spec 0 (a - row)); destruct (Z.ltb_spec (a - row) aligned);
      destruct (Z.ltb_spec (a - row) n_probes); cbn [andb];
      first [unfold shift; f_equal; lia | lia].
  - unfold store. rewrite Z.eqb_refl. reflexivity.
  - intros q Hq. unfold store. rewrite (proj2 (Z.eqb_neq q blockIdx_x) Hq). reflexivity.
Qed.

(** X4.  For a block whose row offset [n_probes * blockIdx_x] is below
    [2^32], and whatever the probed sizes add up to, the kernel leaves
    at the position [i] of the query's row the sum of the sizes of the
    probes [0..i] reduced modulo [2^32], and in [n_samples] the sum of
    all of them modulo [2^32]: an overflow of the running sum wraps
    around, it neither stops the scan nor disturbs another cell. *)
Theorem calc_chunk_indices_kernel_is_modular :
  forall (BlockDim : Z) (roundUp : Z -> Z) (fuel : nat) (blockIdx_x n_probes : Z)
         (cluster_sizes clusters_to_probe chunk_indices n_samples : array Z),
    let row := n_probes * blockIdx_x in
    let size_of := fun i => cluster_sizes (clusters_to_probe (row + i)) in
    0 < BlockDim ->
    0 <= n_probes ->
    0 <= blockIdx_x ->
    n_probes * blockIdx_x < two32 ->
    n_probes <= roundUp n_probes < two32 ->
    roundUp n_probes mod BlockDim = 0 ->
    (Z.to_nat (roundUp n_probes / BlockDim) < fuel)%nat ->
    exists chunk_indices' n_samples',
      Ivf.calc_chunk_indices_kernel BlockDim roundUp fuel blockIdx_x n_probes
        cluster_sizes clusters_to_probe chunk_indices n_samples
      = Some (chunk_indices', n_samples') /\
      (forall i, 0 <= i < n_probes ->
         chunk_indices' (row + i) = sum_upto size_of (Z.to_nat (i + 1)) mod two32) /\
      (forall a, ~ (row <= a < row + n_probes) -> chunk_indices' a = chunk_indices a) /\
      n_samples' blockIdx_x = sum_upto size_of (Z.to_nat n_probes) mod two32 /\
      (forall q, q <> blockIdx_x -> n_samples' q = n_samples q).
Proof.
  intros BlockDim roundUp fuel bx P sizes probes ci ns row size_of
    HB HP Hbx Hrow Hup Hmul Hfuel.
  pose proof (calc_chunk_indices_kernel_block BlockDim roundUp fuel bx P sizes probes ci ns
                HB HP Hup Hmul Hfuel) as H.
  cbn zeta in H.
  rewrite (wrap32_small (P * bx)) in H by (split; [nia|exact Hrow]).
  exact H.
Qed.

(** Sizes [2^32 - 1] and 1: the row is [2^32 - 1], 0 and the total 0. *)
Lemma calc_chunk_indices_kernel_is_modular_witness :
  exists chunk_indices' n_samples',
    Ivf.calc_chunk_indices_kernel 32 Inputs.roundUp_32 2 0 2
      Inputs.huge_sizes Inputs.probes01 Inputs.zeros Inputs.zeros
    = Some (chunk_indices', n_samples') /\
    chunk_indices' 0 = 4294967295 /\ chunk_indices' 1 = 0 /\ n_samples' 0 = 0.
Proof.
  destruct (calc_chunk_indices_kernel_is_modular 32 Inputs.roundUp_32 2 0 2
              Inputs.huge_sizes Inputs.probes01 Inputs.zeros Inputs.zeros)
    as (ci & ns & Hrun & Hcells & _ & Hns & _).
  - lia.
  - lia.
  - lia.
  - reflexivity.
  - vm_compute. split; [discriminate|reflexivity].
  - reflexivity.
  - vm_compute. apply le_n.
  - exists ci, ns. split; [exact Hrun|].
    pose proof (Hcells 0 ltac:(lia)) as H0.
    pose proof (Hcells 1 ltac:(lia)) as H1.
    split; [exact H0|]. split; [exact H1|]. exact Hns.
Defined.

(** A launch keeps an invariant that every block (or thread)
    re-establishes for its successor. *)
Lemma launch_invariant {St : Type} (Inv : Z -> St -> Prop) (run : Z -> St -> option St) :
  forall (n : nat) (out : St),
    Inv 0 out ->
    (forall j o, 0 <= j < Z.of_nat n -> Inv j o ->
       exists o', run j o = Some o' /\ Inv (j + 1) o') ->
    exists o', IvfHost.launch (Z.of_nat n) run out = Some o' /\ Inv (Z.of_nat n) o'.
Proof.
  induction n as [|n IH]; intros out H0 Hstep.
  - exists out. split; [reflexivity|exact H0].
  - destruct (IH out H0) as (o & Hrun & Hinv).
    { intros j o' Hj. apply Hstep. lia. }
    destruct (Hstep (Z.of_nat n) o ltac:(lia) Hinv) as (o' & Hrun' & Hinv').
    exists o'. split.
    + unfold IvfHost.launch in *. rewrite Nat2Z.id in *.
      rewrite seq_S, fold_left_app. cbn [fold_left Nat.add]. rewrite Hrun. exact Hrun'.
    + replace (Z.of_nat (S n)) with (Z.of_nat n + 1) by lia. exact Hinv'.
Qed.

(** The launch of a configured kernel over a grid of [n_queries]
    blocks. *)
Lemma configured_call_grid
    (roundUp : Z -> Z) (fuel : nat) (cfg : IvfHost.configured) (n_queries : Z)
    (cluster_sizes clusters_to_probe chunk_indices n_samples : array Z) :
  let P := IvfHost.n_probes cfg in
  let size_of := fun q j => cluster_sizes (clusters_to_probe (P * q + j)) in
  0 < IvfHost.kernel cfg ->
  IvfHost.grid_dim cfg = (n_queries, 1, 1) ->
  0 <= P -> 0 <= n_queries -> P * n_queries <= two32 ->
  P <= roundUp P < two32 ->
  roundUp P mod IvfHost.kernel cfg = 0 ->
  (Z.to_nat (roundUp P / IvfHost.kernel cfg) < fuel)%nat ->
  exists chunk_indices' n_samples',
    IvfHost.configured_call roundUp fuel cfg
      cluster_sizes clusters_to_probe chunk_indices n_samples
    = Some (chunk_indices', n_samples') /\
    (forall q i, 0 <= q < n_queries -> 0 <= i < P ->
       chunk_indices' (P * q + i) = wrap32 (sum_upto (size_of q) (Z.to_nat (i + 1)))) /\
    (forall q, 0 <= q < n_queries ->
       n_samples' q = wrap32 (sum_upto (size_of q) (Z.to_nat P))) /\
    (forall a, ~ (0 <= a < P * n_queries) -> chunk_indices' a = chunk_indices a) /\
    (forall q, ~ (0 <= q < n_queries) -> n_samples' q = n_samples q).
Proof.
  intros P size_of HB Hgrid HP Hnq Hfit Hup Hmul Hfuel.
  unfold IvfHost.configured_call. rewrite Hgrid. cbn [fst]. fold P.
  set (Inv := fun (b : Z) (o : array Z * array Z) =>
                (forall q i, 0 <= q < b -> 0 <= i < P ->
                   fst o (P * q + i) = wrap32 (sum_upto (size_of q) (Z.to_nat (i + 1)))) /\
                (forall q, 0 <= q < b ->
                   snd o q = wrap32 (sum_upto (size_of q) (Z.to_nat P))) /\
                (forall a, ~ (0 <= a < P * b) -> fst o a = chunk_indices a) /\
                (forall q, ~ (0 <= q < b) -> snd o q = n_samples q)).
  destruct (launch_invariant Inv
              (fun b out =>
                 Ivf.calc_chunk_indices_kernel (IvfHost.kernel cfg) roundUp fuel b P
                   cluster_sizes clusters_to_probe (fst out) (snd out))
              (Z.to_nat n_queries) (chunk_indices, n_samples))
    as ([ci ns] & Hrun & Hinv).
  - unfold Inv. cbn [fst snd]. repeat split; intros; try lia; reflexivity.
  - intros b [ci ns] Hb (Hcells & Htot & Hframe & Hns). cbn [fst snd] in *.
    assert (Hrow : wrap32 (P * b) = P * b).
    { apply wrap32_small. split; [nia|].
      destruct (Z.eq_dec P 0) as [->|]; [unfold two32; lia|]. nia. }
    destruct (calc_chunk_indices_kernel_block (IvfHost.kernel cfg) roundUp fuel b P
                cluster_sizes clusters_to_probe ci ns HB HP Hup Hmul Hfuel)
      as (ci' & ns' & Hk & Hc' & Hf' & Ht' & Hn').
    rewrite Hrow in Hc', Hf', Ht'.
    exists (ci', ns'). split; [exact Hk|].
    unfold Inv. cbn [fst snd]. split; [|split; [|split]].
    + intros q i Hq Hi. destruct (Z.eq_dec q b) as [->|Hne].
      * apply Hc'. exact Hi.
      * rewrite Hf' by nia. apply Hcells; lia.
    + intros q Hq. destruct (Z.eq_dec q b) as [->|Hne].
      * exact Ht'.
      * rewrite Hn' by exact Hne. apply Htot. lia.
    + intros a Ha. rewrite Hf' by nia. apply Hframe. nia.
    + intros q Hq. rewrite Hn' by lia. apply Hns. lia.
  - rewrite Z2Nat.id in Hrun, Hinv by lia.
    exists ci, ns. split; [exact Hrun|]. exact Hinv.
Qed.



(* ------------------------------------------------------------------ *)
(** ** postprocess_neighbors: the launch over all output slots *)

Section PostprocessNeighborsLaunch.
Variable IdxT1 : Ivf.int_type.
Variable neighbors_in : array Z.
Variable db_indices : array (array Z).
Variable cluster_sizes clusters_to_probe chunk_indices : array Z.
Variable n_queries n_probes topk : Z.

Local Abbreviation size_of := (fun q j => cluster_sizes (clusters_to_probe (q * n_probes + j))).

(** The identifier that belongs into the slot [a]. *)
Local Abbreviation resolved :=
  (fun a =>
     let q := a / topk in
     let (c, l) := IvfHost.locate_linear (Z.to_nat n_probes) (size_of q) 0
                     (wrap32 (neighbors_in a)) in
     if c <? n_probes then db_indices (clusters_to_probe (q * n_probes + c)) l
     else Ivf.kOutOfBoundsRecord IdxT1).

Hypothesis probes_fit : 1 <= n_probes <= two31.
Hypothesis topk_pos : 0 < topk.
Hypothesis slots_fit : n_queries * topk <= two32.
Hypothesis rows_fit : n_queries * n_probes <= two32.
Hypothesis sizes_nonneg :
  forall q j, 0 <= q < n_queries -> 0 <= j < n_probes -> 0 <= size_of q j.
Hypothesis table_is_scan :
  forall q (n : nat), 0 <= q < n_queries -> Z.of_nat n < n_probes ->
    chunk_indices (q * n_probes + Z.of_nat n) = sum_upto (size_of q) (S n).

(** The thread with the linear index [i = threadIdx_x + BlockDim *
    blockIdx_x] serves the slot [i], if there is one. *)
Lemma postprocess_neighbors_kernel_thread
    (fuel : nat) (BlockDim threadIdx_x blockIdx_x : Z) (neighbors_out : array Z) :
  let i := threadIdx_x + BlockDim * blockIdx_x in
  0 <= i < two32 ->
  (32 <= fuel)%nat ->
  Ivf.postprocess_neighbors_kernel fuel BlockDim threadIdx_x blockIdx_x IdxT1
    neighbors_out neighbors_in db_indices clusters_to_probe chunk_indices
    n_queries n_probes topk
  = Some (if i <? n_queries * topk then store neighbors_out i (resolved i)
          else neighbors_out).
Proof.
  intros i Hi Hfuel. unfold Ivf.postprocess_neighbors_kernel. fold i.
  assert (Hw : wrap64 i = i)
    by (unfold wrap64; apply Z.mod_small; unfold two32, two64 in *; lia).
  rewrite Hw.
  pose proof (Z.div_mod i topk ltac:(lia)) as Hdm.
  pose proof (Z.mod_pos_bound i topk topk_pos) as Hmod.
  assert (Hq0 : 0 <= i / topk) by (apply Z.div_pos; lia).
  assert (Hqi : i / topk <= i) by nia.
  rewrite (wrap32_small (i / topk)) by lia.
  destruct (Z.leb_spec n_queries (i / topk)) as [Hout|Hin].
  - rewrite (proj2 (Z.ltb_ge i (n_queries * topk))) by nia. reflexivity.
  - rewrite (proj2 (Z.ltb_lt i (n_queries * topk))) by nia.
    set (q := i / topk) in *.
    rewrite (wrap32_small (i mod topk)) by lia.
    rewrite (wrap32_small (q * topk)) by nia.
    rewrite (wrap32_small (q * n_probes)) by nia.
    unfold shift at 1.
    replace (q * topk + i mod topk) with i by lia.
    destruct (find_chunk_ix_walks cluster_sizes (shift clusters_to_probe (q * n_probes))
                (shift chunk_indices (q * n_probes)) n_probes
                (wrap32 (neighbors_in i)) fuel probes_fit) as (rd & Hrun).
    + intros j Hj. unfold shift. apply sizes_nonneg; lia.
    + intros n Hn. unfold shift. apply table_is_scan; lia.
    + apply wrap32_range.
    + exact Hfuel.
    + rewrite Hrun. unfold shift.
      destruct (IvfHost.locate_linear (Z.to_nat n_probes)
                  (fun i0 => cluster_sizes (clusters_to_probe (q * n_probes + i0))) 0
                  (wrap32 (neighbors_in i))) as [c l].
      reflexivity.
Qed.

(** All threads of the grid: after the threads with a linear index
    below [m] the slots below [m] are resolved. *)
Lemma postprocess_neighbors_grid
    (div_rounding_up_unsafe : Z -> Z -> Z) (fuel : nat) (neighbors_out : array Z) :
  n_queries * topk <= two32 - 256 ->
  0 <= n_queries ->
  div_rounding_up_unsafe (n_queries * topk) 256 = (n_queries * topk + 255) / 256 ->
  (32 <= fuel)%nat ->
  exists out',
    IvfHost.postprocess_neighbors div_rounding_up_unsafe fuel IdxT1
      neighbors_out neighbors_in db_indices clusters_to_probe chunk_indices
      n_queries n_probes topk = Some out' /\
    forall a, out' a = if (0 <=? a) && (a <? n_queries * topk) then resolved a
                       else neighbors_out a.
Proof.
  intros Hfit Hnq Hdiv Hfuel.
  set (N := n_queries * topk) in *.
  assert (HN : 0 <= N) by (unfold N; nia).
  set (pn := (N + 255) / 256).
  assert (Hpn : 256 * pn <= N + 255 /\ N <= 256 * pn).
  { pose proof (Z.div_mod (N + 255) 256 ltac:(lia)) as Hdm.
    pose proof (Z.mod_pos_bound (N + 255) 256 ltac:(lia)). fold pn in Hdm. lia. }
  unfold IvfHost.postprocess_neighbors. fold N.
  change IvfHost.kPNThreads with 256.
  rewrite (wrap32_small N) by (unfold two32 in *; lia).
  rewrite Hdiv. fold pn.
  assert (Hint : IvfHost.to_int pn = pn).
  { unfold IvfHost.to_int. rewrite wrap32_small by (unfold two32 in *; lia).
    rewrite (proj2 (Z.ltb_lt pn two31)) by (unfold two31, two32 in *; lia).
    reflexivity. }
  rewrite Hint.
  set (Inv := fun (m : Z) (o : array Z) =>
                forall a, o a = if (0 <=? a) && (a <? Z.min m N) then resolved a
                                else neighbors_out a).
  destruct (launch_invariant (fun b => Inv (256 * b))
              (fun blockIdx_x out =>
                 IvfHost.launch 256
                   (fun threadIdx_x out' =>
                      Ivf.postprocess_neighbors_kernel fuel 256
                        threadIdx_x blockIdx_x IdxT1 out' neighbors_in db_indices
                        clusters_to_probe chunk_indices n_queries n_probes topk)
                   out)
              (Z.to_nat pn) neighbors_out) as (out' & Hrun & Hinv).
  - intros a. destruct (Z.leb_spec 0 a); destruct (Z.ltb_spec a (Z.min (256 * 0) N));
      cbn [andb]; try reflexivity. lia.
  - intros b o Hb Ho.
    destruct (launch_invariant (fun t => Inv (256 * b + t))
                (fun threadIdx_x out' =>
                   Ivf.postprocess_neighbors_kernel fuel 256
                     threadIdx_x b IdxT1 out' neighbors_in db_indices
                     clusters_to_probe chunk_indices n_queries n_probes topk)
                256%nat o) as (o' & Hrun' & Hinv').
    + rewrite Z.add_0_r. exact Ho.
    + intros t ot Ht Hot.
      rewrite (postprocess_neighbors_kernel_thread fuel 256 t b ot)
        by (first [exact Hfuel | unfold two32 in *; lia]).
      eexists. split; [reflexivity|].
      fold N.
      intros a. specialize (Hot a). replace (t + 256 * b) with (256 * b + t) by lia.
      destruct (Z.ltb_spec (256 * b + t) N).
      * unfold store. destruct (Z.eqb_spec a (256 * b + t)) as [->|Hne].
        -- rewrite (proj2 (Z.leb_le 0 (256 * b + t))) by lia.
           rewrite (proj2 (Z.ltb_lt (256 * b + t) (Z.min (256 * b + (t + 1)) N))) by lia.
           reflexivity.
        -- rewrite Hot.
           destruct (Z.leb_spec 0 a); destruct (Z.ltb_spec a (Z.min (256 * b + t) N));
             destruct (Z.ltb_spec a (Z.min (256 * b + (t + 1)) N));
             cbn [andb]; try reflexivity; lia.
      * rewrite Hot.
        destruct (Z.leb_spec 0 a); destruct (Z.ltb_spec a (Z.min (256 * b + t) N));
          destruct (Z.ltb_spec a (Z.min (256 * b + (t + 1)) N));
          cbn [andb]; try reflexivity; lia.
    + exists o'. split; [exact Hrun'|].
      replace (256 * (b + 1)) with (256 * b + Z.of_nat 256) by lia. exact Hinv'.
  - rewrite Z2Nat.id in Hrun, Hinv by lia.
    exists out'. split; [exact Hrun|].
    intros a. rewrite (Hinv a). replace (Z.min (256 * pn) N) with N by lia. reflexivity.
Qed.
End PostprocessNeighborsLaunch.

(** X6.  The host function [postprocess_neighbors], run on the table
    that [calc_chunk_indices] builds, resolves the whole batch: for every
    query [q < n_queries] and every rank [r < topk] the slot
    [q * topk + r] of the output receives the database identifier of the
    record at which a walk through the probed clusters of [q] stops for
    the slot's flat offset, or [kOutOfBoundsRecord] when the offset lies
    beyond the probed records.  Every slot is written, one thread each;
    the surplus threads of the last block write nothing, and the output
    is unchanged outside the [n_queries * topk] slots. *)
Theorem postprocess_neighbors_resolves_batch :
  forall (div_rounding_up_unsafe : Z -> Z -> Z) (fuel : nat) (IdxT1 : Ivf.int_type)
         (neighbors_out neighbors_in : array Z) (db_indices : array (array Z))
         (cluster_sizes clusters_to_probe chunk_indices : array Z)
         (n_queries n_probes topk : Z),
    let size_of := fun q j => cluster_sizes (clusters_to_probe (q * n_probes + j)) in
    1 <= n_probes <= two31 ->
    0 < topk ->
    0 <= n_queries ->
    n_queries * topk <= two32 - 256 ->
    n_queries * n_probes <= two32 ->
    (forall q j, 0 <= q < n_queries -> 0 <= j < n_probes -> 0 <= size_of q j) ->
    (forall q (n : nat), 0 <= q < n_queries -> Z.of_nat n < n_probes ->
       chunk_indices (q * n_probes + Z.of_nat n) = sum_upto (size_of q) (S n)) ->
    div_rounding_up_unsafe (n_queries * topk) 256 = (n_queries * topk + 255) / 256 ->
    (32 <= fuel)%nat ->
    exists out',
      IvfHost.postprocess_neighbors div_rounding_up_unsafe fuel IdxT1
        neighbors_out neighbors_in db_indices clusters_to_probe chunk_indices
        n_queries n_probes topk = Some out' /\
      (forall q r, 0 <= q < n_queries -> 0 <= r < topk ->
         out' (q * topk + r)
         = let (c, l) := IvfHost.locate_linear (Z.to_nat n_probes) (size_of q) 0
                           (wrap32 (neighbors_in (q * topk + r))) in
           if c <? n_probes then db_indices (clusters_to_probe (q * n_probes + c)) l
           else Ivf.kOutOfBoundsRecord IdxT1) /\
      (forall a, ~ (0 <= a < n_queries * topk) -> out' a = neighbors_out a).
Proof.
  intros div fuel IdxT1 nout nin db sizes probes tbl nq P topk size_of
    HP Htopk Hnq Hslots Hrows Hsz Htbl Hdiv Hfuel.
  destruct (postprocess_neighbors_grid IdxT1 nin db sizes probes tbl nq P topk
              HP Htopk ltac:(lia) Hrows Hsz Htbl div fuel nout Hslots Hnq Hdiv Hfuel)
    as (out' & Hrun & Hout).
  exists out'. split; [exact Hrun|]. split.
  - intros q r Hq Hr. rewrite Hout.
    rewrite (proj2 (Z.leb_le 0 (q * topk + r))) by nia.
    rewrite (proj2 (Z.ltb_lt (q * topk + r) (nq * topk))) by nia.
    cbn [andb].
    replace ((q * topk + r) / topk) with q
      by (apply (Z.div_unique_pos (q * topk + r) topk q r); lia).
    reflexivity.
  - intros a Ha. rewrite Hout.
    destruct (Z.leb_spec 0 a); destruct (Z.ltb_spec a (nq * topk));
      cbn [andb]; try reflexivity. lia.
Qed.

(** Two queries with [topk = 2] over the clusters of sizes 3, 5, 2: the
    flat offsets 4, 12 of the first and 4, 0 of the second. *)
Lemma postprocess_neighbors_resolves_batch_witness :
  exists out',
    IvfHost.postprocess_neighbors Inputs2.div_rounding_up 32 Ivf.int64_t
      Inputs.zeros Inputs2.picks_2x2 Inputs.ids352 Inputs2.probes_2x3 Inputs2.table_2x3
      2 3 2 = Some out' /\
    out' 0 = 201 /\ out' 1 = 9223372036854775807 /\ out' 2 = 102 /\ out' 3 = 300.
Proof.
  destruct (postprocess_neighbors_resolves_batch Inputs2.div_rounding_up 32 Ivf.int64_t
              Inputs.zeros Inputs2.picks_2x2 Inputs.ids352
              Inputs.sizes352 Inputs2.probes_2x3 Inputs2.table_2x3 2 3 2)
    as (out' & Hrun & Hslots & _).
  - unfold two31; lia.
  - lia.
  - lia.
  - unfold two32; lia.
  - unfold two32; lia.
  - intros q j Hq Hj.
    assert (Hq' : q = 0 \/ q = 1) by lia.
    assert (Hj' : j = 0 \/ j = 1 \/ j = 2) by lia.
    destruct Hq' as [-> | ->]; destruct Hj' as [-> | [-> | ->]];
      vm_compute; discriminate.
  - intros q n Hq Hn.
    assert (Hq' : q = 0 \/ q = 1) by lia.
    destruct Hq' as [-> | ->]; destruct n as [|[|[|n]]]; try reflexivity; lia.
  - reflexivity.
  - apply le_n.
  - exists out'. split; [exact Hrun|].
    pose proof (Hslots 0 0 ltac:(lia) ltac:(lia)) as H00.
    pose proof (Hslots 0 1 ltac:(lia) ltac:(lia)) as H01.
    pose proof (Hslots 1 0 ltac:(lia) ltac:(lia)) as H10.
    pose proof (Hslots 1 1 ltac:(lia) ltac:(lia)) as H11.
    repeat split; assumption.
Defined.

(* ------------------------------------------------------------------ *)
(** ** Padded layouts *)

Lemma product_snoc (es : list Z) (x : Z) :
  Mdspan.product (es ++ [x]) = x * Mdspan.product es.
Proof.
  unfold Mdspan.product.
  induction es as [|e es IH]; cbn [app fold_right]; [lia|].
  rewrite IH. ring.
Qed.

Lemma product_pos1 (es : list Z) :
  Forall (fun e => 1 <= e) es -> 0 < Mdspan.product es.
Proof.
  unfold Mdspan.product.
  induction 1 as [|e es He _ IH]; cbn [fold_right]; [lia|]. nia.
Qed.

(** A new innermost dimension of extent [x] multiplies every stride by
    [x] and has stride 1 itself. *)
Lemma row_major_strides_snoc (sh : list Z) (x : Z) :
  Mdspan.row_major_strides (sh ++ [x])
  = map (Z.mul x) (Mdspan.row_major_strides sh) ++ [1].
Proof.
  induction sh as [|e es IH]; [reflexivity|].
  cbn [app Mdspan.row_major_strides map]. rewrite product_snoc, IH. reflexivity.
Qed.

Lemma row_major_strides_length (sh : list Z) :
  length (Mdspan.row_major_strides sh) = length sh.
Proof. induction sh as [|e es IH]; simpl; [reflexivity|]. rewrite IH. reflexivity. Qed.

Lemma dot_app (xs ys xs' ys' : list Z) :
  length xs = length ys ->
  Mdspan.dot (xs ++ xs') (ys ++ ys') = Mdspan.dot xs ys + Mdspan.dot xs' ys'.
Proof.
  revert ys. induction xs as [|x xs IH]; intros [|y ys] Hlen; try discriminate.
  - simpl. lia.
  - cbn [app Mdspan.dot]. rewrite IH by (simpl in Hlen; lia). ring.
Qed.

Lemma dot_map_mul (k : Z) (xs ys : list Z) :
  Mdspan.dot xs (map (Z.mul k) ys) = k * Mdspan.dot xs ys.
Proof.
  revert ys. induction xs as [|x xs IH]; intros [|y ys]; simpl; try lia.
  rewrite IH. ring.
Qed.

(** An in-range coordinate ravels to an offset below the size. *)
Lemma dot_strides_bound (cs es : list Z) :
  Forall2 (fun c e => 0 <= c < e) cs es ->
  0 <= Mdspan.dot cs (Mdspan.row_major_strides es) < Mdspan.product es.
Proof.
  induction 1 as [|c e cs es Hc _ IH]; simpl; [lia|].
  fold (Mdspan.product es). nia.
Qed.

(** Two in-range coordinates with the same offset are the same. *)
Lemma dot_strides_injective (es : list Z) :
  forall cs1 cs2,
    Forall2 (fun c e => 0 <= c < e) cs1 es ->
    Forall2 (fun c e => 0 <= c < e) cs2 es ->
    Mdspan.dot cs1 (Mdspan.row_major_strides es)
    = Mdspan.dot cs2 (Mdspan.row_major_strides es) ->
    cs1 = cs2.
Proof.
  induction es as [|e es IH]; intros cs1 cs2 H1 H2 Heq.
  - inversion H1; inversion H2; reflexivity.
  - inversion H1 as [|a ? as_ ? Ha Has]; subst.
    inversion H2 as [|b ? bs ? Hb Hbs]; subst.
    cbn [Mdspan.row_major_strides Mdspan.dot] in Heq.
    pose proof (dot_strides_bound as_ es Has) as B1.
    pose proof (dot_strides_bound bs es Hbs) as B2.
    assert (a = b) by nia. subst b.
    f_equal. apply IH; try assumption. lia.
Qed.

Section PaddedStrides.
Variable alignTo : Z -> Z -> Z.
Variable Alignment : Z.
Hypothesis Alignment_pos : 1 <= Alignment.

(** Beyond the padded dimension the loop multiplies by the extents. *)
Lemma strides_loop_plain (visited : list Z) :
  forall stride,
    1 <= stride ->
    2 <= stride \/ Alignment = 1 ->
    Forall (fun e => 1 <= e /\ e <= alignTo e Alignment < e + Alignment) visited ->
    stride * Mdspan.product (rev visited) < two64 ->
    exists stored,
      Padded.strides_loop alignTo Alignment stride visited
      = (stored, stride * Mdspan.product (rev visited)) /\
      rev stored = map (Z.mul stride) (Mdspan.row_major_strides (rev visited)).
Proof.
  induction visited as [|e rest IH]; intros stride Hs Hplain Hall Hfit.
  - exists []. split; [cbn; f_equal; lia|reflexivity].
  - inversion Hall as [|? ? He Hrest]; subst.
    cbn [rev] in *. rewrite product_snoc in *.
    assert (Hprod : 0 < Mdspan.product (rev rest)).
    { apply product_pos1, Forall_rev.
      eapply Forall_impl; [|exact Hrest]. cbv beta. intros a Ha. lia. }
    assert (Hnext : Padded.next_stride alignTo Alignment stride e = stride * e).
    { unfold Padded.next_stride.
      destruct (Z.eqb_spec stride 1) as [->|Hne].
      - destruct Hplain as [|HA]; [lia|]. rewrite HA in *.
        replace (Z.max 1 (alignTo e 1)) with e by lia.
        unfold wrap64. apply Z.mod_small. nia.
      - unfold wrap64. apply Z.mod_small. nia. }
    cbn [Padded.strides_loop]. rewrite Hnext.
    destruct (IH (stride * e)) as (stored & Hrun & Hrev); try assumption.
    + nia.
    + destruct Hplain as [|HA]; [left; nia|right; exact HA].
    + nia.
    + rewrite Hrun. exists (stride :: stored). split.
      * f_equal. ring.
      * cbn [rev]. rewrite Hrev, row_major_strides_snoc, map_app, map_map.
        cbn [map]. f_equal.
        -- apply map_ext. intros a. ring.
        -- f_equal. lia.
Qed.

(** The padded row-major strides are the plain row-major strides of the
    array widened in its last dimension. *)
Lemma padded_row_major_strides_widened (exts : list Z) :
  exts <> [] ->
  Forall (fun e => 1 <= e /\ e <= alignTo e Alignment < e + Alignment) exts ->
  let padded := Z.max Alignment (alignTo (last exts 1) Alignment) in
  Mdspan.product (tl (Padded.widen_last exts padded)) < two64 ->
  Padded.padded_row_major_strides alignTo Alignment exts
  = Mdspan.row_major_strides (Padded.widen_last exts padded).
Proof.
  intros Hne Hall padded Hfit. subst padded.
  destruct exts as [|e0 rest]; [congruence|]. clear Hne.
  unfold Padded.padded_row_major_strides, Padded.widen_last in *. cbn [tl].
  destruct rest as [|e1 rest']; [reflexivity|].
  destruct (exists_last (l := e1 :: rest') ltac:(discriminate)) as (front & elast & Heq).
  rewrite Heq in *. clear Heq e1 rest'.
  - assert (Hl : last (e0 :: front ++ [elast]) 1 = elast)
      by (rewrite app_comm_cons; apply last_last).
    rewrite Hl in *.
    rewrite app_comm_cons, removelast_last in *. cbn [app tl] in Hfit.
    rewrite product_snoc in Hfit.
    inversion Hall as [|? ? _ Hrest]; subst.
    apply Forall_app in Hrest. destruct Hrest as [Hfront Hlast].
    inversion Hlast as [|? ? Hel _]; subst.
    set (P := Z.max Alignment (alignTo elast Alignment)) in *.
    assert (Hfp : 0 < Mdspan.product front).
    { apply product_pos1.
      eapply Forall_impl; [|exact Hfront]. cbv beta. intros a Ha. lia. }
    rewrite rev_app_distr. cbn [rev app Padded.strides_loop].
    assert (Hnext : Padded.next_stride alignTo Alignment 1 elast = P).
    { unfold Padded.next_stride. cbn [Z.eqb]. fold P. rewrite Z.mul_1_l.
      unfold wrap64. apply Z.mod_small. nia. }
    rewrite Hnext.
    destruct (strides_loop_plain (rev front) P) as (stored & Hrun & Hrev).
    + lia.
    + destruct (Z.eq_dec Alignment 1); [right; assumption|left; lia].
    + apply Forall_rev. exact Hfront.
    + rewrite rev_involutive. lia.
    + rewrite Hrun. rewrite rev_involutive in *.
      cbn [rev app Mdspan.row_major_strides].
      rewrite product_snoc, row_major_strides_snoc, Hrev. reflexivity.
Qed.
End PaddedStrides.

(** [padding<ValueType, ByteAlignment>::value] elements fill a whole
    number of alignment units. *)
Lemma padding_value_bytes (sizeof_ValueType ByteAlignment : Z) :
  1 <= sizeof_ValueType -> 1 <= ByteAlignment ->
  Padded.padding_admits sizeof_ValueType ByteAlignment = true ->
  1 <= Padded.padding_value sizeof_ValueType ByteAlignment /\
  (Padded.padding_value sizeof_ValueType ByteAlignment * sizeof_ValueType)
    mod ByteAlignment = 0 /\
  (sizeof_ValueType <= ByteAlignment ->
   Padded.padding_value sizeof_ValueType ByteAlignment * sizeof_ValueType = ByteAlignment).
Proof.
  intros Hs Hb Hadm. unfold Padded.padding_admits in Hadm. unfold Padded.padding_value.
  apply orb_true_iff in Hadm. destruct Hadm as [H|H]; apply Z.eqb_eq in H.
  - pose proof (Z.div_mod ByteAlignment sizeof_ValueType ltac:(lia)) as Hdm.
    rewrite H, Z.add_0_r in Hdm.
    assert (1 <= ByteAlignment / sizeof_ValueType) by nia.
    replace (Z.max (ByteAlignment / sizeof_ValueType) 1)
      with (ByteAlignment / sizeof_ValueType) by lia.
    split; [lia|].
    replace (ByteAlignment / sizeof_ValueType * sizeof_ValueType) with ByteAlignment by lia.
    split; [apply Z.mod_same; lia|reflexivity].
  - pose proof (Z.div_mod sizeof_ValueType ByteAlignment ltac:(lia)) as Hdm.
    rewrite H, Z.add_0_r in Hdm.
    assert (Hq : 1 <= sizeof_ValueType / ByteAlignment) by nia.
    destruct (Z.eq_dec sizeof_ValueType ByteAlignment) as [->|Hne].
    + rewrite Z.div_same by lia. cbn [Z.max Z.compare Pos.compare Pos.compare_cont].
      rewrite Z.mul_1_l. split; [lia|]. split; [apply Z.mod_same; lia|reflexivity].
    + assert (ByteAlignment < sizeof_ValueType) by nia.
      rewrite (Z.div_small ByteAlignment sizeof_ValueType) by lia.
      cbn [Z.max Z.compare]. rewrite Z.mul_1_l. split; [lia|]. split; [exact H|lia].
Qed.

(** X7.  The size of a padding unit: whenever the two sizes pass the
    static assertion of [padding], [padding::value] is at least one
    element and that many elements occupy a whole number of alignment
    units; when the element is no larger than the alignment they occupy
    exactly one unit. *)
Theorem padding_value_fills_alignment :
  forall sizeof_ValueType ByteAlignment : Z,
    1 <= sizeof_ValueType -> 1 <= ByteAlignment ->
    Padded.padding_admits sizeof_ValueType ByteAlignment = true ->
    1 <= Padded.padding_value sizeof_ValueType ByteAlignment /\
    (Padded.padding_value sizeof_ValueType ByteAlignment * sizeof_ValueType)
      mod ByteAlignment = 0 /\
    (sizeof_ValueType <= ByteAlignment ->
     Padded.padding_value sizeof_ValueType ByteAlignment * sizeof_ValueType
     = ByteAlignment).
Proof. exact padding_value_bytes. Qed.

Lemma padding_value_fills_alignment_witness :
  1 <= Padded.padding_value 4 128 /\
  (Padded.padding_value 4 128 * 4) mod 128 = 0 /\
  (4 <= 128 -> Padded.padding_value 4 128 * 4 = 128).
Proof.
  apply (padding_value_fills_alignment 4 128); [lia|lia|reflexivity].
Defined.

Lemma widen_last_snoc (front : list Z) (elast padded : Z) :
  Padded.widen_last (front ++ [elast]) padded = front ++ [padded] /\
  last (front ++ [elast]) 1 = elast.
Proof.
  unfold Padded.widen_last. rewrite removelast_last. split; [reflexivity|].
  apply last_last.
Qed.

(** X8.  With an [alignTo] that rounds up to a multiple of the
    alignment, the strides computed by [padded_row_major_strides] are
    the C-contiguous strides of the array whose last dimension is
    widened to the aligned extent: the padding goes to the end of every
    row and nowhere else. *)
Theorem padded_row_major_strides_pad_last_dimension :
  forall (alignTo : Z -> Z -> Z) (Alignment : Z) (exts : list Z),
    1 <= Alignment ->
    exts <> [] ->
    Forall (fun e => 1 <= e /\ e <= alignTo e Alignment < e + Alignment) exts ->
    let padded := Z.max Alignment (alignTo (last exts 1) Alignment) in
    Mdspan.product (tl (Padded.widen_last exts padded)) < two64 ->
    Padded.padded_row_major_strides alignTo Alignment exts
    = Mdspan.row_major_strides (Padded.widen_last exts padded).
Proof.
  intros alignTo A exts HA Hne Hall padded Hfit.
  exact (padded_row_major_strides_widened alignTo A HA exts Hne Hall Hfit).
Qed.

(** Rows of 5 elements aligned to 4: the rows are 8 apart. *)
Lemma padded_row_major_strides_pad_last_dimension_witness :
  Padded.padded_row_major_strides Inputs2.alignTo 4 [2; 3; 5]
  = Mdspan.row_major_strides (Padded.widen_last [2; 3; 5] 8).
Proof.
  apply (padded_row_major_strides_pad_last_dimension Inputs2.alignTo 4 [2; 3; 5]).
  - lia.
  - discriminate.
  - repeat constructor; vm_compute; discriminate.
  - vm_compute. reflexivity.
Defined.

Section PaddedMapping.
Variable alignTo : Z -> Z -> Z.
Variable Alignment : Z.
Variable exts : list Z.
Hypothesis Alignment_pos : 1 <= Alignment.
Hypothesis rank_pos : exts <> [].
Hypothesis alignTo_rounds_up :
  Forall (fun e => 1 <= e /\ e <= alignTo e Alignment < e + Alignment) exts.

Local Abbreviation padded := (Z.max Alignment (alignTo (last exts 1) Alignment)).

Hypothesis strides_fit : Mdspan.product (tl (Padded.widen_last exts padded)) < two64.

Lemma in_range_of_widened (coords : list Z) :
  Forall2 (fun c e => 0 <= c < e) coords exts ->
  Forall2 (fun c e => 0 <= c < e) coords (Padded.widen_last exts padded).
Proof.
  intros Hin.
  destruct (exists_last rank_pos) as (front & elast & Heq).
  destruct (widen_last_snoc front elast padded) as [Hw Hl].
  rewrite Heq in *. rewrite Hw, Hl.
  apply Forall2_app_inv_r in Hin.
  destruct Hin as (cs1 & cs2 & H1 & H2 & ->).
  apply Forall2_app; [exact H1|].
  inversion H2 as [|c ? cs ? Hc Hnil]; subst. inversion Hnil; subst.
  constructor; [|constructor].
  apply Forall_app in alignTo_rounds_up. destruct alignTo_rounds_up as [_ Hlast].
  inversion Hlast as [|? ? Hel _]; subst. lia.
Qed.

Lemma padded_offset_injective (coords1 coords2 : list Z) :
  Forall2 (fun c e => 0 <= c < e) coords1 exts ->
  Forall2 (fun c e => 0 <= c < e) coords2 exts ->
  Padded.mapping_offset (Padded.padded_row_major_strides alignTo Alignment exts) coords1
  = Padded.mapping_offset (Padded.padded_row_major_strides alignTo Alignment exts) coords2 ->
  coords1 = coords2.
Proof.
  intros H1 H2. unfold Padded.mapping_offset.
  rewrite (padded_row_major_strides_widened alignTo Alignment Alignment_pos exts
             rank_pos alignTo_rounds_up strides_fit).
  apply dot_strides_injective; apply in_range_of_widened; assumption.
Qed.

Lemma padded_offset_bound (coords : list Z) :
  Forall2 (fun c e => 0 <= c < e) coords exts ->
  0 <= Padded.mapping_offset (Padded.padded_row_major_strides alignTo Alignment exts) coords
    < Mdspan.product (Padded.widen_last exts padded).
Proof.
  intros H. unfold Padded.mapping_offset.
  rewrite (padded_row_major_strides_widened alignTo Alignment Alignment_pos exts
             rank_pos alignTo_rounds_up strides_fit).
  apply dot_strides_bound, in_range_of_widened, H.
Qed.

(** The offset of the first element of a row is a multiple of the
    padded extent. *)
Lemma padded_row_start (cs : list Z) :
  S (length cs) = length exts ->
  exists d,
    Padded.mapping_offset (Padded.padded_row_major_strides alignTo Alignment exts) (cs ++ [0])
    = padded * d.
Proof.
  intros Hlen. unfold Padded.mapping_offset.
  rewrite (padded_row_major_strides_widened alignTo Alignment Alignment_pos exts
             rank_pos alignTo_rounds_up strides_fit).
  destruct (exists_last rank_pos) as (front & elast & Heq).
  destruct (widen_last_snoc front elast padded) as [Hw Hl].
  rewrite Heq in Hlen. rewrite <- Heq in Hw. rewrite Hw.
  rewrite length_app in Hlen. cbn [length] in Hlen.
  rewrite row_major_strides_snoc, dot_app
    by (rewrite length_map, row_major_strides_length; lia).
  rewrite dot_map_mul. cbn [Mdspan.dot].
  exists (Mdspan.dot cs (Mdspan.row_major_strides front)). lia.
Qed.
End PaddedMapping.

(** X9.  The padded row-major mapping never makes two elements share a
    cell: coordinates within the extents have offsets below the size of
    the widened array, and two different coordinates have different
    offsets. *)
Theorem padded_mapping_is_injective :
  forall (alignTo : Z -> Z -> Z) (Alignment : Z) (exts coords1 coords2 : list Z),
    let strides := Padded.padded_row_major_strides alignTo Alignment exts in
    let padded := Z.max Alignment (alignTo (last exts 1) Alignment) in
    1 <= Alignment ->
    exts <> [] ->
    Forall (fun e => 1 <= e /\ e <= alignTo e Alignment < e + Alignment) exts ->
    Mdspan.product (tl (Padded.widen_last exts padded)) < two64 ->
    Forall2 (fun c e => 0 <= c < e) coords1 exts ->
    Forall2 (fun c e => 0 <= c < e) coords2 exts ->
    0 <= Padded.mapping_offset strides coords1
      < Mdspan.product (Padded.widen_last exts padded) /\
    (Padded.mapping_offset strides coords1 = Padded.mapping_offset strides coords2 ->
     coords1 = coords2).
Proof.
  intros alignTo A exts c1 c2 strides padded HA Hne Hall Hfit H1 H2. split.
  - exact (padded_offset_bound alignTo A exts HA Hne Hall Hfit c1 H1).
  - exact (padded_offset_injective alignTo A exts HA Hne Hall Hfit c1 c2 H1 H2).
Qed.

Lemma padded_mapping_is_injective_witness :
  0 <= Padded.mapping_offset
         (Padded.padded_row_major_strides Inputs2.alignTo 4 [2; 3; 5]) [1; 2; 4]
    < Mdspan.product (Padded.widen_last [2; 3; 5] 8) /\
  (Padded.mapping_offset
     (Padded.padded_row_major_strides Inputs2.alignTo 4 [2; 3; 5]) [1; 2; 4]
   = Padded.mapping_offset
       (Padded.padded_row_major_strides Inputs2.alignTo 4 [2; 3; 5]) [1; 2; 4] ->
   [1; 2; 4] = [1; 2; 4]).
Proof.
  apply (padded_mapping_is_injective Inputs2.alignTo 4 [2; 3; 5] [1; 2; 4] [1; 2; 4]).
  - lia.
  - discriminate.
  - repeat constructor; vm_compute; discriminate.
  - vm_compute. reflexivity.
  - repeat constructor; lia.
  - repeat constructor; lia.
Defined.

(** X10.  With the alignment [padding<ValueType, ByteAlignment>::value]
    every row of a padded row-major array starts on a byte offset that
    is a multiple of [ByteAlignment]. *)
Theorem padded_rows_start_on_alignment_boundary :
  forall (alignTo : Z -> Z -> Z) (sizeof_ValueType ByteAlignment : Z)
         (exts cs : list Z),
    let Alignment := Padded.padding_value sizeof_ValueType ByteAlignment in
    let strides := Padded.padded_row_major_strides alignTo Alignment exts in
    let padded := Z.max Alignment (alignTo (last exts 1) Alignment) in
    1 <= sizeof_ValueType -> 1 <= ByteAlignment ->
    Padded.padding_admits sizeof_ValueType ByteAlignment = true ->
    exts <> [] ->
    Forall (fun e => 1 <= e /\ e <= alignTo e Alignment < e + Alignment) exts ->
    alignTo (last exts 1) Alignment mod Alignment = 0 ->
    Mdspan.product (tl (Padded.widen_last exts padded)) < two64 ->
    S (length cs) = length exts ->
    (Padded.mapping_offset strides (cs ++ [0]) * sizeof_ValueType) mod ByteAlignment = 0.
Proof.
  intros alignTo sz BA exts cs A strides padded Hsz HBA Hadm Hne Hall Hmul Hfit Hlen.
  destruct (padding_value_bytes sz BA Hsz HBA Hadm) as (HA & Hbytes & _). fold A in HA, Hbytes.
  destruct (padded_row_start alignTo A exts HA Hne Hall Hfit cs Hlen) as (d & Hd).
  unfold strides. rewrite Hd. fold padded.
  assert (Hp : padded mod A = 0).
  { unfold padded. destruct (Z.max_spec A (alignTo (last exts 1) A)) as [[_ ->]|[_ ->]].
    - exact Hmul.
    - apply Z.mod_same. lia. }
  pose proof (Z.div_mod padded A ltac:(lia)) as Hdp. rewrite Hp, Z.add_0_r in Hdp.
  pose proof (Z.div_mod (A * sz) BA ltac:(lia)) as Hdb.
  rewrite Hbytes, Z.add_0_r in Hdb.
  set (u := padded / A) in *. set (v := A * sz / BA) in *.
  replace (padded * d * sz) with (u * d * v * BA).
  - apply Z.mod_mul. lia.
  - transitivity (u * d * (A * sz)); [rewrite Hdb; ring|].
    rewrite Hdp. ring.
Qed.

(** Rows of five 4-byte elements aligned to 16 bytes. *)
Lemma padded_rows_start_on_alignment_boundary_witness :
  (Padded.mapping_offset
     (Padded.padded_row_major_strides Inputs2.alignTo (Padded.padding_value 4 16) [3; 5])
     ([2] ++ [0]) * 4) mod 16 = 0.
Proof.
  apply (padded_rows_start_on_alignment_boundary Inputs2.alignTo 4 16 [3; 5] [2]).
  - lia.
  - lia.
  - reflexivity.
  - discriminate.
  - repeat constructor; vm_compute; discriminate.
  - reflexivity.
  - vm_compute. reflexivity.
  - reflexivity.
Defined.

Lemma rev_tl_rev (exts : list Z) : rev (tl (rev exts)) = removelast exts.
Proof.
  destruct exts as [|e0 rest]; [reflexivity|].
  destruct (exists_last (l := e0 :: rest) ltac:(discriminate)) as (front & elast & ->).
  rewrite rev_app_distr, removelast_last. cbn [rev app tl]. apply rev_involutive.
Qed.

(** X11.  The two stride functions mirror each other: the column-major
    strides of an array are the row-major strides of the array with its
    dimensions reversed, read backwards.  So column-major arrays are
    padded in their first dimension as row-major ones are in their last. *)
Theorem padded_col_major_strides_mirror_row_major :
  forall (alignTo : Z -> Z -> Z) (Alignment : Z) (exts : list Z),
    exts <> [] ->
    Padded.padded_col_major_strides alignTo Alignment exts
    = rev (Padded.padded_row_major_strides alignTo Alignment (rev exts)).
Proof.
  intros alignTo A exts _.
  unfold Padded.padded_col_major_strides, Padded.padded_row_major_strides.
  rewrite rev_tl_rev.
  destruct (Padded.strides_loop alignTo A 1 (removelast exts)) as [stored final].
  cbn [rev]. rewrite rev_involutive. reflexivity.
Qed.

Lemma padded_col_major_strides_mirror_row_major_witness :
  Padded.padded_col_major_strides Inputs2.alignTo 4 [5; 3; 2]
  = rev (Padded.padded_row_major_strides Inputs2.alignTo 4 (rev [5; 3; 2])).
Proof.
  apply (padded_col_major_strides_mirror_row_major Inputs2.alignTo 4 [5; 3; 2]).
  discriminate.
Defined.

(* ------------------------------------------------------------------ *)
(** ** unravel_index: inverse of the linearisation, and the two widths *)

(** On an index and extents that fit the type [I] the loop computes
    what it would compute in unbounded integers. *)
Lemma unravel_loop_exact (wrapI : Z -> Z) (modulus : Z)
    (wrapI_small : forall x, 0 <= x < modulus -> wrapI x = x) (rev_extents : list Z) :
  forall idx,
    0 <= idx < modulus ->
    Forall (fun e => 1 <= e < modulus) rev_extents ->
    Mdspan.unravel_loop wrapI idx rev_extents
    = Mdspan.unravel_loop (fun x => x) idx rev_extents.
Proof.
  induction rev_extents as [|e rest IH]; intros idx Hidx Hall; [reflexivity|].
  inversion Hall as [|? ? He Hrest]; subst.
  cbn [Mdspan.unravel_loop].
  rewrite (wrapI_small e) by lia.
  rewrite (unravel_step wrapI modulus wrapI_small idx e Hidx He).
  pose proof (unravel_step (fun x => x) modulus (fun x _ => eq_refl) idx e Hidx He) as Hid.
  cbv beta in Hid. rewrite Hid.
  assert (Hq : 0 <= idx / e <= idx).
  { split; [apply Z.div_pos; lia|]. apply Z.div_le_upper_bound; nia. }
  rewrite (IH (idx / e)) by (assumption || lia). reflexivity.
Qed.

(** X12.  [unravel_index] undoes the row-major linearisation: on a
    shape whose extents (beyond the first) fit 32 bits, the linear index
    of any coordinate within the extents is turned back into that very
    coordinate.  With the round trip in the other direction this makes
    [unravel_index] a bijection between the linear indices below the
    size and the coordinates. *)
Theorem unravel_index_inverts_ravel :
  forall (Idx_bits e0 : Z) (es coords : list Z),
    Forall (fun e => 1 <= e < two32) es ->
    Forall2 (fun c e => 0 <= c < e) coords (e0 :: es) ->
    Mdspan.product (e0 :: es) <= two64 ->
    Idx_bits = 64 \/ Mdspan.product (e0 :: es) <= two32 ->
    Mdspan.unravel_index Idx_bits (Mdspan.ravel coords (e0 :: es)) (e0 :: es) = coords.
Proof.
  intros Idx_bits e0 es coords Hes Hin H64 Hbits.
  pose proof (dot_strides_bound coords (e0 :: es) Hin) as Hb.
  fold (Mdspan.ravel coords (e0 :: es)) in Hb.
  set (idx := Mdspan.ravel coords (e0 :: es)) in *.
  destruct (unravel_index_when_extents_fit Idx_bits idx e0 es) as [Hin' Hrav].
  - exact Hb.
  - lia.
  - destruct Hbits as [H|H]; [left; exact H|right; lia].
  - eapply Forall_impl; [|exact Hes]. cbv beta. intros a Ha.
    destruct ((Idx_bits =? 64) && (two32 - 1 <? idx)); unfold two32, two64 in *; lia.
  - apply (dot_strides_injective (e0 :: es)); [exact Hin'|exact Hin|exact Hrav].
Qed.

Lemma unravel_index_inverts_ravel_witness :
  Mdspan.unravel_index 64 (Mdspan.ravel [2; 5] [7; 6]) [7; 6] = [2; 5].
Proof.
  apply (unravel_index_inverts_ravel 64 7 [6] [2; 5]).
  - repeat constructor; unfold two32; lia.
  - repeat constructor; lia.
  - vm_compute. discriminate.
  - left. reflexivity.
Defined.

(** X13.  The narrow path is sound where it is taken for a small index:
    for an index below [2^32] and extents (beyond the first) that fit 32
    bits, the coordinates [unravel_index] computes in [uint32_t] are the
    ones the 64-bit implementation would compute. *)
Theorem unravel_index_narrow_path_agrees :
  forall (Idx_bits idx : Z) (shape : list Z),
    0 <= idx < two32 ->
    Forall (fun e => 1 <= e < two32) (tl shape) ->
    Mdspan.unravel_index Idx_bits idx shape
    = Mdspan.unravel_index_impl wrap64 idx shape.
Proof.
  intros Idx_bits idx shape Hidx Hes.
  assert (H32 : forall x, 0 <= x < two32 -> wrap32 x = x) by (intros; apply wrap32_small; lia).
  assert (H64 : forall x, 0 <= x < two32 -> wrap64 x = x)
    by (intros x Hx; unfold wrap64; apply Z.mod_small; unfold two32, two64 in *; lia).
  unfold Mdspan.unravel_index. rewrite (H64 idx Hidx), (H32 idx Hidx).
  rewrite (proj2 (Z.ltb_ge (two32 - 1) idx)) by lia. rewrite andb_false_r.
  unfold Mdspan.unravel_index_impl.
  rewrite (unravel_loop_exact wrap32 two32 H32 (rev (tl shape)) idx Hidx (Forall_rev Hes)).
  rewrite (unravel_loop_exact wrap64 two32 H64 (rev (tl shape)) idx Hidx (Forall_rev Hes)).
  reflexivity.
Qed.

Lemma unravel_index_narrow_path_agrees_witness :
  Mdspan.unravel_index 64 17 [7; 6] = Mdspan.unravel_index_impl wrap64 17 [7; 6].
Proof.
  apply (unravel_index_narrow_path_agrees 64 17 [7; 6]).
  - unfold two32; lia.
  - repeat constructor; unfold two32; lia.
Defined.

(** X14.  A padded layout with alignment 1 is the plain C-contiguous
    layout: on a shape with positive extents, those beyond the first
    below [2^32] and their product below [2^64], the strides are the
    row-major strides of the extents, so [unravel_index] gives for every
    linear index below the size the coordinate that the padded mapping
    sends back to it. *)
Theorem unpadded_mapping_inverts_unravel_index :
  forall (alignTo : Z -> Z -> Z) (idx e0 : Z) (es : list Z),
    Forall (fun e => 1 <= e /\ e <= alignTo e 1 < e + 1) (e0 :: es) ->
    Forall (fun e => 1 <= e < two32) es ->
    Mdspan.product es < two64 ->
    0 <= idx < Mdspan.product (e0 :: es) ->
    idx < two64 ->
    Padded.padded_row_major_strides alignTo 1 (e0 :: es)
    = Mdspan.row_major_strides (e0 :: es) /\
    Padded.mapping_offset (Padded.padded_row_major_strides alignTo 1 (e0 :: es))
      (Mdspan.unravel_index 64 idx (e0 :: es)) = idx.
Proof.
  intros alignTo idx e0 es Hall Hes Hfit Hidx H64.
  assert (Hne : e0 :: es <> []) by discriminate.
  assert (Hsame : Padded.widen_last (e0 :: es)
                    (Z.max 1 (alignTo (last (e0 :: es) 1) 1)) = e0 :: es).
  { destruct (exists_last Hne) as (front & elast & Heq). rewrite Heq in *.
    destruct (widen_last_snoc front elast
                (Z.max 1 (alignTo (last (front ++ [elast]) 1) 1))) as [-> Hl].
    rewrite Hl. apply Forall_app in Hall. destruct Hall as [_ Hlast].
    inversion Hlast as [|? ? Hel _]; subst.
    do 2 f_equal. lia. }
  assert (Hstr : Padded.padded_row_major_strides alignTo 1 (e0 :: es)
                 = Mdspan.row_major_strides (e0 :: es)).
  { rewrite (padded_row_major_strides_widened alignTo 1 ltac:(lia) (e0 :: es) Hne Hall).
    - rewrite Hsame. reflexivity.
    - rewrite Hsame. exact Hfit. }
  split; [exact Hstr|].
  unfold Padded.mapping_offset. rewrite Hstr.
  destruct (unravel_index_when_extents_fit 64 idx e0 es) as [_ Hrav].
  - exact Hidx.
  - exact H64.
  - left. reflexivity.
  - eapply Forall_impl; [|exact Hes]. cbv beta. intros a Ha.
    destruct ((64 =? 64) && (two32 - 1 <? idx)); unfold two32, two64 in *; lia.
  - exact Hrav.
Qed.

Lemma unpadded_mapping_inverts_unravel_index_witness :
  Padded.padded_row_major_strides Inputs2.alignTo 1 [7; 6]
  = Mdspan.row_major_strides [7; 6] /\
  Padded.mapping_offset (Padded.padded_row_major_strides Inputs2.alignTo 1 [7; 6])
    (Mdspan.unravel_index 64 17 [7; 6]) = 17.
Proof.
  apply (unpadded_mapping_inverts_unravel_index Inputs2.alignTo 17 7 [6]).
  - repeat constructor; vm_compute; discriminate.
  - repeat constructor; unfold two32; lia.
  - vm_compute. reflexivity.
  - vm_compute. split; [discriminate|reflexivity].
  - vm_compute. reflexivity.
Defined.

(* ------------------------------------------------------------------ *)
(** ** postprocess_distances: relations between the metrics *)

(** Negating the constant negates the binary32 product. *)
Lemma fmul_fneg_r (x c : Ivf.float) :
  Ivf.fmul x (Ivf.fneg c) = Ivf.fneg (Ivf.fmul x c).
Proof.
  unfold Ivf.fmul, Ivf.fneg.
  destruct x as [sx|sx| |sx mx ex]; destruct c as [sc|sc| |sc mc ec];
    try reflexivity;
    try (destruct sx; destruct sc; reflexivity).
  unfold SFmul, SFopp, binary_round_aux.
  destruct (shr_fexp 24 128 (Z.pos (mx * mc)) (ex + ec) loc_Exact) as [mrs e'].
  destruct (shr_fexp 24 128 (round_nearest_even (shr_m mrs) (loc_of_shr_record mrs))
              e' loc_Exact) as [mrs' e''].
  destruct sx; destruct sc; cbn [negb xorb];
    destruct (shr_m mrs'); try reflexivity;
    destruct (e'' <=? 128 - 24); reflexivity.
Qed.

(** X15.  Under the inner-product metric every written score is the
    exact negation of the score written under the squared-Euclidean
    metric for the same input and scale, bit for bit (NaN stays NaN);
    the cells beyond [n_queries * topk] are left alone by both. *)
Theorem postprocess_distances_inner_product_negates :
  forall (ScoreInT : Type) (cast_op : ScoreInT -> Ivf.float)
         (out : array Ivf.float) (in_ : array ScoreInT) (n_queries topk : Z)
         (s : Ivf.float),
    exists squared negated,
      Ivf.postprocess_distances ScoreInT cast_op out in_ Ivf.L2Expanded n_queries topk s
      = Ivf.Done squared /\
      Ivf.postprocess_distances ScoreInT cast_op out in_ Ivf.InnerProduct n_queries topk s
      = Ivf.Done negated /\
      forall i,
        negated i = if (0 <=? i) && (i <? wrap64 (n_queries * topk))
                    then Ivf.fneg (squared i) else squared i.
Proof.
  intros ScoreInT cast_op out in_ nq topk s.
  eexists _, _. split; [reflexivity|]. split; [reflexivity|].
  intros i. unfold Ivf.unaryOp, Ivf.compose_op2, Ivf.mul_const_op.
  destruct ((0 <=? i) && (i <? wrap64 (nq * topk))); [|reflexivity].
  rewrite fmul_fneg_l. apply fmul_fneg_r.
Qed.

(** X16.  Under the Euclidean (square-root) metrics a raw score that is
    negative, as rounding in an expanded distance can leave it, is
    turned into NaN whatever the scale. *)
Theorem postprocess_distances_sqrt_of_negative_is_nan :
  forall (ScoreInT : Type) (cast_op : ScoreInT -> Ivf.float)
         (out : array Ivf.float) (in_ : array ScoreInT) (n_queries topk : Z)
         (s : Ivf.float) (i : Z) (m : positive) (e : Z),
    0 <= i < wrap64 (n_queries * topk) ->
    cast_op (in_ i) = S754_finite true m e ->
    exists rooted,
      Ivf.postprocess_distances ScoreInT cast_op out in_ Ivf.L2SqrtExpanded n_queries topk s
      = Ivf.Done rooted /\
      Ivf.postprocess_distances ScoreInT cast_op out in_ Ivf.L2SqrtUnexpanded n_queries topk s
      = Ivf.Done rooted /\
      rooted i = S754_nan.
Proof.
  intros ScoreInT cast_op out in_ nq topk s i m e Hi Hraw.
  eexists. split; [reflexivity|]. split; [reflexivity|].
  unfold Ivf.unaryOp, Ivf.compose_op3, Ivf.mul_const_op, Ivf.sqrt_op.
  rewrite (proj2 (Z.leb_le 0 i)) by lia.
  rewrite (proj2 (Z.ltb_lt i (wrap64 (nq * topk)))) by lia.
  cbn [andb]. rewrite Hraw. reflexivity.
Qed.

Lemma postprocess_distances_sqrt_of_negative_is_nan_witness :
  exists rooted,
    Ivf.postprocess_distances Z Ivf.float_of_Z (fun _ => S754_zero false) (Inputs.of_list 0 [-4])
      Ivf.L2SqrtExpanded 1 1 (Ivf.float_of_Z 1) = Ivf.Done rooted /\
    Ivf.postprocess_distances Z Ivf.float_of_Z (fun _ => S754_zero false) (Inputs.of_list 0 [-4])
      Ivf.L2SqrtUnexpanded 1 1 (Ivf.float_of_Z 1) = Ivf.Done rooted /\
    rooted 0 = S754_nan.
Proof.
  apply (postprocess_distances_sqrt_of_negative_is_nan Z Ivf.float_of_Z
           (fun _ => S754_zero false) (Inputs.of_list 0 [-4]) 1 1 (Ivf.float_of_Z 1) 0 8388608 (-21)).
  - vm_compute. split; [discriminate|reflexivity].
  - vm_compute. reflexivity.
Defined.

(* ------------------------------------------------------------------ *)
(** ** From the cluster sizes to the neighbor identifiers *)


